(** * TopicGraph: layout engine, edge router and viewport fit

    A shallow embedding of the graph component of the curriculum
    browser, followed by the properties its specification states about it.
    The component exists in two versions, [src/components/TopicGraph.tsx]
    and a later one with an instructor filter; their layout engine, edge
    router and fit computation are the same text.  The later version adds
    the filter and keeps the running zoom transform across runs of the
    effect; it is the one embedded here.

    Conventions of the embedding.
    - JavaScript numbers are modelled by exact rationals [Q]; the only
      operation of the component that can leave the rationals is the
      division in [getProgressStats], which is modelled with [number]
      (a rational, [NaN] or [Infinity]).
    - [Map<string, _>] and [Record<number, _>] are [gmap]s, [Set<string>]
      is a [gset].
    - The body of the [useEffect] hook is a pure function of the props,
      of the component state and of the container size. *)

From Stdlib Require Import QArith Qminmax Qround Qpower ZArith List Bool Lia Lqa Permutation Sorted.
From stdpp Require Import base gmap strings list fin_maps pretty sorting.
Import ListNotations.

Local Open Scope Q_scope.

(** ** Data model ([types.ts]) *)

Record SubTopic := { sub_id : string }.

Record Teacher := { email : string }.

Record Topic := {
  id : string;
  level : Z;
  subTopics : list SubTopic;
  relatedTopics : list string;
  teacher : Teacher
}.

(** Layout constants. *)
Definition NODE_WIDTH : Q := 240.
Definition NODE_HEIGHT : Q := 160.
Definition LEVEL_SPACING : Z := 500.
Definition NODE_SPACING : Q := 280.
Definition CONNECTOR_OFFSET : Q := 15.

(** ** Numbers that may be [NaN] *)

Inductive number :=
| Num (q : Q)
| NaN
| PosInfinity.

(** [a / b] on two array lengths. *)
Definition js_div_len (a b : nat) : number :=
  match b with
  | O => match a with O => NaN | S _ => PosInfinity end
  | S _ => Num (inject_Z (Z.of_nat a) / inject_Z (Z.of_nat b))
  end.

Definition js_mul (n : number) (c : Q) : number :=
  match n with
  | Num q => Num (q * c)
  | NaN => NaN
  | PosInfinity => PosInfinity
  end.

(** [n === c] *)
Definition js_eq (n : number) (c : Q) : bool :=
  match n with
  | Num q => Qeq_bool q c
  | _ => false
  end.

Definition num_le (a b : number) : Prop :=
  match a, b with
  | Num p, Num q => p <= q
  | _, _ => False
  end.

(** ** Progress statistics *)

Record Stats := { completed : nat; total : nat; percent : number }.

Definition getProgressStats (completedSubTopics : gset string) (topic : Topic) : Stats :=
  match length (subTopics topic) with
  | O => {| completed := 0; total := 0; percent := Num 0 |}
  | S _ =>
      let completed :=
        length (List.filter (fun st => bool_decide (sub_id st ∈ completedSubTopics))
                            (subTopics topic)) in
      let total := length (subTopics topic) in
      {| completed := completed;
         total := total;
         percent := js_mul (js_div_len completed total) 100 |}
  end.

Definition isComplete (completedSubTopics : gset string) (topic : Topic) : bool :=
  let stats := getProgressStats completedSubTopics topic in
  (0 <? total stats)%nat && js_eq (percent stats) 100.

(** ** Sorting

    [Array.prototype.sort] with the comparator [(a, b) => a.weight - b.weight]
    is stable and orders by ascending weight.  The sorted array is the one
    that stable insertion computes. *)

Fixpoint insertBy {A} (key : A -> Q) (a : A) (l : list A) : list A :=
  match l with
  | [] => [a]
  | b :: l' => if Qle_bool (key a) (key b) then a :: l else b :: insertBy key a l'
  end.

Definition sortBy {A} (key : A -> Q) (l : list A) : list A :=
  foldr (insertBy key) [] l.

(** [forEach((v, i) => ...)] visits the elements with their index. *)
Definition indexed {A} (l : list A) : list (nat * A) := combine (seq 0 (length l)) l.

(** [arr.includes(s)] on an array of strings. *)
Definition includes (arr : list string) (s : string) : bool :=
  existsb (String.eqb s) arr.

(** ** Layout engine (multi-pass barycentric sweep) *)

Record Position := { pos_x : Q; pos_y : Q }.

(** The [levels] record and [maxLevel], filled by one pass over [topics]. *)
Definition bucket (acc : gmap Z (list Topic) * Z) (t : Topic) : gmap Z (list Topic) * Z :=
  let '(levels, maxLevel) := acc in
  (<[level t := default [] (levels !! level t) ++ [t]]> levels,
   if (maxLevel <? level t)%Z then level t else maxLevel).

Definition buildLevels (topics : list Topic) : gmap Z (list Topic) * Z :=
  fold_left bucket topics (∅, 0%Z).

(** [levels[lvl] || []] *)
Definition levelNodes (levels : gmap Z (list Topic)) (lvl : Z) : list Topic :=
  default [] (levels !! lvl).

(** The values taken by [for (let lvl = lo; lvl <= hi; lvl++)]. *)
Definition levelRange (lo hi : Z) : list Z :=
  map (fun k => (lo + Z.of_nat k)%Z) (seq 0 (Z.to_nat (hi - lo + 1))).

(** [100 + (lvl - 1) * LEVEL_SPACING] *)
Definition levelX (lvl : Z) : Q := inject_Z (100 + (lvl - 1) * LEVEL_SPACING).

Definition startY (height : Q) (count : nat) : Q :=
  let totalHeight := inject_Z (Z.of_nat count) * NODE_SPACING in
  (height / 2) - (totalHeight / 2) + (NODE_SPACING / 2).

Definition applySpacing (height : Q) (sortedNodes : list Topic) (startX : Q)
    (nodePositions : gmap string Position) : gmap string Position :=
  let count := length sortedNodes in
  fold_left
    (fun m '(i, node) =>
       <[id node := {| pos_x := startX;
                       pos_y := startY height count + inject_Z (Z.of_nat i) * NODE_SPACING |}]> m)
    (indexed sortedNodes) nodePositions.

Definition initialPositions (height : Q) (levels : gmap Z (list Topic)) (maxLevel : Z)
    : gmap string Position :=
  fold_left
    (fun m lvl => applySpacing height (levelNodes levels lvl) (levelX lvl) m)
    (levelRange 1 maxLevel) ∅.

(** [nodePositions.get(i)?.y || 0] *)
Definition yOr0 (nodePositions : gmap string Position) (i : string) : Q :=
  match nodePositions !! i with
  | Some p => pos_y p
  | None => 0
  end.

(** [ns.reduce((sum, p) => sum + (nodePositions.get(p.id)?.y || 0), 0)] *)
Definition sumY (nodePositions : gmap string Position) (ns : list Topic) : Q :=
  fold_left (fun sum p => sum + yOr0 nodePositions (id p)) ns 0.

(** The weight of [node], given the neighbours selected by the pass. *)
Definition weightOf (nodePositions : gmap string Position) (node : Topic)
    (neighbours : list Topic) : Q :=
  if (0 <? length neighbours)%nat
  then sumY nodePositions neighbours / inject_Z (Z.of_nat (length neighbours))
  else yOr0 nodePositions (id node).

Definition parentsOf (topics : list Topic) (lvl : Z) (node : Topic) : list Topic :=
  List.filter (fun p => includes (relatedTopics p) (id node) && (level p <? lvl)%Z) topics.

Definition childrenOf (topics : list Topic) (lvl : Z) (node : Topic) : list Topic :=
  List.filter (fun t => includes (relatedTopics node) (id t) && (lvl <? level t)%Z) topics.

(** The body shared by the two inner loops: weigh, sort, respace. *)
Definition levelPass (neighboursOf : list Topic -> Z -> Topic -> list Topic)
    (height : Q) (topics : list Topic) (levels : gmap Z (list Topic))
    (nodePositions : gmap string Position) (lvl : Z) : gmap string Position :=
  let currentNodes := levelNodes levels lvl in
  let nodesWithWeight :=
    map (fun node => (node, weightOf nodePositions node (neighboursOf topics lvl node)))
        currentNodes in
  let sorted := sortBy snd nodesWithWeight in
  applySpacing height (map fst sorted) (levelX lvl) nodePositions.

Definition forwardPass (height : Q) (topics : list Topic) (levels : gmap Z (list Topic))
    (maxLevel : Z) (nodePositions : gmap string Position) : gmap string Position :=
  fold_left (levelPass parentsOf height topics levels) (levelRange 2 maxLevel) nodePositions.

Definition backwardPass (height : Q) (topics : list Topic) (levels : gmap Z (list Topic))
    (maxLevel : Z) (nodePositions : gmap string Position) : gmap string Position :=
  fold_left (levelPass childrenOf height topics levels)
            (rev (levelRange 1 (maxLevel - 1))) nodePositions.

Definition sweep (height : Q) (topics : list Topic) (levels : gmap Z (list Topic))
    (maxLevel : Z) (nodePositions : gmap string Position) : gmap string Position :=
  backwardPass height topics levels maxLevel
    (forwardPass height topics levels maxLevel nodePositions).

(** [for (let i = 0; i < 10; i++) { forward; backward }] *)
Definition refinement (height : Q) (topics : list Topic) (levels : gmap Z (list Topic))
    (maxLevel : Z) (nodePositions : gmap string Position) : gmap string Position :=
  fold_left (fun m (_ : nat) => sweep height topics levels maxLevel m) (seq 0 10) nodePositions.

Definition computeLayout (topics : list Topic) (height : Q) : gmap string Position :=
  let '(levels, maxLevel) := buildLevels topics in
  refinement height topics levels maxLevel (initialPositions height levels maxLevel).

(** ** Edge routing and port sorting *)

(** The intermediate node object [{...t, x, y, stats, complete}]. *)
Record Node := {
  topic : Topic;
  node_x : Q;
  node_y : Q;
  stats : Stats;
  complete : bool
}.

(** [nodePositions.get(t.id) || { x: 0, y: 0 }] *)
Definition posOrOrigin (nodePositions : gmap string Position) (i : string) : Position :=
  default {| pos_x := 0; pos_y := 0 |} (nodePositions !! i).

Definition mkNode (completedSubTopics : gset string) (nodePositions : gmap string Position)
    (t : Topic) : Node :=
  let pos := posOrOrigin nodePositions (id t) in
  let stats := getProgressStats completedSubTopics t in
  {| topic := t;
     node_x := pos_x pos;
     node_y := pos_y pos;
     stats := stats;
     complete := js_eq (percent stats) 100 |}.

Definition mkNodes (completedSubTopics : gset string) (nodePositions : gmap string Position)
    (topics : list Topic) : list Node :=
  map (mkNode completedSubTopics nodePositions) topics.

Record LinkData := {
  source : Node;
  target : Node;
  active : bool;
  sourceIndex : option nat;
  sourceTotal : option nat;
  targetIndex : option nat;
  targetTotal : option nat
}.

(** [nodes.find(n => n.id === targetId)] *)
Definition findNode (nodes : list Node) (targetId : string) : option Node :=
  List.find (fun n => String.eqb (id (topic n)) targetId) nodes.

(** The object pushed on [allLinks]: [{ source, target, active: source.complete }],
    its four port fields still undefined. *)
Definition newLink (src tgt : Node) : LinkData :=
  {| source := src; target := tgt; active := complete src;
     sourceIndex := None; sourceTotal := None; targetIndex := None; targetTotal := None |}.

Definition linksFrom (nodes : list Node) (src : Node) : list LinkData :=
  flat_map
    (fun targetId =>
       match findNode nodes targetId with
       | Some tgt =>
           if (level (topic src) <? level (topic tgt))%Z
           then [newLink src tgt]
           else []
       | None => []
       end)
    (relatedTopics (topic src)).

Definition allLinks (nodes : list Node) : list LinkData :=
  flat_map (linksFrom nodes) nodes.

(** Port sorting mutates the link objects through the arrays [outgoing] and
    [incoming], which alias the elements of [allLinks].  A link object is
    identified by its index in [allLinks]; [outgoing] and [incoming] are
    lists of such indices and the assignments update the shared list. *)

Definition setSourcePort (i n : nat) (l : LinkData) : LinkData :=
  {| source := source l; target := target l; active := active l;
     sourceIndex := Some i; sourceTotal := Some n;
     targetIndex := targetIndex l; targetTotal := targetTotal l |}.

Definition setTargetPort (i n : nat) (l : LinkData) : LinkData :=
  {| source := source l; target := target l; active := active l;
     sourceIndex := sourceIndex l; sourceTotal := sourceTotal l;
     targetIndex := Some i; targetTotal := Some n |}.

(** [allLinks.filter(l => sel(l).id === node.id)], as indices. *)
Definition linksOf (sel : LinkData -> Node) (links : list LinkData) (i : string) : list nat :=
  List.filter
    (fun j => match links !! j with
              | Some l => String.eqb (id (topic (sel l))) i
              | None => false
              end)
    (seq 0 (length links)).

(** The sort key of the link object [j]: [y] of the node at its far end. *)
Definition farY (far : LinkData -> Node) (links : list LinkData) (j : nat) : Q :=
  match links !! j with
  | Some l => node_y (far l)
  | None => 0
  end.

Definition assignPorts (sel far : LinkData -> Node) (set : nat -> nat -> LinkData -> LinkData)
    (links : list LinkData) (node : Node) : list LinkData :=
  let group := linksOf sel links (id (topic node)) in
  let sorted := sortBy (farY far links) group in
  fold_left (fun ls '(i, j) => alter (set i (length sorted)) j ls) (indexed sorted) links.

Definition sortPorts (nodes : list Node) (links : list LinkData) : list LinkData :=
  let afterOutgoing := fold_left (assignPorts source target setSourcePort) nodes links in
  fold_left (assignPorts target source setTargetPort) nodes afterOutgoing.

Definition routeEdges (nodes : list Node) : list LinkData :=
  sortPorts nodes (allLinks nodes).

(** ** Viewport: zoom transforms and the initial fit *)

(** d3-zoom's transform [{k, x, y}], with its [translate], [scale] and
    [apply] methods. *)
Record ZoomTransform := { t_k : Q; t_x : Q; t_y : Q }.

Definition zoomIdentity : ZoomTransform := {| t_k := 1; t_x := 0; t_y := 0 |}.

Definition translate (t : ZoomTransform) (x y : Q) : ZoomTransform :=
  {| t_k := t_k t; t_x := t_x t + t_k t * x; t_y := t_y t + t_k t * y |}.

Definition scale (t : ZoomTransform) (k : Q) : ZoomTransform :=
  {| t_k := t_k t * k; t_x := t_x t; t_y := t_y t |}.

Definition applyX (t : ZoomTransform) (x : Q) : Q := x * t_k t + t_x t.
Definition applyY (t : ZoomTransform) (y : Q) : Q := y * t_k t + t_y t.

(** [d3.min] and [d3.max] return [undefined] on an empty array. *)
Definition d3_min (l : list Q) : option Q :=
  match l with
  | [] => None
  | a :: l' => Some (fold_left Qmin l' a)
  end.

Definition d3_max (l : list Q) : option Q :=
  match l with
  | [] => None
  | a :: l' => Some (fold_left Qmax l' a)
  end.

(** [v || 0] on the result of [d3.min] / [d3.max]. *)
Definition orZero (v : option Q) : Q := default 0 v.

Definition Qlt_bool (a b : Q) : bool := negb (Qle_bool b a).

(** The bounding box of the graph. *)
Record Bounds := { minX : Q; maxX : Q; minY : Q; maxY : Q }.

Definition graphBounds (nodes : list Node) : Bounds :=
  {| minX := orZero (d3_min (map node_x nodes));
     maxX := orZero (d3_max (map (fun d => node_x d + NODE_WIDTH) nodes));
     minY := orZero (d3_min (map node_y nodes));
     maxY := orZero (d3_max (map (fun d => node_y d + NODE_HEIGHT) nodes)) |}.

Definition graphWidth (b : Bounds) : Q := maxX b - minX b.
Definition graphHeight (b : Bounds) : Q := maxY b - minY b.

Definition padding : Q := 100.
Definition availableWidth (width : Q) : Q := width - padding * 2.
Definition availableHeight (height : Q) : Q := height - padding * 2.

(** [Math.min(availableWidth / graphWidth, availableHeight / graphHeight)] *)
Definition rawScale (b : Bounds) (width height : Q) : Q :=
  Qmin (availableWidth width / graphWidth b) (availableHeight height / graphHeight b).

(** [if (scale > 1) scale = 1; if (scale < 0.1) scale = 0.1;] *)
Definition clampScale (s : Q) : Q :=
  let s1 := if Qlt_bool 1 s then 1 else s in
  if Qlt_bool s1 (1 # 10) then 1 # 10 else s1.

Definition fitScale (b : Bounds) (width height : Q) : Q :=
  clampScale (rawScale b width height).

Definition centerX (b : Bounds) : Q := (minX b + maxX b) / 2.
Definition centerY (b : Bounds) : Q := (minY b + maxY b) / 2.

Definition initialTransform (nodes : list Node) (width height : Q) : ZoomTransform :=
  let b := graphBounds nodes in
  let s := fitScale b width height in
  let tx := (width / 2) - (s * centerX b) in
  let ty := (height / 2) - (s * centerY b) in
  scale (translate zoomIdentity tx ty) s.

(** [transformRef.current.k === 1 && ... .x === 0 && ... .y === 0] *)
Definition isZoomIdentity (current : ZoomTransform) : bool :=
  Qeq_bool (t_k current) 1 && Qeq_bool (t_x current) 0 && Qeq_bool (t_y current) 0.

(** The transform handed to [zoom.transform] by the component with the
    instructor filter: the running transform unless it is the identity. *)
Definition appliedTransform (current : ZoomTransform) (nodes : list Node) (width height : Q)
    : ZoomTransform :=
  if negb (isZoomIdentity current)
  then current
  else initialTransform nodes width height.

(** ** Rendering attributes that read the instructor filter *)

Definition isHidden (hiddenTeacherEmails : gset string) (d : Node) : bool :=
  bool_decide (email (teacher (topic d)) ∈ hiddenTeacherEmails).

Definition nodeOpacity (hiddenTeacherEmails : gset string) (d : Node) : Q :=
  if isHidden hiddenTeacherEmails d then 2 # 10 else 1.

(** The click handler: [onSelectTopic(d)] unless the owner is hidden. *)
Definition nodeClick (hiddenTeacherEmails : gset string) (d : Node) : option Topic :=
  if negb (isHidden hiddenTeacherEmails d) then Some (topic d) else None.

Definition linkOpacity (hiddenTeacherEmails : gset string) (d : LinkData) : Q :=
  let sourceHidden := isHidden hiddenTeacherEmails (source d) in
  let targetHidden := isHidden hiddenTeacherEmails (target d) in
  if sourceHidden || targetHidden then 1 # 10
  else if active d then 1 else 5 # 10.

(** ** One run of the effect *)

Record Scene := {
  scene_positions : gmap string Position;
  scene_nodes : list Node;
  scene_links : list LinkData;
  scene_transform : ZoomTransform;
  scene_nodeOpacity : list Q;
  scene_nodeClick : list (option Topic);
  scene_linkOpacity : list Q
}.

(** The effect returns at once on an empty topic list; otherwise it lays
    the graph out, routes the edges, picks the transform and draws.  The
    zoom handler stores the applied transform back into [transformRef]. *)
Definition runEffect (topics : list Topic) (completedSubTopics hiddenTeacherEmails : gset string)
    (width height : Q) (transformRef : ZoomTransform) : option Scene :=
  match topics with
  | [] => None
  | _ :: _ =>
      let nodePositions := computeLayout topics height in
      let nodes := mkNodes completedSubTopics nodePositions topics in
      let links := routeEdges nodes in
      Some {| scene_positions := nodePositions;
              scene_nodes := nodes;
              scene_links := links;
              scene_transform := appliedTransform transformRef nodes width height;
              scene_nodeOpacity := map (nodeOpacity hiddenTeacherEmails) nodes;
              scene_nodeClick := map (nodeClick hiddenTeacherEmails) nodes;
              scene_linkOpacity := map (linkOpacity hiddenTeacherEmails) links |}
  end.

(** The port geometry of a link. *)
Definition ports (l : LinkData) : option nat * option nat * option nat * option nat :=
  (sourceIndex l, sourceTotal l, targetIndex l, targetTotal l).

(** ** Sample data *)

Definition mkTopic (i : string) (lvl : Z) (subs : list string) (rel : list string) : Topic :=
  {| id := i; level := lvl; subTopics := map Build_SubTopic subs;
     relatedTopics := rel; teacher := {| email := "t@example.org" |} |}.

(** A (level 1) unlocks B (level 2). *)
Definition topicA : Topic := mkTopic "A" 1 ["A-1"; "A-2"] ["B"].
Definition topicB : Topic := mkTopic "B" 2 ["B-1"] [].

(** Three unrelated topics of level 2. *)
Definition topicP : Topic := mkTopic "P" 2 [] [].
Definition topicQ : Topic := mkTopic "Q" 2 [] [].
Definition topicR : Topic := mkTopic "R" 2 [] [].

(** A topic of the last level. *)
Definition topicWide : Topic := mkTopic "Z" 5 [] [].

(** ** The refinement loop as the specification words it

    A second description of the loop, written from the prose and without
    the helper functions of the embedding above: which topics are parents
    and children, what the sort weight is, what it means that a level has
    been re-sorted and respaced, and in which order levels and sweeps
    follow each other. *)
Module Spec.

(** The parents of [node]: the topics at a strictly lower level whose
    [relatedTopics] contains the node's id. *)
Definition parents (topics : list Topic) (node : Topic) : list Topic :=
  List.filter
    (fun p => bool_decide ((level p < level node)%Z /\ id node ∈ relatedTopics p))
    topics.

(** The children of [node]: the topics at a strictly higher level that the
    node's [relatedTopics] references. *)
Definition children (topics : list Topic) (node : Topic) : list Topic :=
  List.filter
    (fun c => bool_decide ((level node < level c)%Z /\ id c ∈ relatedTopics node))
    topics.

(** The current ordinate of a topic (0 while it has none). *)
Definition currentY (positions : gmap string Position) (t : Topic) : Q :=
  match positions !! id t with
  | Some p => pos_y p
  | None => 0
  end.

Definition mean (ys : list Q) : Q :=
  fold_right Qplus 0 ys / inject_Z (Z.of_nat (length ys)).

(** The sort weight: the arithmetic mean of the current ordinates of the
    neighbours, or the node's own current ordinate when it has none. *)
Definition weight (neighbours : list Topic) (positions : gmap string Position)
    (node : Topic) : Q :=
  match neighbours with
  | [] => currentY positions node
  | _ :: _ => mean (map (currentY positions) neighbours)
  end.

Definition maxLevel (topics : list Topic) : Z := fold_right Z.max 0%Z (map level topics).

Definition nodesAt (topics : list Topic) (lvl : Z) : list Topic :=
  List.filter (fun t => (level t =? lvl)%Z) topics.

(** The spacing formula: the abscissa of a level, and the ordinate of the
    slot [k] of a level of [n] nodes. *)
Definition column (lvl : Z) : Q := inject_Z (100 + (lvl - 1) * 500).

Definition slot (height : Q) (n k : nat) : Q :=
  height / 2 - (inject_Z (Z.of_nat n) * 280) / 2 + 280 / 2 + inject_Z (Z.of_nat k) * 280.

(** [positions'] is [positions] after the level [lvl] has been re-sorted by
    [weight] ascending and respaced: some ordering of the nodes of the level
    is ascending in weight, every id outside the level keeps its entry, and
    (ids of the level being distinct) the node at place [k] of the ordering
    sits in slot [k]. *)
Definition resorted (height : Q) (topics : list Topic) (weight : Topic -> Q) (lvl : Z)
    (positions positions' : gmap string Position) : Prop :=
  exists order : list Topic,
    Permutation order (nodesAt topics lvl)
    /\ (forall i j a b, (i <= j)%nat -> order !! i = Some a -> order !! j = Some b ->
          weight a <= weight b)
    /\ (forall i, ~ In i (map id order) -> positions' !! i = positions !! i)
    /\ (NoDup (map id order) ->
        forall k t, order !! k = Some t ->
          positions' !! id t
          = Some {| pos_x := column lvl; pos_y := slot height (length order) k |}).

(** 2, 3, ..., maxLevel *)
Definition forwardLevels (topics : list Topic) : list Z :=
  map Z.of_nat (seq 2 (Z.to_nat (maxLevel topics) - 1)).

(** maxLevel-1, ..., 2, 1 *)
Definition backwardLevels (topics : list Topic) : list Z :=
  rev (map Z.of_nat (seq 1 (Z.to_nat (maxLevel topics) - 1))).

(** [positions'] results from [positions] by one [pass] per level of
    [lvls], in the order of the list. *)
Fixpoint passes (pass : Z -> gmap string Position -> gmap string Position -> Prop)
    (lvls : list Z) (positions positions' : gmap string Position) : Prop :=
  match lvls with
  | [] => positions' = positions
  | lvl :: rest =>
      exists between, pass lvl positions between /\ passes pass rest between positions'
  end.

(** The forward pass weighs by parents, the backward pass by children; the
    weights of a level are read from the positions the level starts with. *)
Definition forward (height : Q) (topics : list Topic)
    (positions positions' : gmap string Position) : Prop :=
  passes (fun lvl before after =>
            resorted height topics (fun node => weight (parents topics node) before node)
                     lvl before after)
         (forwardLevels topics) positions positions'.

Definition backward (height : Q) (topics : list Topic)
    (positions positions' : gmap string Position) : Prop :=
  passes (fun lvl before after =>
            resorted height topics (fun node => weight (children topics node) before node)
                     lvl before after)
         (backwardLevels topics) positions positions'.

Definition sweep (height : Q) (topics : list Topic)
    (positions positions' : gmap string Position) : Prop :=
  exists between, forward height topics positions between
                  /\ backward height topics between positions'.

(** [n] steps in a row. *)
Fixpoint times (n : nat) (step : gmap string Position -> gmap string Position -> Prop)
    (positions positions' : gmap string Position) : Prop :=
  match n with
  | O => positions' = positions
  | S n' => exists between, step positions between /\ times n' step between positions'
  end.

Definition refine (height : Q) (topics : list Topic)
    (positions positions' : gmap string Position) : Prop :=
  times 10 (sweep height topics) positions positions'.

End Spec.

(** Two topics of level 1 and their children at level 2, listed so that
    the links cross: A unlocks D, B unlocks C. *)
Definition crossA : Topic := mkTopic "A" 1 ["A-1"] ["D"].
Definition crossB : Topic := mkTopic "B" 1 ["B-1"] ["C"].
Definition crossC : Topic := mkTopic "C" 2 ["C-1"] [].
Definition crossD : Topic := mkTopic "D" 2 ["D-1"] [].
Definition crossing : list Topic := [crossA; crossB; crossC; crossD].

(** ** Auxiliary notions used in the statements *)

(** Every topic has an entry in the position map. *)
Definition covered (topics : list Topic) (nodePositions : gmap string Position) : Prop :=
  forall t, In t topics -> is_Some (nodePositions !! id t).

Definition sourcePort (l : LinkData) : option nat * option nat := (sourceIndex l, sourceTotal l).
Definition targetPort (l : LinkData) : option nat * option nat := (targetIndex l, targetTotal l).

(** The link objects attached to node [a] at their [sel] end carry, in
    ascending order of the ordinate of their [far] end, the port indices
    0, 1, 2, ... and the size of the group as total. *)
Definition ported (sel far : LinkData -> Node) (port : LinkData -> option nat * option nat)
    (links : list LinkData) (a : string) : Prop :=
  let sorted := sortBy (farY far links) (linksOf sel links a) in
  forall i j, sorted !! i = Some j ->
    exists l, links !! j = Some l /\ port l = (Some i, Some (length sorted)).

(** The source, target and active flag of a link. *)
Definition ends (l : LinkData) : Node * Node * bool := (source l, target l, active l).

(** What the drawing of a link depends on besides its style: the topics
    and coordinates of its two ends and its four port numbers. *)
Definition geometry (l : LinkData) :=
  (topic (source l), node_x (source l), node_y (source l),
   topic (target l), node_x (target l), node_y (target l), ports l).

(** The image of the bounding box under [t] lies inside the viewport. *)
Definition fitsViewport (t : ZoomTransform) (b : Bounds) (width height : Q) : Prop :=
  0 <= applyX t (minX b) /\ applyX t (maxX b) <= width
  /\ 0 <= applyY t (minY b) /\ applyY t (maxY b) <= height.

(** ** Path geometry of a link *)

(** [d.sourceIndex || 0]: an undefined index reads as 0. *)
Definition indexOr0 (v : option nat) : nat := default 0%nat v.

(** [d.sourceTotal || 1]: an undefined total, and a total of 0, read as 1. *)
Definition totalOr1 (v : option nat) : nat :=
  match v with
  | Some (S n) => S n
  | _ => 1%nat
  end.

(** [(idx - (tot - 1) / 2) * CONNECTOR_OFFSET] *)
Definition portOffset (idx tot : nat) : Q :=
  (inject_Z (Z.of_nat idx) - (inject_Z (Z.of_nat tot) - 1) / 2) * CONNECTOR_OFFSET.

(** The four corners of the polyline [M sx sy L turnX sy L turnX ty L tx ty]. *)
Record LinkPath := {
  path_sx : Q;
  path_sy : Q;
  path_turnX : Q;
  path_tx : Q;
  path_ty : Q
}.

Definition linkPath (d : LinkData) : LinkPath :=
  let sIdx := indexOr0 (sourceIndex d) in
  let sTot := totalOr1 (sourceTotal d) in
  let tIdx := indexOr0 (targetIndex d) in
  let tTot := totalOr1 (targetTotal d) in
  let sOffset := portOffset sIdx sTot in
  let tOffset := portOffset tIdx tTot in
  let sx := node_x (source d) + NODE_WIDTH in
  let sy := node_y (source d) + (NODE_HEIGHT / 2) + sOffset in
  let tx := node_x (target d) in
  let ty := node_y (target d) + (NODE_HEIGHT / 2) + tOffset in
  let gapWidth := inject_Z LEVEL_SPACING - NODE_WIDTH in
  let turnX := node_x (source d) + NODE_WIDTH + (gapWidth / 2) + (sOffset * (15 # 10)) in
  {| path_sx := sx; path_sy := sy; path_turnX := turnX; path_tx := tx; path_ty := ty |}.

(** A topic with three dependants. *)
Definition topicS : Topic := mkTopic "S" 1 ["S-1"] ["P"; "Q"; "R"].

(** The nodes of [column] occupy, in some order, the slots of the spacing
    formula at the abscissa of level [L]. *)
Definition columnSpaced (height : Q) (L : Z) (column : list Topic)
    (nodePositions : gmap string Position) : Prop :=
  exists sorted,
    Permutation sorted column
    /\ forall k t, sorted !! k = Some t ->
         nodePositions !! id t
         = Some {| pos_x := levelX L;
                   pos_y := startY height (length column)
                            + inject_Z (Z.of_nat k) * NODE_SPACING |}.

(** ** The overlay of the graph: global progress, instructor legend, cursor *)

(** *** Arithmetic in doubles

    The percentages are computed in IEEE 754 double precision and then
    rounded to an integer, so the rounding of the division and of the
    multiplication is part of the result: [(23 / 40) * 100] is
    [57.49999999999999] and rounds to 57.  A double is given here by its
    exact rational value. *)

(** The integer nearest to [s], halves to the even one. *)
Definition roundHalfEven (s : Q) : Z :=
  let f := Qfloor s in
  match Qcompare (s - inject_Z f) (1 # 2) with
  | Lt => f
  | Gt => (f + 1)%Z
  | Eq => if Z.even f then f else (f + 1)%Z
  end.

(** The exponent [e] of the binade of [q > 0]: [2^52 <= q / 2^e < 2^53].
    The estimate from the bit lengths of numerator and denominator is
    right or one too large. *)
Definition binade (q : Q) : Z :=
  let e0 := (Z.log2 (Qnum q) - Z.log2 (Zpos (Qden q)) - 52)%Z in
  if Qle_bool (2 ^ 52) (q / 2 ^ e0) then e0 else (e0 - 1)%Z.

(** The double nearest to [q > 0]: a 53-bit significand in the binade of
    [q], rounded to nearest, ties to even. *)
Definition nearestDouble (q : Q) : Q :=
  let e := binade q in inject_Z (roundHalfEven (q / 2 ^ e)) * 2 ^ e.

(** The double that an arithmetic operation returns for the exact result
    [q] (magnitudes within the normal range: neither overflow nor
    subnormal numbers occur in the computations below). *)
Definition double (q : Q) : Q :=
  let r := Qred q in
  match Qnum r with
  | Z0 => 0
  | Zpos _ => nearestDouble r
  | Zneg _ => - nearestDouble (- r)
  end.

(** [a / b] on two array lengths and [n * c], in doubles. *)
Definition double_div_len (a b : nat) : number :=
  match js_div_len a b with
  | Num q => Num (double q)
  | NaN => NaN
  | PosInfinity => PosInfinity
  end.

Definition double_mul (n : number) (c : Q) : number :=
  match js_mul n c with
  | Num q => Num (double q)
  | NaN => NaN
  | PosInfinity => PosInfinity
  end.

(** [Math.round(x)] for a double [x]: the nearest integer, halves upwards.
    This step is exact. *)
Definition Math_round (x : Q) : Z := Qfloor (x + (1 # 2)).

Record OverallStats := {
  overall_completed : nat;
  overall_total : nat;
  overall_percent : Z
}.

(** The two nested [forEach] loops of [overallStats], counting in
    [completed] and [total]. *)
Definition countSubTopic (completedSubTopics : gset string) (acc : nat * nat) (st : SubTopic)
    : nat * nat :=
  let '(completed, total) := acc in
  (if bool_decide (sub_id st ∈ completedSubTopics) then S completed else completed, S total).

Definition countTopic (completedSubTopics : gset string) (acc : nat * nat) (t : Topic)
    : nat * nat :=
  fold_left (countSubTopic completedSubTopics) (subTopics t) acc.

Definition overallStats (topics : list Topic) (completedSubTopics : gset string)
    : OverallStats :=
  let '(completed, total) := fold_left (countTopic completedSubTopics) topics (0%nat, 0%nat) in
  {| overall_completed := completed;
     overall_total := total;
     overall_percent :=
       if (0 <? total)%nat
       then Math_round
              (double (double (inject_Z (Z.of_nat completed) / inject_Z (Z.of_nat total))
                       * 100))
       else 0%Z |}.

(** [uniqueTeachers]: a [Map] from email to teacher, filled in topic order
    when the email is not yet a key; its values in insertion order. *)
Definition addTeacher (map : list (string * Teacher)) (t : Topic) : list (string * Teacher) :=
  if existsb (fun kv => String.eqb (fst kv) (email (teacher t))) map
  then map
  else map ++ [(email (teacher t), teacher t)].

Definition uniqueTeachers (topics : list Topic) : list Teacher :=
  map snd (fold_left addTeacher topics []).

(** [toggleTeacher]: a copy of the set with the email removed if present,
    added otherwise. *)
Definition toggleTeacher (e : string) (prev : gset string) : gset string :=
  if bool_decide (e ∈ prev) then prev ∖ {[e]} else prev ∪ {[e]}.

(** [handleMouseMove]: the world coordinates under the pointer. *)
Record Coords := { coords_x : Q; coords_y : Q; coords_z : Q }.

Definition handleMouseMove (rectLeft rectTop eClientX eClientY : Q) (t : ZoomTransform)
    : Coords :=
  let clientX := eClientX - rectLeft in
  let clientY := eClientY - rectTop in
  let worldX := (clientX - t_x t) / t_k t in
  let worldY := (clientY - t_y t) / t_k t in
  {| coords_x := worldX; coords_y := worldY; coords_z := 0 |}.

(** ** The application around the graph: permissions, prerequisites, progress *)

Inductive Role := Student | Admin.

(** The fields of a user that the topic selection reads: [role?] and
    [allowedTopics?]. *)
Record User := { role : option Role; allowedTopics : option (list string) }.

(** [currentUser.role === 'admin'] *)
Definition roleIsAdmin (r : option Role) : bool :=
  match r with
  | Some Admin => true
  | _ => false
  end.

Definition lockedTopicIds (currentUser : option User) (currentTopics : list Topic)
    : gset string :=
  match currentUser with
  | None => ∅
  | Some u =>
      if roleIsAdmin (role u) then ∅
      else
        let allowed : gset string := list_to_set (default [] (allowedTopics u)) in
        fold_left
          (fun locked t => if bool_decide (id t ∈ allowed) then locked else locked ∪ {[id t]})
          currentTopics ∅
  end.

(** What [handleTopicSelect] does: the alert for a locked account, the
    alert listing the incomplete prerequisites, or the topic view. *)
Inductive Selection :=
| AccountLocked
| PrerequisitesMissing (missing : list Topic)
| TopicOpened.

(** [p.subTopics.some(st => !completedSubTopics.has(st.id))] *)
Definition hasIncompleteSubTopic (completedSubTopics : gset string) (p : Topic) : bool :=
  existsb (fun st => negb (bool_decide (sub_id st ∈ completedSubTopics))) (subTopics p).

Definition handleTopicSelect (currentUser : option User) (currentTopics : list Topic)
    (completedSubTopics : gset string) (topic : Topic) : Selection :=
  if bool_decide (id topic ∈ lockedTopicIds currentUser currentTopics) then AccountLocked
  else
    let prerequisites :=
      List.filter
        (fun t => includes (relatedTopics t) (id topic) && (level t <? level topic)%Z)
        currentTopics in
    let missing := List.filter (hasIncompleteSubTopic completedSubTopics) prerequisites in
    (* currentUser?.role !== 'admin' *)
    let notAdmin :=
      negb (match currentUser with Some u => roleIsAdmin (role u) | None => false end) in
    if (0 <? length missing)%nat && notAdmin
    then PrerequisitesMissing missing
    else TopicOpened.

(** The persisted progress of the learner.  A quiz attempt keeps the
    selected option indices per question id and whether it passed. *)
Record QuizAttempt := { answers : gmap string (list nat); passed : bool }.

Record Progress := {
  completedSubTopics : gset string;
  submittedExercises : gset string;
  quizProgress : gmap string (list QuizAttempt)
}.

Definition toggleSubTopicCompletion (subTopicId : string) (p : Progress) : Progress :=
  {| completedSubTopics :=
       if bool_decide (subTopicId ∈ completedSubTopics p)
       then completedSubTopics p ∖ {[subTopicId]}
       else completedSubTopics p ∪ {[subTopicId]};
     submittedExercises := submittedExercises p;
     quizProgress := quizProgress p |}.

Definition handleExerciseSubmission (subTopicId : string) (quizData : option QuizAttempt)
    (p : Progress) : Progress :=
  match quizData with
  | Some attempt =>
      let recorded :=
        <[subTopicId := default [] (quizProgress p !! subTopicId) ++ [attempt]]>
          (quizProgress p) in
      if passed attempt
      then {| completedSubTopics := completedSubTopics p ∪ {[subTopicId]};
              submittedExercises := submittedExercises p ∪ {[subTopicId]};
              quizProgress := recorded |}
      else {| completedSubTopics := completedSubTopics p;
              submittedExercises := submittedExercises p;
              quizProgress := recorded |}
  | None =>
      {| completedSubTopics := completedSubTopics p ∪ {[subTopicId]};
         submittedExercises := submittedExercises p ∪ {[subTopicId]};
         quizProgress := quizProgress p |}
  end.

(** ** The list view of the curriculum: one row per topic *)

(** [Math.round] on a number that may be [NaN] or infinite. *)
Definition js_round (n : number) : number :=
  match n with
  | Num q => Num (inject_Z (Math_round q))
  | NaN => NaN
  | PosInfinity => PosInfinity
  end.

Record ModuleRow := {
  completedCount : nat;
  totalCount : nat;
  progress : number;
  isFullyComplete : bool
}.

Definition moduleRow (completedSubTopics : gset string) (topic : Topic) : ModuleRow :=
  let completedCount :=
    length (List.filter (fun st => bool_decide (sub_id st ∈ completedSubTopics))
                        (subTopics topic)) in
  let totalCount := length (subTopics topic) in
  {| completedCount := completedCount;
     totalCount := totalCount;
     progress := js_round (double_mul (double_div_len completedCount totalCount) 100);
     isFullyComplete := (completedCount =? totalCount)%nat |}.

Definition sampleStudent : User := {| role := Some Student; allowedTopics := Some ["A"] |}.
Definition sampleAdmin : User := {| role := Some Admin; allowedTopics := None |}.
Definition sampleLearner : User :=
  {| role := Some Student; allowedTopics := Some ["A"; "B"] |}.

(** Two topics with 16 and 24 submodules and one with 40, and a completion
    set holding 10, 13 and 23 of them. *)
Definition numbered (prefix : string) (n : nat) : list string :=
  map (fun k => prefix +:+ pretty k) (seq 0 n).

Definition topicSixteen : Topic := mkTopic "L1" 1 (numbered "u" 16) [].
Definition topicTwentyFour : Topic := mkTopic "L2" 2 (numbered "v" 24) [].
Definition topicForty : Topic := mkTopic "F" 1 (numbered "w" 40) [].

Definition partlyDone : gset string :=
  list_to_set (numbered "u" 10 ++ numbered "v" 13 ++ numbered "w" 23).

(** ** The curriculum builder ([AdminBuilder.tsx]) *)

(** The template literal [`${base}-${counter}`]: the counter is printed in
    decimal. *)
Definition candidateId (base : string) (counter : nat) : string :=
  base +:+ "-" +:+ pretty counter.

(** The [while] loop of [getUniqueId], started at [counter]; [fuel] bounds
    the number of times its condition is evaluated.  The result is the value
    of [counter] on exit. *)
Fixpoint uniqueIdLoop (fuel : nat) (base : string) (existingIds : list string)
    (counter : nat) : option nat :=
  match fuel with
  | O => None
  | S fuel' =>
      if includes existingIds (candidateId base counter)
      then uniqueIdLoop fuel' base existingIds (S counter)
      else Some counter
  end.

Definition getUniqueId (fuel : nat) (base : string) (existingIds : list string) : option string :=
  if negb (includes existingIds base) then Some base
  else option_map (candidateId base) (uniqueIdLoop fuel base existingIds 1).

(** [generateSlug "New Topic"]. *)
Definition newTopicSlug : string := "new-topic".

(** [handleAddTopic]: the new topic is appended; [firstTeacher] is
    [teachers[0]]. *)
Definition handleAddTopic (fuel : nat) (firstTeacher : Teacher) (topics : list Topic)
  : option (list Topic) :=
  let baseId := newTopicSlug in
  let existingIds := map id topics in
  match getUniqueId fuel baseId existingIds with
  | Some newId =>
      Some (topics ++ [ {| id := newId; level := 1; subTopics := [];
                           relatedTopics := []; teacher := firstTeacher |} ])
  | None => None
  end.

(** [generateSlug], on text read as its sequence of character codes.  The
    case mapping and the classes [\s] and [\w] are those of ASCII, so the
    model is exact on ASCII text. *)
Definition charCode (c : Ascii.ascii) : nat := Ascii.nat_of_ascii c.

Definition isUpper (c : Ascii.ascii) : bool := (65 <=? charCode c)%nat && (charCode c <=? 90)%nat.

Definition toLowerChar (c : Ascii.ascii) : Ascii.ascii :=
  if isUpper c then Ascii.ascii_of_nat (charCode c + 32) else c.

(** [\s]: tab, line feed, vertical tab, form feed, carriage return, space. *)
Definition isSpace (c : Ascii.ascii) : bool :=
  ((9 <=? charCode c)%nat && (charCode c <=? 13)%nat) || (charCode c =? 32)%nat.

(** [\w]: digits, letters and the underscore. *)
Definition isWord (c : Ascii.ascii) : bool :=
  ((48 <=? charCode c)%nat && (charCode c <=? 57)%nat)
  || ((65 <=? charCode c)%nat && (charCode c <=? 90)%nat)
  || ((97 <=? charCode c)%nat && (charCode c <=? 122)%nat)
  || (charCode c =? 95)%nat.

Definition isDash (c : Ascii.ascii) : bool := (charCode c =? 45)%nat.

Definition dashChar : Ascii.ascii := Ascii.ascii_of_nat 45.

Fixpoint dropWhile {A} (p : A -> bool) (l : list A) : list A :=
  match l with
  | [] => []
  | a :: l' => if p a then dropWhile p l' else l
  end.

Fixpoint dropWhileEnd {A} (p : A -> bool) (l : list A) : list A :=
  match l with
  | [] => []
  | a :: l' =>
      match dropWhileEnd p l' with
      | [] => if p a then [] else [a]
      | r => a :: r
      end
  end.

(** [.trim()] *)
Definition trim (l : list Ascii.ascii) : list Ascii.ascii := dropWhileEnd isSpace (dropWhile isSpace l).

(** [.replace(/\s+/g, '-')]: every maximal run of white space becomes one
    dash; [inRun] tells that the previous character was white space. *)
Fixpoint spacesToDash (inRun : bool) (l : list Ascii.ascii) : list Ascii.ascii :=
  match l with
  | [] => []
  | a :: l' =>
      if isSpace a
      then (if inRun then spacesToDash true l' else dashChar :: spacesToDash true l')
      else a :: spacesToDash false l'
  end.

(** [.replace(/[^\w-]+/g, '')] *)
Definition keepWordAndDash (l : list Ascii.ascii) : list Ascii.ascii :=
  List.filter (fun c => isWord c || isDash c) l.

(** [.replace(/--+/g, '-')]: every run of two or more dashes becomes one
    dash, so that every maximal run of dashes is a single dash. *)
Fixpoint collapseDashes (inRun : bool) (l : list Ascii.ascii) : list Ascii.ascii :=
  match l with
  | [] => []
  | a :: l' =>
      if isDash a
      then (if inRun then collapseDashes true l' else a :: collapseDashes true l')
      else a :: collapseDashes false l'
  end.

Definition slugChars (l : list Ascii.ascii) : list Ascii.ascii :=
  dropWhileEnd isDash
    (dropWhile isDash
       (collapseDashes false
          (keepWordAndDash
             (spacesToDash false
                (trim (map toLowerChar l)))))).

Definition generateSlug (text : string) : string :=
  String.string_of_list_ascii (slugChars (String.list_ascii_of_string text)).

(** The shape of a slug: lower-case letters, digits, underscores and single
    dashes, with no dash at either end. *)
Definition slugChar (c : Ascii.ascii) : bool := (isWord c || isDash c) && negb (isUpper c).

Fixpoint noDoubleDash (l : list Ascii.ascii) : bool :=
  match l with
  | [] => true
  | a :: l' =>
      match l' with
      | [] => true
      | b :: _ => negb (isDash a && isDash b) && noDoubleDash l'
      end
  end.

Definition startsWithDash (l : list Ascii.ascii) : bool :=
  match l with a :: _ => isDash a | [] => false end.

Fixpoint endsWithDash (l : list Ascii.ascii) : bool :=
  match l with
  | [] => false
  | a :: l' => match l' with [] => isDash a | _ => endsWithDash l' end
  end.

Definition isSlug (s : string) : bool :=
  let l := String.list_ascii_of_string s in
  forallb slugChar l && negb (startsWithDash l) && negb (endsWithDash l) && noDoubleDash l.

Definition isAscii (s : string) : Prop :=
  Forall (fun c => (charCode c < 128)%nat) (String.list_ascii_of_string s).

(** ** The topic view ([TopicView]) *)

(** [missingPrerequisites]: the parents of the topic with an incomplete
    submodule. *)
Definition missingPrerequisites (topic : Topic) (topics : list Topic)
    (completedSubTopics : gset string) : list Topic :=
  let parents :=
    List.filter
      (fun t => includes (relatedTopics t) (id topic) && (level t <? level topic)%Z)
      topics in
  List.filter (hasIncompleteSubTopic completedSubTopics) parents.

(** Quiz questions: the fields the grading reads. *)
Record QuizQuestion := { q_id : string; correctAnswers : list nat }.

(** The order of [Array.prototype.sort()] without comparator: the elements
    are compared as strings, here the decimal numerals of option indices. *)
Definition defaultOrder (a b : nat) : Prop := String.le (pretty a) (pretty b).

#[local] Instance defaultOrder_dec : RelDecision defaultOrder :=
  fun a b => String.le_dec (pretty a) (pretty b).

(** [[...l].sort()].  The order is total and no two numbers share a
    numeral, so the sorted array is determined by the order alone. *)
Definition sortDefault (l : list nat) : list nat := merge_sort defaultOrder l.

(** [JSON.stringify(sortedUser) !== JSON.stringify(sortedCorrect)]: two
    arrays of indices print alike exactly when they are equal. *)
Definition answersDiffer (selected : gmap string (list nat)) (q : QuizQuestion) : bool :=
  let userAnswers := default [] (selected !! q_id q) in
  let sortedUser := sortDefault userAnswers in
  let sortedCorrect := sortDefault (correctAnswers q) in
  negb (bool_decide (sortedUser = sortedCorrect)).

(** [submitQuiz]: the attempt handed to [onSubmitExercise]. *)
Definition submitQuiz (quizQuestions : list QuizQuestion)
    (selectedQuizAnswers : gmap string (list nat)) : QuizAttempt :=
  let allCorrect :=
    fold_left (fun allCorrect q => if answersDiffer selectedQuizAnswers q then false else allCorrect)
              quizQuestions true in
  {| answers := selectedQuizAnswers; passed := allCorrect |}.

Definition getIncorrectQuestions (quizQuestions : list QuizQuestion) (attempt : QuizAttempt)
  : list QuizQuestion :=
  List.filter (answersDiffer (answers attempt)) quizQuestions.

(** [handleQuizToggleOption]; nothing changes while the results are shown. *)
Definition handleQuizToggleOption (showQuizResults : bool) (qId : string) (idx : nat)
    (multiSelect : bool) (prev : gmap string (list nat)) : gmap string (list nat) :=
  if showQuizResults then prev
  else
    let current := default [] (prev !! qId) in
    if multiSelect then
      if bool_decide (idx ∈ current)
      then <[qId := List.filter (fun i => negb (i =? idx)%nat) current]> prev
      else <[qId := current ++ [idx]]> prev
    else <[qId := [idx]]> prev.

(** ** Accounts in the curriculum builder *)

(** [handleAddUser]: a new student is allowed every topic of the builder. *)
Definition handleAddUser (topics : list Topic) : User :=
  {| role := Some Student; allowedTopics := Some (map id topics) |}.

(** [handleToggleUserTopic], the user it passes to [handleUpdateUser]. *)
Definition handleToggleUserTopic (user : User) (topicId : string) : User :=
  let currentAllowed := default [] (allowedTopics user) in
  let newAllowed :=
    if includes currentAllowed topicId
    then List.filter (fun i => negb (String.eqb i topicId)) currentAllowed
    else currentAllowed ++ [topicId] in
  {| role := role user; allowedTopics := Some newAllowed |}.

(** ** Discussion threads ([App]: comments of a submodule) *)

(** A comment with the fields the handlers read or write: [id], [text],
    [reactions] (emoji to count) and [replies]. *)
Local Unset Elimination Schemes.
Inductive Comment := mkComment {
  c_id : string;
  c_text : string;
  reactions : gmap string nat;
  replies : list Comment
}.
Local Set Elimination Schemes.

(** [topicComments]: the thread of each submodule id. *)
Definition Threads := gmap string (list Comment).

(** The comment built by [addComment] and [handleReply]; [now] is
    [Date.now().toString()]. *)
Definition newComment (now text : string) : Comment :=
  {| c_id := now; c_text := text; reactions := ∅; replies := [] |}.

Definition addComment (currentUser : option User) (now : string) (subTopicId text : string)
    (prev : Threads) : Threads :=
  match currentUser with
  | None => prev
  | Some _ => <[subTopicId := default [] (prev !! subTopicId) ++ [newComment now text]]> prev
  end.

Fixpoint addReplyToComment (parentCommentId : string) (newReply : Comment) (c : Comment)
  : Comment :=
  match c with
  | mkComment i t r rs =>
      if String.eqb i parentCommentId
      then mkComment i t r (rs ++ [newReply])
      else if (0 <? length rs)%nat
      then mkComment i t r (map (addReplyToComment parentCommentId newReply) rs)
      else c
  end.

Definition handleReply (currentUser : option User) (now : string)
    (subTopicId parentCommentId text : string) (prev : Threads) : Threads :=
  match currentUser with
  | None => prev
  | Some _ =>
      let comments := default [] (prev !! subTopicId) in
      <[subTopicId := map (addReplyToComment parentCommentId (newComment now text)) comments]>
        prev
  end.

(** [deleteComment]: filter the list, then recurse into the replies of the
    comments that are kept. *)
Fixpoint deleteInComment (commentId : string) (c : Comment) : Comment :=
  match c with
  | mkComment i t r rs =>
      mkComment i t r
        ((fix deleteList (l : list Comment) : list Comment :=
            match l with
            | [] => []
            | c' :: l' =>
                if negb (String.eqb (c_id c') commentId)
                then deleteInComment commentId c' :: deleteList l'
                else deleteList l'
            end) rs)
  end.

Definition deleteComment (commentId : string) (thread : list Comment) : list Comment :=
  map (deleteInComment commentId)
      (List.filter (fun c => negb (String.eqb (c_id c) commentId)) thread).

Definition handleDeleteComment (subTopicId commentId : string) (prev : Threads) : Threads :=
  let comments := default [] (prev !! subTopicId) in
  <[subTopicId := deleteComment commentId comments]> prev.

Fixpoint updateReactions (commentId emoji : string) (c : Comment) : Comment :=
  match c with
  | mkComment i t r rs =>
      if String.eqb i commentId
      then
        let currentCount := default 0%nat (r !! emoji) in
        mkComment i t (<[emoji := (currentCount + 1)%nat]> r) rs
      else if (0 <? length rs)%nat
      then mkComment i t r (map (updateReactions commentId emoji) rs)
      else c
  end.

Definition handleReaction (subTopicId commentId emoji : string) (prev : Threads) : Threads :=
  let comments := default [] (prev !! subTopicId) in
  <[subTopicId := map (updateReactions commentId emoji) comments]> prev.

(** The ids of a comment and of all replies below it, and of a thread. *)
Fixpoint commentIds (c : Comment) : list string :=
  match c with
  | mkComment i _ _ rs => i :: flat_map commentIds rs
  end.

Definition threadIds (l : list Comment) : list string := flat_map commentIds l.

(** The first comment with the given id, parents before replies. *)
Fixpoint findInComment (i : string) (c : Comment) : option Comment :=
  match c with
  | mkComment j _ _ rs =>
      if String.eqb j i then Some c
      else
        (fix findList (l : list Comment) : option Comment :=
           match l with
           | [] => None
           | c' :: l' =>
               match findInComment i c' with
               | Some found => Some found
               | None => findList l'
               end
           end) rs
  end.

Fixpoint findComment (i : string) (l : list Comment) : option Comment :=
  match l with
  | [] => None
  | c :: l' =>
      match findInComment i c with
      | Some found => Some found
      | None => findComment i l'
      end
  end.

(** ** Hovering a node ([mouseenter] and [mouseleave]) *)


















(** ** The node card: title and progress bar *)



(** ** Quiz attempts over time *)

(** [hasPassed]: [quizAttempts.some(a => a.passed)] on the attempts of a
    submodule. *)
Definition hasPassed (p : Progress) (subTopicId : string) : bool :=
  existsb passed (default [] (quizProgress p !! subTopicId)).

Definition noProgress : Progress :=
  {| completedSubTopics := ∅; submittedExercises := ∅; quizProgress := ∅ |}.

(** A run of quiz submissions, each the submodule id with its attempt. *)
Definition submitQuizzes (events : list (string * QuizAttempt)) (p : Progress) : Progress :=
  fold_left (fun p e => handleExerciseSubmission (fst e) (Some (snd e)) p) events p.

(** ** Deleting a topic in the builder *)

(** [handleDeleteTopic]; [confirmed] is the answer to [window.confirm].  The
    result is the topic list and [selectedTopicId]. *)
Definition handleDeleteTopic (confirmed : bool) (idToDelete : string) (topics : list Topic)
    (selectedTopicId : string) : list Topic * string :=
  if negb confirmed then (topics, selectedTopicId)
  else
    let remaining := List.filter (fun t => negb (String.eqb (id t) idToDelete)) topics in
    (remaining,
     if String.eqb selectedTopicId idToDelete
     then match remaining with
          | t :: _ => id t
          | [] => ""
          end
     else selectedTopicId).

(** Some routed link leads from topic [s] to topic [t]. *)
Definition linked (nodes : list Node) (s t : Topic) : Prop :=
  exists l, In l (routeEdges nodes) /\ topic (source l) = s /\ topic (target l) = t.

(** * Properties *)

(** ** Completion statistics *)

Lemma filter_length_mono {A} (p q : A -> bool) (l : list A) :
  (forall a, p a = true -> q a = true) ->
  (length (List.filter p l) <= length (List.filter q l))%nat.
Proof.
  intros Hpq. induction l as [|a l IH]; simpl; [lia|].
  destruct (p a) eqn:Hp.
  - rewrite (Hpq a Hp). simpl. lia.
  - destruct (q a); simpl; lia.
Qed.

Lemma filter_length_le {A} (p : A -> bool) (l : list A) :
  (length (List.filter p l) <= length l)%nat.
Proof. induction l as [|a l IH]; simpl; [lia|]. destruct (p a); simpl; lia. Qed.

Lemma percent_is_num (c : gset string) (t : Topic) :
  exists q, percent (getProgressStats c t) = Num q.
Proof.
  unfold getProgressStats. destruct (subTopics t) as [|s l]; simpl; eauto.
Qed.

Lemma percent_scale_mono (a b n : nat) :
  (a <= b)%nat ->
  inject_Z (Z.of_nat a) / inject_Z (Z.of_nat (S n)) * 100
  <= inject_Z (Z.of_nat b) / inject_Z (Z.of_nat (S n)) * 100.
Proof.
  intros Hab. apply Qmult_le_compat_r; [|discriminate].
  unfold Qdiv. apply Qmult_le_compat_r.
  - rewrite <- Zle_Qle. lia.
  - apply Qinv_le_0_compat. rewrite <- (Zle_Qle 0). lia.
Qed.

Lemma complete_is_isComplete (c : gset string) (t : Topic) :
  js_eq (percent (getProgressStats c t)) 100 = isComplete c t.
Proof.
  unfold isComplete, getProgressStats.
  destruct (subTopics t) as [|s l]; reflexivity.
Qed.

Lemma filter_length_all {A} (p : A -> bool) (l : list A) :
  length (List.filter p l) = length l <-> forall a, In a l -> p a = true.
Proof.
  induction l as [|a l IH]; simpl; [tauto|].
  destruct (p a) eqn:Hp; simpl.
  - split.
    + intros H b [<-|Hb]; [done|]. apply IH; [lia|done].
    + intros H. f_equal. apply IH. auto.
  - pose proof (filter_length_le p l) as Hle. split; [lia|].
    intros Hall. specialize (Hall a (or_introl eq_refl)). congruence.
Qed.

Lemma percent_full (a n : nat) :
  inject_Z (Z.of_nat a) / inject_Z (Z.of_nat (S n)) * 100 == 100 <-> a = S n.
Proof.
  assert (0 < inject_Z (Z.of_nat (S n))) as Hn by (rewrite <- (Zlt_Qlt 0); lia).
  assert (~ inject_Z (Z.of_nat (S n)) == 0) as Hne.
  { intros E. rewrite E in Hn. by apply (Qlt_irrefl 0). }
  split.
  - intros H.
    assert (inject_Z (Z.of_nat a)
            == inject_Z (Z.of_nat a) / inject_Z (Z.of_nat (S n)) * 100
               * (inject_Z (Z.of_nat (S n)) * (1 # 100))) as Ha by (by field).
    rewrite H in Ha.
    assert (inject_Z (Z.of_nat a) == inject_Z (Z.of_nat (S n))) as Heq
      by (rewrite Ha; ring).
    apply (proj1 (inject_Z_injective _ _)) in Heq. lia.
  - intros ->. by field.
Qed.

(** [isComplete] says that the topic has submodules and all of them are in
    the completion set. *)
Lemma isComplete_all_completed (c : gset string) (t : Topic) :
  isComplete c t = true
  <-> subTopics t <> [] /\ forall st, In st (subTopics t) -> sub_id st ∈ c.
Proof.
  unfold isComplete, getProgressStats. destruct (subTopics t) as [|s l] eqn:Hs.
  - simpl. split; [done | by intros [? _]].
  - cbn [length total percent js_div_len js_mul js_eq Nat.ltb Nat.leb andb].
    rewrite Qeq_bool_iff, (percent_full _ (length l)).
    change (S (length l)) with (length (s :: l)). rewrite filter_length_all.
    split.
    + intros H. split; [done|]. intros st Hst.
      specialize (H st Hst). by apply bool_decide_eq_true in H.
    + intros [_ H] st Hst. apply bool_decide_eq_true. by apply H.
Qed.

(** C7.  Adding an id to the completion set never lowers a topic's percent;
    [isComplete] holds exactly when the topic has a submodule and its percent
    is 100; a topic without submodules reports percent 0; the percent is
    never [NaN]. *)
Theorem completion_percent_properties (c : gset string) (t : Topic) (i : string) :
  num_le (percent (getProgressStats c t)) (percent (getProgressStats ({[i]} ∪ c) t))
  /\ (isComplete c t = true <->
      subTopics t <> [] /\ exists q, percent (getProgressStats c t) = Num q /\ q == 100)
  /\ (subTopics t = [] -> percent (getProgressStats c t) = Num 0)
  /\ percent (getProgressStats c t) <> NaN.
Proof.
  repeat split.
  - unfold getProgressStats. destruct (subTopics t) as [|s l] eqn:Hs.
    + simpl. apply Qle_refl.
    + cbn [length percent js_div_len js_mul num_le].
      apply percent_scale_mono. apply filter_length_mono.
      intros a Ha. apply bool_decide_eq_true in Ha. apply bool_decide_eq_true.
      set_solver.
  - unfold isComplete, getProgressStats in H.
    destruct (subTopics t); [discriminate | discriminate].
  - unfold isComplete in H. apply andb_true_iff in H as [_ H].
    destruct (percent (getProgressStats c t)) as [q| |]; try discriminate.
    exists q. split; [reflexivity|]. apply Qeq_bool_iff, H.
  - intros [Hne (q & Hq & H100)]. unfold isComplete. rewrite Hq.
    apply andb_true_iff. split.
    + unfold getProgressStats. destruct (subTopics t); [congruence | reflexivity].
    + apply Qeq_bool_iff, H100.
  - intros Hnil. unfold getProgressStats. rewrite Hnil. reflexivity.
  - destruct (percent_is_num c t) as [q Hq]. rewrite Hq. discriminate.
Qed.

Lemma completion_percent_properties_witness :
  let c : gset string := {["A-1"]} in
  num_le (percent (getProgressStats c topicA))
         (percent (getProgressStats ({["A-2"]} ∪ c) topicA))
  /\ percent (getProgressStats c (mkTopic "E" 1 [] [])) = Num 0.
Proof.
  split.
  - apply (completion_percent_properties {["A-1"]} topicA "A-2").
  - apply (completion_percent_properties {["A-1"]} (mkTopic "E" 1 [] []) "A-2").
    reflexivity.
Defined.

(** ** Buckets and level ranges *)

Lemma bucket_fold_levelNodes (topics : list Topic) (levels : gmap Z (list Topic)) (m : Z) (lvl : Z) :
  levelNodes (fold_left bucket topics (levels, m)).1 lvl
  = levelNodes levels lvl ++ List.filter (fun t => (level t =? lvl)%Z) topics.
Proof.
  revert levels m. induction topics as [|t topics IH]; intros levels m; simpl.
  - by rewrite app_nil_r.
  - rewrite IH. unfold levelNodes. destruct (Z.eqb_spec (level t) lvl) as [->|Hne].
    + rewrite lookup_insert_eq. simpl. by rewrite <- app_assoc.
    + by rewrite lookup_insert_ne.
Qed.

Lemma buildLevels_levelNodes (topics : list Topic) (lvl : Z) :
  levelNodes (buildLevels topics).1 lvl = List.filter (fun t => (level t =? lvl)%Z) topics.
Proof.
  unfold buildLevels. rewrite bucket_fold_levelNodes.
  unfold levelNodes. by rewrite lookup_empty.
Qed.

Lemma bucket_fold_max (topics : list Topic) (levels : gmap Z (list Topic)) (m : Z) :
  (m <= (fold_left bucket topics (levels, m)).2)%Z
  /\ forall t, In t topics -> (level t <= (fold_left bucket topics (levels, m)).2)%Z.
Proof.
  revert levels m. induction topics as [|t topics IH]; intros levels m; simpl.
  - split; [lia | tauto].
  - match goal with |- context [fold_left bucket topics (?l, ?k)] =>
      destruct (IH l k) as [Hm Hin] end.
    destruct (Z.ltb_spec m (level t)); (split; [lia|]); intros t' [<-|Ht']; auto; lia.
Qed.

Lemma buildLevels_max (topics : list Topic) (t : Topic) :
  In t topics -> (level t <= (buildLevels topics).2)%Z.
Proof. intros Ht. by apply bucket_fold_max. Qed.

Lemma in_levelRange (lo hi lvl : Z) :
  In lvl (levelRange lo hi) <-> (lo <= lvl <= hi)%Z.
Proof.
  unfold levelRange. rewrite in_map_iff. split.
  - intros (k & <- & Hk). apply in_seq in Hk. lia.
  - intros H. exists (Z.to_nat (lvl - lo)). split; [lia|]. apply in_seq. lia.
Qed.

Lemma in_levelNodes (topics : list Topic) (t : Topic) (lvl : Z) :
  In t (levelNodes (buildLevels topics).1 lvl) <-> In t topics /\ level t = lvl.
Proof.
  rewrite buildLevels_levelNodes, filter_In. by rewrite Z.eqb_eq.
Qed.

(** ** Sorting *)

Lemma insertBy_perm {A} (key : A -> Q) (a : A) (l : list A) :
  Permutation (insertBy key a l) (a :: l).
Proof.
  induction l as [|b l IH]; simpl; [done|].
  destruct (Qle_bool (key a) (key b)); [done|].
  rewrite IH. apply perm_swap.
Qed.

Lemma sortBy_perm {A} (key : A -> Q) (l : list A) : Permutation (sortBy key l) l.
Proof.
  induction l as [|a l IH]; simpl; [done|].
  rewrite insertBy_perm. by constructor.
Qed.


Lemma insertBy_map {A B} (f : A -> B) (key : B -> Q) (a : A) (l : list A) :
  insertBy key (f a) (map f l) = map f (insertBy (fun x => key (f x)) a l).
Proof.
  induction l as [|b l IH]; simpl; [done|].
  destruct (Qle_bool (key (f a)) (key (f b))); simpl; [done|]. by rewrite IH.
Qed.

Lemma sortBy_map {A B} (f : A -> B) (key : B -> Q) (l : list A) :
  sortBy key (map f l) = map f (sortBy (fun x => key (f x)) l).
Proof.
  induction l as [|a l IH]; simpl; [done|].
  rewrite IH. apply insertBy_map.
Qed.

Lemma insertBy_ext {A} (k1 k2 : A -> Q) (a : A) (l : list A) :
  k1 a == k2 a -> (forall b, In b l -> k1 b == k2 b) ->
  insertBy k1 a l = insertBy k2 a l.
Proof.
  intros Ha. induction l as [|b l IH]; intros Hl; simpl; [done|].
  assert (Hb : k1 b == k2 b) by (apply Hl; by left).
  assert (Qle_bool (k1 a) (k1 b) = Qle_bool (k2 a) (k2 b)) as ->.
  { apply eq_true_iff_eq. rewrite !Qle_bool_iff. by rewrite Ha, Hb. }
  destruct (Qle_bool (k2 a) (k2 b)); [done|].
  rewrite IH; [done|]. intros c Hc. apply Hl. by right.
Qed.

Lemma sortBy_ext {A} (k1 k2 : A -> Q) (l : list A) :
  (forall b, In b l -> k1 b == k2 b) -> sortBy k1 l = sortBy k2 l.
Proof.
  induction l as [|a l IH]; intros Hl; simpl; [done|].
  rewrite IH by (intros b Hb; apply Hl; by right).
  apply insertBy_ext; [apply Hl; by left|].
  intros b Hb. apply Hl. right.
  eapply Permutation_in; [apply sortBy_perm | exact Hb].
Qed.

(** A list that is already in ascending order is left as it is. *)
Lemma sortBy_sorted {A} (key : A -> Q) (l : list A) :
  Sorted (fun a b => key a <= key b) l -> sortBy key l = l.
Proof.
  induction 1 as [|a l Hl IH Hhd]; simpl; [done|].
  rewrite IH. destruct Hhd as [|b l' Hab]; simpl; [done|].
  apply Qle_bool_iff in Hab. by rewrite Hab.
Qed.

Lemma insertBy_sorted {A} (key : A -> Q) (a : A) (l : list A) :
  Sorted (fun a b => key a <= key b) l ->
  Sorted (fun a b => key a <= key b) (insertBy key a l).
Proof.
  induction 1 as [|b l Hl IH Hhd]; simpl.
  - repeat constructor.
  - destruct (Qle_bool (key a) (key b)) eqn:Hab.
    + apply Qle_bool_iff in Hab. repeat constructor; assumption.
    + assert (key b <= key a).
      { destruct (Qlt_le_dec (key b) (key a)) as [Hlt|Hle]; [by apply Qlt_le_weak|].
        apply Qle_bool_iff in Hle. congruence. }
      constructor; [assumption|].
      destruct Hhd as [|c l' Hbc]; simpl; [by constructor|].
      destruct (Qle_bool (key a) (key c)); by constructor.
Qed.

Lemma sortBy_is_sorted {A} (key : A -> Q) (l : list A) :
  Sorted (fun a b => key a <= key b) (sortBy key l).
Proof.
  induction l as [|a l IH]; simpl; [constructor|]. by apply insertBy_sorted.
Qed.

(** Stability: elements of equal weight keep their relative order. *)
Lemma insertBy_filter {A} (key : A -> Q) (w : Q) (a : A) (l : list A) :
  Sorted (fun a b => key a <= key b) l ->
  List.filter (fun b => Qeq_bool (key b) w) (insertBy key a l)
  = List.filter (fun b => Qeq_bool (key b) w) (a :: l).
Proof.
  induction 1 as [|b l Hl IH Hhd]; [done|].
  cbn [insertBy]. destruct (Qle_bool (key a) (key b)) eqn:Hab; [done|].
  cbn [List.filter] in *. rewrite IH.
  destruct (Qeq_bool (key a) w) eqn:Ha; [|done].
  destruct (Qeq_bool (key b) w) eqn:Hb; [|done].
  apply Qeq_bool_iff in Ha, Hb.
  assert (key a <= key b) as Hle by (rewrite Ha, Hb; apply Qle_refl).
  apply Qle_bool_iff in Hle. congruence.
Qed.

Lemma sortBy_stable {A} (key : A -> Q) (w : Q) (l : list A) :
  List.filter (fun b => Qeq_bool (key b) w) (sortBy key l)
  = List.filter (fun b => Qeq_bool (key b) w) l.
Proof.
  induction l as [|a l IH]; [done|].
  cbn [sortBy foldr]. fold (sortBy key l).
  rewrite insertBy_filter by apply sortBy_is_sorted.
  cbn [List.filter]. by rewrite IH.
Qed.

(** ** Spacing *)

Lemma fold_left_inv {A B} (f : A -> B -> A) (P : A -> Prop) (l : list B) (a : A) :
  (forall a b, In b l -> P a -> P (f a b)) -> P a -> P (fold_left f l a).
Proof.
  revert a. induction l as [|b l IH]; intros a Hstep Ha; simpl; [done|].
  apply IH; [intros; apply Hstep; [by right|done] | apply Hstep; [by left|done]].
Qed.

(** Once some step in the list establishes [P] and every step keeps it,
    [P] holds at the end. *)
Lemma fold_left_establish {A B} (f : A -> B -> A) (P : A -> Prop) (l : list B) (b0 : B) (a : A) :
  In b0 l ->
  (forall a, P (f a b0)) ->
  (forall a b, In b l -> P a -> P (f a b)) ->
  P (fold_left f l a).
Proof.
  intros Hin Hest Hkeep. apply in_split in Hin as (l1 & l2 & ->).
  rewrite fold_left_app. simpl. apply fold_left_inv; [|apply Hest].
  intros a' b Hb. apply Hkeep. apply in_or_app. right. by right.
Qed.

Local Abbreviation placeFrom h cnt X s nodes m :=
  (fold_left
     (fun m0 '(i, node) =>
        <[id node := {| pos_x := X;
                        pos_y := startY h cnt + inject_Z (Z.of_nat i) * NODE_SPACING |}]> m0)
     (combine (seq s (length nodes)) nodes) m).

Lemma place_lookup_notin (h : Q) (cnt : nat) (X : Q) (s : nat) (nodes : list Topic)
    (m : gmap string Position) (i : string) :
  ~ In i (map id nodes) -> placeFrom h cnt X s nodes m !! i = m !! i.
Proof.
  revert s m. induction nodes as [|a nodes IH]; intros s m Hi; simpl; [done|].
  rewrite IH by (intros H; apply Hi; by right).
  apply lookup_insert_ne. intros Heq. apply Hi. by left.
Qed.

Lemma place_lookup_nodup (h : Q) (cnt : nat) (X : Q) (s : nat) (nodes : list Topic)
    (m : gmap string Position) (k : nat) (n : Topic) :
  NoDup (map id nodes) -> nodes !! k = Some n ->
  placeFrom h cnt X s nodes m !! id n
  = Some {| pos_x := X; pos_y := startY h cnt + inject_Z (Z.of_nat (s + k)) * NODE_SPACING |}.
Proof.
  revert s m k. induction nodes as [|a nodes IH]; intros s m k Hnd Hk; [done|].
  apply NoDup_cons in Hnd as [Ha Hnd]. destruct k as [|k]; simpl in *.
  - injection Hk as ->. rewrite place_lookup_notin by (by rewrite <- list_elem_of_In).
    rewrite lookup_insert_eq. by rewrite Nat.add_0_r.
  - rewrite (IH (S s) _ k Hnd Hk). by rewrite Nat.add_succ_r.
Qed.

Lemma place_lookup_x (h : Q) (cnt : nat) (X : Q) (s : nat) (nodes : list Topic)
    (m : gmap string Position) (i : string) :
  (exists p, m !! i = Some p /\ pos_x p = X) \/ In i (map id nodes) ->
  exists p, placeFrom h cnt X s nodes m !! i = Some p /\ pos_x p = X.
Proof.
  revert s m. induction nodes as [|a nodes IH]; intros s m H; simpl in *.
  - destruct H as [H|[]]. exact H.
  - apply IH. destruct (decide (id a = i)) as [<-|Hne].
    + left. rewrite lookup_insert_eq. eauto.
    + destruct H as [H|[H|H]]; [|done|by right].
      left. by rewrite lookup_insert_ne.
Qed.

Lemma place_is_Some (h : Q) (cnt : nat) (X : Q) (s : nat) (nodes : list Topic)
    (m : gmap string Position) (i : string) :
  is_Some (m !! i) \/ In i (map id nodes) -> is_Some (placeFrom h cnt X s nodes m !! i).
Proof.
  revert s m. induction nodes as [|a nodes IH]; intros s m H; simpl in *.
  - destruct H as [H|[]]. exact H.
  - apply IH. destruct (decide (id a = i)) as [<-|Hne].
    + left. rewrite lookup_insert_eq. eauto.
    + destruct H as [H|[H|H]]; [|done|by right].
      left. by rewrite lookup_insert_ne.
Qed.

Lemma applySpacing_notin (h : Q) (nodes : list Topic) (X : Q) (m : gmap string Position) (i : string) :
  ~ In i (map id nodes) -> applySpacing h nodes X m !! i = m !! i.
Proof. apply place_lookup_notin. Qed.

Lemma applySpacing_nodup (h : Q) (nodes : list Topic) (X : Q) (m : gmap string Position)
    (k : nat) (n : Topic) :
  NoDup (map id nodes) -> nodes !! k = Some n ->
  applySpacing h nodes X m !! id n
  = Some {| pos_x := X;
            pos_y := startY h (length nodes) + inject_Z (Z.of_nat k) * NODE_SPACING |}.
Proof. intros Hnd Hk. unfold applySpacing, indexed. by rewrite (place_lookup_nodup _ _ _ 0 _ _ k n). Qed.

Lemma applySpacing_x (h : Q) (nodes : list Topic) (X : Q) (m : gmap string Position) (i : string) :
  (exists p, m !! i = Some p /\ pos_x p = X) \/ In i (map id nodes) ->
  exists p, applySpacing h nodes X m !! i = Some p /\ pos_x p = X.
Proof. apply place_lookup_x. Qed.

Lemma applySpacing_is_Some (h : Q) (nodes : list Topic) (X : Q) (m : gmap string Position)
    (i : string) :
  is_Some (m !! i) \/ In i (map id nodes) -> is_Some (applySpacing h nodes X m !! i).
Proof. apply place_is_Some. Qed.

(** ** The passes as folds of respacing steps *)

Lemma levelPass_sortBy (nb : list Topic -> Z -> Topic -> list Topic) (h : Q)
    (topics : list Topic) (levels : gmap Z (list Topic)) (m : gmap string Position) (lvl : Z) :
  levelPass nb h topics levels m lvl
  = applySpacing h
      (sortBy (fun node => weightOf m node (nb topics lvl node)) (levelNodes levels lvl))
      (levelX lvl) m.
Proof.
  unfold levelPass. f_equal.
  rewrite (sortBy_map (fun node => (node, weightOf m node (nb topics lvl node))) snd).
  rewrite map_map. simpl. apply map_id.
Qed.


(** Any property of the position map that every respacing step keeps holds
    after the ten sweeps. *)
Lemma refinement_inv_passes (P : gmap string Position -> Prop) (h : Q) (topics : list Topic)
    (levels : gmap Z (list Topic)) (maxLevel : Z) (m : gmap string Position) :
  (forall lvl m, P m -> P (levelPass parentsOf h topics levels m lvl)) ->
  (forall lvl m, P m -> P (levelPass childrenOf h topics levels m lvl)) ->
  P m -> P (refinement h topics levels maxLevel m).
Proof.
  intros Hfwd Hbwd Hm. unfold refinement. apply fold_left_inv; [|done].
  intros m' _ _ Hm'. unfold sweep, backwardPass, forwardPass.
  apply fold_left_inv; [intros; by apply Hbwd|].
  apply fold_left_inv; [intros; by apply Hfwd|done].
Qed.

Lemma refinement_inv (P : gmap string Position -> Prop) (h : Q) (topics : list Topic)
    (levels : gmap Z (list Topic)) (maxLevel : Z) (m : gmap string Position) :
  (forall nb lvl m, P m -> P (levelPass nb h topics levels m lvl)) ->
  P m -> P (refinement h topics levels maxLevel m).
Proof. intros Hstep. apply refinement_inv_passes; intros; by apply Hstep. Qed.

Lemma computeLayout_unfold (topics : list Topic) (h : Q) :
  computeLayout topics h
  = refinement h topics (buildLevels topics).1 (buildLevels topics).2
      (initialPositions h (buildLevels topics).1 (buildLevels topics).2).
Proof. unfold computeLayout. by destruct (buildLevels topics). Qed.

(** ** Coverage of the position map *)

Lemma initialPositions_is_Some (topics : list Topic) (h : Q) (t : Topic) :
  In t topics -> (1 <= level t)%Z ->
  is_Some (initialPositions h (buildLevels topics).1 (buildLevels topics).2 !! id t).
Proof.
  intros Ht Hl. unfold initialPositions.
  apply (fold_left_establish _ (fun m => is_Some (m !! id t)) _ (level t)).
  - apply in_levelRange. split; [done|]. by apply buildLevels_max.
  - intros m. apply applySpacing_is_Some. right. apply in_map. by apply in_levelNodes.
  - intros m lvl _ Hm. apply applySpacing_is_Some. by left.
Qed.

Lemma levelPass_is_Some (nb : list Topic -> Z -> Topic -> list Topic) (h : Q)
    (topics : list Topic) (levels : gmap Z (list Topic)) (m : gmap string Position)
    (lvl : Z) (i : string) :
  is_Some (m !! i) -> is_Some (levelPass nb h topics levels m lvl !! i).
Proof. intros Hm. rewrite levelPass_sortBy. apply applySpacing_is_Some. by left. Qed.

(** C10.  When every level is a positive integer, every topic id has an
    entry in the position map after the initial placement; every respacing
    step keeps it so, hence also the ten sweeps; and on such a map the
    defaults [?.y || 0] and [|| { x: 0, y: 0 }] return the stored entry. *)
Theorem positions_cover_topics (topics : list Topic) (h : Q) :
  (forall t, In t topics -> (1 <= level t)%Z) ->
  covered topics (initialPositions h (buildLevels topics).1 (buildLevels topics).2)
  /\ (forall nb lvl m, covered topics m ->
        covered topics (levelPass nb h topics (buildLevels topics).1 m lvl))
  /\ covered topics (computeLayout topics h)
  /\ (forall m t, covered topics m -> In t topics ->
        exists p, m !! id t = Some p /\ yOr0 m (id t) = pos_y p /\ posOrOrigin m (id t) = p).
Proof.
  intros Hpos. split; [|split; [|split]].
  - intros t Ht. apply initialPositions_is_Some; auto.
  - intros nb lvl m Hm t Ht. apply levelPass_is_Some. by apply Hm.
  - unfold computeLayout. destruct (buildLevels topics) as [levels maxLevel] eqn:Hb.
    intros t Ht. apply (refinement_inv (fun m => is_Some (m !! id t))).
    + intros nb lvl m. apply levelPass_is_Some.
    + change levels with (levels, maxLevel).1. change maxLevel with (levels, maxLevel).2 at 2.
      rewrite <- Hb. apply initialPositions_is_Some; auto.
  - intros m t Hm Ht. destruct (Hm t Ht) as [p Hp]. exists p.
    unfold yOr0, posOrOrigin. by rewrite Hp.
Qed.

Lemma positions_cover_topics_witness :
  covered [topicA; topicB] (computeLayout [topicA; topicB] 600).
Proof.
  apply (positions_cover_topics [topicA; topicB] 600).
  intros t [<-|[<-|[]]]; vm_compute; discriminate.
Defined.

(** ** Horizontal placement *)

Lemma NoDup_map_inj {A B} (f : A -> B) (l : list A) (a b : A) :
  NoDup (map f l) -> In a l -> In b l -> f a = f b -> a = b.
Proof.
  induction l as [|c l IH]; intros Hnd Ha Hb Hf; [done|].
  simpl in Hnd. apply NoDup_cons in Hnd as [Hc Hnd].
  rewrite list_elem_of_In in Hc.
  destruct Ha as [->|Ha], Hb as [->|Hb]; auto.
  - exfalso. apply Hc. rewrite Hf. by apply in_map.
  - exfalso. apply Hc. rewrite <- Hf. by apply in_map.
Qed.

Lemma id_notin_other_level (topics L : list Topic) (lvl : Z) (t : Topic) :
  NoDup (map id topics) -> In t topics -> level t <> lvl ->
  (forall n, In n L -> In n topics /\ level n = lvl) ->
  ~ In (id t) (map id L).
Proof.
  intros Hnd Ht Hl HL Hin. apply in_map_iff in Hin as (n & Hid & Hn).
  destruct (HL n Hn) as [Hn' Hlvl].
  assert (n = t) by (eapply NoDup_map_inj; eauto). congruence.
Qed.

Lemma applySpacing_keeps_x (topics L : list Topic) (h : Q) (lvl : Z) (t : Topic)
    (m : gmap string Position) :
  NoDup (map id topics) -> In t topics ->
  (forall n, In n L -> In n topics /\ level n = lvl) ->
  In t L \/ (exists p, m !! id t = Some p /\ pos_x p = levelX (level t)) ->
  exists p, applySpacing h L (levelX lvl) m !! id t = Some p /\ pos_x p = levelX (level t).
Proof.
  intros Hnd Ht HL H. destruct (decide (level t = lvl)) as [<-|Hne].
  - apply applySpacing_x. destruct H as [H|H]; [right; by apply in_map | by left].
  - rewrite applySpacing_notin by (eapply id_notin_other_level; eauto).
    destruct H as [H|H]; [|done]. destruct (HL t H). congruence.
Qed.

Lemma sorted_levelNodes_spec (topics : list Topic) (key : Topic -> Q) (lvl : Z) (n : Topic) :
  In n (sortBy key (levelNodes (buildLevels topics).1 lvl)) -> In n topics /\ level n = lvl.
Proof.
  intros Hn. apply in_levelNodes. eapply Permutation_in; [apply sortBy_perm|done].
Qed.

Lemma computeLayout_x (topics : list Topic) (h : Q) (t : Topic) :
  NoDup (map id topics) -> In t topics -> (1 <= level t)%Z ->
  exists p, computeLayout topics h !! id t = Some p /\ pos_x p = levelX (level t).
Proof.
  intros Hnd Ht Hl. unfold computeLayout.
  destruct (buildLevels topics) as [levels maxLevel] eqn:Hb.
  assert (Hlev : levels = (buildLevels topics).1) by (by rewrite Hb).
  assert (Hmax : maxLevel = (buildLevels topics).2) by (by rewrite Hb).
  apply (refinement_inv (fun m => exists p, m !! id t = Some p /\ pos_x p = levelX (level t))).
  - intros nb lvl m Hm. rewrite levelPass_sortBy.
    apply (applySpacing_keeps_x topics); auto.
    intros n Hn. subst levels. by apply sorted_levelNodes_spec in Hn.
  - unfold initialPositions.
    apply (fold_left_establish _
             (fun m => exists p, m !! id t = Some p /\ pos_x p = levelX (level t)) _ (level t)).
    + apply in_levelRange. split; [done|]. subst maxLevel. by apply buildLevels_max.
    + intros m. apply (applySpacing_keeps_x topics); auto.
      * intros n Hn. subst levels. by apply in_levelNodes.
      * left. subst levels. by apply in_levelNodes.
    + intros m lvl _ Hm. apply (applySpacing_keeps_x topics); auto.
      intros n Hn. subst levels. by apply in_levelNodes.
Qed.

Lemma levelX_formula (lvl : Z) : levelX lvl == 100 + (inject_Z lvl - 1) * 500.
Proof.
  unfold levelX, LEVEL_SPACING. rewrite inject_Z_plus, inject_Z_mult.
  unfold Z.sub. rewrite inject_Z_plus.
  change (inject_Z 100) with 100. change (inject_Z 500) with 500.
  change (inject_Z (- (1))) with (- (1)). ring.
Qed.

Lemma node_x_formula (topics : list Topic) (h : Q) (c : gset string) (t : Topic) :
  NoDup (map id topics) -> In t topics -> (1 <= level t)%Z ->
  node_x (mkNode c (computeLayout topics h) t) == 100 + (inject_Z (level t) - 1) * 500.
Proof.
  intros Hnd Ht Hl. destruct (computeLayout_x topics h t Hnd Ht Hl) as (p & Hp & Hx).
  unfold mkNode, posOrOrigin. rewrite Hp. simpl. rewrite Hx. apply levelX_formula.
Qed.

(** C3.  With distinct ids and positive levels, the final x of every topic
    is [100 + (level - 1) * 500]: topics of one level share x, x grows
    strictly with the level, and for A (level 1) -> B (level 2) the layout
    gives x(A) = 100 and x(B) = 600. *)
Theorem final_x_is_level_offset (topics : list Topic) (h : Q) (c : gset string) :
  NoDup (map id topics) ->
  (forall t, In t topics -> (1 <= level t)%Z) ->
  (forall t, In t topics ->
     node_x (mkNode c (computeLayout topics h) t) == 100 + (inject_Z (level t) - 1) * 500)
  /\ (forall t1 t2, In t1 topics -> In t2 topics -> level t1 = level t2 ->
        node_x (mkNode c (computeLayout topics h) t1)
        == node_x (mkNode c (computeLayout topics h) t2))
  /\ (forall t1 t2, In t1 topics -> In t2 topics -> (level t1 < level t2)%Z ->
        node_x (mkNode c (computeLayout topics h) t1)
        < node_x (mkNode c (computeLayout topics h) t2))
  /\ node_x (mkNode c (computeLayout [topicA; topicB] h) topicA) == 100
  /\ node_x (mkNode c (computeLayout [topicA; topicB] h) topicB) == 600.
Proof.
  intros Hnd Hpos. split; [|split; [|split; [|split]]].
  - intros t Ht. apply node_x_formula; auto.
  - intros t1 t2 H1 H2 Hl. rewrite !node_x_formula by auto. by rewrite Hl.
  - intros t1 t2 H1 H2 Hl. rewrite !node_x_formula by auto.
    rewrite Zlt_Qlt in Hl. lra.
  - rewrite (node_x_formula [topicA; topicB]).
    + reflexivity.
    + repeat constructor; rewrite list_elem_of_In; simpl; intuition discriminate.
    + by left.
    + simpl; lia.
  - rewrite (node_x_formula [topicA; topicB]).
    + reflexivity.
    + repeat constructor; rewrite list_elem_of_In; simpl; intuition discriminate.
    + right; by left.
    + simpl; lia.
Qed.

Lemma final_x_is_level_offset_witness :
  node_x (mkNode ∅ (computeLayout [topicA; topicB] 600) topicB) == 100 + (2 - 1) * 500.
Proof.
  refine (proj1 (final_x_is_level_offset [topicA; topicB] 600 ∅ _ _) topicB _).
  - repeat constructor; rewrite list_elem_of_In; simpl; intuition discriminate.
  - intros t [<-|[<-|[]]]; simpl; lia.
  - right; by left.
Defined.

(** ** Vertical placement *)

Lemma startY_formula (h : Q) (count k : nat) :
  startY h count + inject_Z (Z.of_nat k) * NODE_SPACING
  == h / 2 - (inject_Z (Z.of_nat count) * 280) / 2 + 140 + inject_Z (Z.of_nat k) * 280.
Proof. unfold startY, NODE_SPACING. field. Qed.

Lemma Sorted_lookup {A} (R : A -> A -> Prop) (l : list A) :
  (forall k a b, l !! k = Some a -> l !! S k = Some b -> R a b) -> Sorted R l.
Proof.
  induction l as [|a l IH]; intros H; constructor.
  - apply IH. intros k x y Hx Hy. apply (H (S k) x y); assumption.
  - destruct l as [|b l]; constructor. apply (H 0%nat a b); reflexivity.
Qed.

Lemma NoDup_map_filter {A B} (f : A -> B) (p : A -> bool) (l : list A) :
  NoDup (map f l) -> NoDup (map f (List.filter p l)).
Proof.
  induction l as [|a l IH]; simpl; intros Hnd; [done|].
  apply NoDup_cons in Hnd as [Ha Hnd]. destruct (p a); simpl; [|auto].
  apply NoDup_cons. split; [|auto].
  rewrite list_elem_of_In in *. intros Hin. apply Ha.
  apply in_map_iff in Hin as (b & Hb & Hin). apply filter_In in Hin as [Hin _].
  rewrite <- Hb. by apply in_map.
Qed.

Section IsolatedLevel.
Variables (topics : list Topic) (h : Q) (L : Z).
Hypothesis ids_distinct : NoDup (map id topics).
Hypothesis no_parents :
  forall t, In t topics -> level t = L -> parentsOf topics L t = [].
Hypothesis no_children :
  forall t, In t topics -> level t = L -> childrenOf topics L t = [].

Let levels := (buildLevels topics).1.
Let column := levelNodes levels L.

(** The nodes of level [L] sit at the slots of the spacing formula, in
    input order. *)
Let in_input_order (m : gmap string Position) : Prop :=
  forall k t, column !! k = Some t ->
    m !! id t = Some {| pos_x := levelX L;
                        pos_y := startY h (length column)
                                 + inject_Z (Z.of_nat k) * NODE_SPACING |}.

Lemma column_nodup : NoDup (map id column).
Proof.
  unfold column, levels. rewrite buildLevels_levelNodes. by apply NoDup_map_filter.
Qed.

Lemma column_spaced (m : gmap string Position) :
  in_input_order (applySpacing h column (levelX L) m).
Proof. intros k t Hk. apply applySpacing_nodup; [apply column_nodup | done]. Qed.

Lemma other_level_keeps_order (nodes : list Topic) (lvl : Z) (X : Q)
    (m : gmap string Position) :
  lvl <> L -> (forall n, In n nodes -> In n topics /\ level n = lvl) ->
  in_input_order m -> in_input_order (applySpacing h nodes X m).
Proof.
  intros Hne Hnodes Hm k t Hk. rewrite applySpacing_notin; [by apply Hm|].
  assert (In t topics /\ level t = L) as [Ht Hl].
  { apply in_levelNodes. apply list_elem_of_In. by eapply list_elem_of_lookup_2. }
  apply (id_notin_other_level topics nodes lvl); auto. congruence.
Qed.

Lemma column_weights_ascend (nb : list Topic -> Z -> Topic -> list Topic)
    (m : gmap string Position) :
  (forall t, In t topics -> level t = L -> nb topics L t = []) ->
  in_input_order m ->
  Sorted (fun a b => weightOf m a (nb topics L a) <= weightOf m b (nb topics L b)) column.
Proof.
  intros Hnb Hm. apply Sorted_lookup. intros k a b Ha Hb.
  assert (forall j t, column !! j = Some t ->
            weightOf m t (nb topics L t)
            = startY h (length column) + inject_Z (Z.of_nat j) * NODE_SPACING) as Hw.
  { intros j t Hj.
    assert (In t topics /\ level t = L) as [Ht Hl].
    { apply in_levelNodes. apply list_elem_of_In. by eapply list_elem_of_lookup_2. }
    rewrite (Hnb t Ht Hl). unfold weightOf, yOr0. simpl. by rewrite (Hm j t Hj). }
  rewrite (Hw k a Ha), (Hw (S k) b Hb).
  apply Qplus_le_r. apply Qmult_le_compat_r; [|discriminate].
  rewrite <- Zle_Qle. lia.
Qed.

Lemma levelPass_keeps_order (nb : list Topic -> Z -> Topic -> list Topic) (lvl : Z)
    (m : gmap string Position) :
  (forall t, In t topics -> level t = L -> nb topics L t = []) ->
  in_input_order m -> in_input_order (levelPass nb h topics levels m lvl).
Proof.
  intros Hnb Hm. rewrite levelPass_sortBy. destruct (decide (lvl = L)) as [->|Hne].
  - fold column. rewrite sortBy_sorted by (by apply column_weights_ascend).
    apply column_spaced.
  - apply (other_level_keeps_order _ lvl); auto.
    intros n Hn. by apply sorted_levelNodes_spec in Hn.
Qed.

Lemma isolated_level_final (k : nat) (t : Topic) :
  (1 <= L)%Z -> column !! k = Some t ->
  computeLayout topics h !! id t
  = Some {| pos_x := levelX L;
            pos_y := startY h (length column) + inject_Z (Z.of_nat k) * NODE_SPACING |}.
Proof.
  intros HL Hk.
  assert (In L (levelRange 1 (buildLevels topics).2)) as HLin.
  { assert (In t topics /\ level t = L) as [Ht <-].
    { apply in_levelNodes. apply list_elem_of_In. by eapply list_elem_of_lookup_2. }
    apply in_levelRange. split; [done|]. by apply buildLevels_max. }
  revert k t Hk. change (in_input_order (computeLayout topics h)).
  rewrite computeLayout_unfold. fold levels.
  apply (refinement_inv_passes in_input_order).
  - intros lvl m Hm. apply levelPass_keeps_order; auto.
  - intros lvl m Hm. apply levelPass_keeps_order; auto.
  - unfold initialPositions.
    apply (fold_left_establish _ in_input_order _ L); [done| |].
    + intros m. apply column_spaced.
    + intros m lvl _ Hm. destruct (decide (lvl = L)) as [->|Hne].
      * apply column_spaced.
      * apply (other_level_keeps_order _ lvl); auto.
        intros n Hn. by apply in_levelNodes.
Qed.
End IsolatedLevel.

(** C4.  (1) [applySpacing] on [N] nodes with distinct ids gives node [i]
    the ordinate [height/2 - (N*280)/2 + 140 + i*280].  (2) With distinct
    ids, a level [L >= 1] whose nodes have neither parents nor children
    ends, after the ten sweeps, in input order: its [i]-th node in the order
    supplied has that ordinate.  (3) Every pass respaces the level in
    ascending weight, nodes of equal weight keeping their input order. *)
Theorem spacing_formula_and_stable_order :
  (forall (h : Q) (nodes : list Topic) (X : Q) (m : gmap string Position) (i : nat) (n : Topic),
     NoDup (map id nodes) -> nodes !! i = Some n ->
     exists p, applySpacing h nodes X m !! id n = Some p
       /\ pos_y p == h / 2 - (inject_Z (Z.of_nat (length nodes)) * 280) / 2 + 140
                     + inject_Z (Z.of_nat i) * 280)
  /\ (forall (topics : list Topic) (h : Q) (L : Z) (i : nat) (t : Topic),
        NoDup (map id topics) -> (1 <= L)%Z ->
        (forall t, In t topics -> level t = L ->
           parentsOf topics L t = [] /\ childrenOf topics L t = []) ->
        List.filter (fun t => (level t =? L)%Z) topics !! i = Some t ->
        exists p, computeLayout topics h !! id t = Some p
          /\ pos_y p == h / 2
                        - (inject_Z (Z.of_nat (length (List.filter (fun t => (level t =? L)%Z) topics)))
                           * 280) / 2
                        + 140 + inject_Z (Z.of_nat i) * 280)
  /\ (forall (nb : list Topic -> Z -> Topic -> list Topic) (h : Q) (topics : list Topic)
             (levels : gmap Z (list Topic)) (m : gmap string Position) (lvl : Z),
        exists sorted,
          levelPass nb h topics levels m lvl = applySpacing h sorted (levelX lvl) m
          /\ Permutation sorted (levelNodes levels lvl)
          /\ Sorted (fun a b => weightOf m a (nb topics lvl a) <= weightOf m b (nb topics lvl b))
                    sorted
          /\ forall w,
               List.filter (fun a => Qeq_bool (weightOf m a (nb topics lvl a)) w) sorted
               = List.filter (fun a => Qeq_bool (weightOf m a (nb topics lvl a)) w)
                             (levelNodes levels lvl)).
Proof.
  split; [|split].
  - intros h nodes X m i n Hnd Hi. eexists. split; [by apply applySpacing_nodup|].
    simpl. apply startY_formula.
  - intros topics h L i t Hnd HL Hiso Hi. eexists. split.
    + apply (isolated_level_final topics h L Hnd); auto.
      * intros t0 H0 H1. by destruct (Hiso t0 H0 H1).
      * intros t0 H0 H1. by destruct (Hiso t0 H0 H1).
      * rewrite buildLevels_levelNodes. exact Hi.
    + simpl. rewrite buildLevels_levelNodes. apply startY_formula.
  - intros nb h topics levels m lvl.
    exists (sortBy (fun node => weightOf m node (nb topics lvl node)) (levelNodes levels lvl)).
    split; [apply levelPass_sortBy|]. split; [apply sortBy_perm|].
    split; [apply (sortBy_is_sorted (fun node => weightOf m node (nb topics lvl node)))|].
    intros w. apply (sortBy_stable (fun node => weightOf m node (nb topics lvl node))).
Qed.

Lemma spacing_formula_and_stable_order_witness :
  exists p, computeLayout [topicP; topicQ; topicR] 600 !! "Q" = Some p
    /\ pos_y p == 600 / 2 - (3 * 280) / 2 + 140 + 1 * 280.
Proof.
  refine (proj1 (proj2 spacing_formula_and_stable_order)
            [topicP; topicQ; topicR] 600 2%Z 1%nat topicQ _ _ _ _).
  - repeat constructor; rewrite list_elem_of_In; simpl; intuition discriminate.
  - lia.
  - intros t [<-|[<-|[<-|[]]]] _; split; reflexivity.
  - reflexivity.
Defined.

(** ** Arrays of link objects *)

Lemma indexed_from_snd {A} (l : list A) (s : nat) :
  map snd (combine (seq s (length l)) l) = l.
Proof.
  revert s. induction l as [|a l IH]; intros s; simpl; [done|]. by rewrite IH.
Qed.

Lemma indexed_from_in {A} (l : list A) (s i : nat) (a : A) :
  In (i, a) (combine (seq s (length l)) l) <-> (s <= i)%nat /\ l !! (i - s)%nat = Some a.
Proof.
  revert s. induction l as [|b l IH]; intros s; simpl.
  - split; [done | by intros [_ ?]].
  - rewrite IH. split.
    + intros [[= <- <-]|[Hs Hl]].
      * split; [lia|]. by rewrite Nat.sub_diag.
      * split; [lia|]. by replace (i - s)%nat with (S (i - S s)) by lia.
    + intros [Hs Hl]. destruct (decide (i = s)) as [->|Hne].
      * left. rewrite Nat.sub_diag in Hl. simpl in Hl. congruence.
      * right. split; [lia|]. by replace (i - s)%nat with (S (i - S s)) in Hl by lia.
Qed.

Lemma indexed_snd {A} (l : list A) : map snd (indexed l) = l.
Proof. apply indexed_from_snd. Qed.

Lemma indexed_in {A} (l : list A) (i : nat) (a : A) :
  In (i, a) (indexed l) <-> l !! i = Some a.
Proof.
  unfold indexed. rewrite indexed_from_in, Nat.sub_0_r. split; [by intros [_ ?]|].
  intros H. split; [lia|done].
Qed.



Lemma Sorted_lookup_le {A} (R : A -> A -> Prop) (l : list A) (i j : nat) (a b : A) :
  Transitive R -> Sorted R l -> (i < j)%nat -> l !! i = Some a -> l !! j = Some b -> R a b.
Proof.
  intros HR Hs. apply Sorted_StronglySorted in Hs; [|exact HR].
  revert i j a b. induction Hs as [|c l Hs IH Hall]; intros i j a b Hij Hi Hj; [done|].
  destruct j as [|j]; [lia|]. simpl in Hj. destruct i as [|i]; simpl in Hi.
  - injection Hi as ->. rewrite Forall_forall in Hall. apply Hall.
    by eapply list_elem_of_lookup_2.
  - apply (IH i j); [lia|done|done].
Qed.


(** ** Port sorting *)

Lemma in_linksOf (sel : LinkData -> Node) (links : list LinkData) (a : string) (j : nat) :
  In j (linksOf sel links a) <-> exists l, links !! j = Some l /\ id (topic (sel l)) = a.
Proof.
  unfold linksOf. rewrite filter_In, in_seq. split.
  - intros [_ H]. destruct (links !! j) as [l|]; [|done].
    exists l. split; [done|]. by apply String.eqb_eq.
  - intros (l & Hl & Ha). rewrite Hl. split; [|by apply String.eqb_eq].
    apply lookup_lt_Some in Hl. lia.
Qed.

Lemma linksOf_NoDup (sel : LinkData -> Node) (links : list LinkData) (a : string) :
  NoDup (linksOf sel links a).
Proof. apply NoDup_ListNoDup, List.NoDup_filter, List.seq_NoDup. Qed.

Lemma linksOf_ext (sel : LinkData -> Node) (ls ls' : list LinkData) (a : string) :
  map (fun l => id (topic (sel l))) ls = map (fun l => id (topic (sel l))) ls' ->
  linksOf sel ls a = linksOf sel ls' a.
Proof.
  intros Heq. unfold linksOf.
  assert (length ls = length ls') as <-.
  { apply (f_equal length) in Heq. by rewrite !length_map in Heq. }
  apply filter_ext. intros j.
  assert ((fun l => id (topic (sel l))) <$> ls !! j
          = (fun l => id (topic (sel l))) <$> ls' !! j) as Hj.
  { rewrite <- !list_lookup_fmap. by f_equal. }
  destruct (ls !! j), (ls' !! j); simpl in Hj; congruence.
Qed.

Lemma farY_ext (far : LinkData -> Node) (ls ls' : list LinkData) (j : nat) :
  map (fun l => node_y (far l)) ls = map (fun l => node_y (far l)) ls' ->
  farY far ls j = farY far ls' j.
Proof.
  intros Heq. unfold farY.
  assert ((fun l => node_y (far l)) <$> ls !! j = (fun l => node_y (far l)) <$> ls' !! j) as Hj.
  { rewrite <- !list_lookup_fmap. by f_equal. }
  destruct (ls !! j), (ls' !! j); simpl in Hj; congruence.
Qed.

Lemma order_ext (sel far : LinkData -> Node) (ls ls' : list LinkData) (a : string) :
  map (fun l => id (topic (sel l))) ls = map (fun l => id (topic (sel l))) ls' ->
  map (fun l => node_y (far l)) ls = map (fun l => node_y (far l)) ls' ->
  sortBy (farY far ls) (linksOf sel ls a) = sortBy (farY far ls') (linksOf sel ls' a).
Proof.
  intros Hsel Hfar. rewrite (linksOf_ext sel ls ls' a Hsel).
  apply sortBy_ext. intros j _. by rewrite (farY_ext far ls ls' j Hfar).
Qed.

Lemma ported_ext (sel far : LinkData -> Node) (port : LinkData -> option nat * option nat)
    (ls ls' : list LinkData) (a : string) :
  map (fun l => id (topic (sel l))) ls = map (fun l => id (topic (sel l))) ls' ->
  map (fun l => node_y (far l)) ls = map (fun l => node_y (far l)) ls' ->
  map port ls = map port ls' ->
  ported sel far port ls a -> ported sel far port ls' a.
Proof.
  intros Hsel Hfar Hport H. unfold ported in *.
  rewrite <- (order_ext sel far ls ls' a Hsel Hfar).
  intros i j Hij. destruct (H i j Hij) as (l & Hl & Hp).
  assert (port <$> ls !! j = port <$> ls' !! j) as Hj.
  { rewrite <- !list_lookup_fmap. by f_equal. }
  rewrite Hl in Hj. destruct (ls' !! j) as [l'|]; [|done].
  exists l'. split; [done|]. simpl in Hj. congruence.
Qed.

Section PortSort.
Variables (sel far : LinkData -> Node) (set : nat -> nat -> LinkData -> LinkData).

Local Abbreviation assignAll n ps ls :=
  (fold_left (fun ls0 '(i, j) => alter (set i n) j ls0) ps ls).

Lemma assignAll_proj {C} (g : LinkData -> C) (n : nat) (ps : list (nat * nat))
    (ls : list LinkData) :
  (forall i l, g (set i n l) = g l) -> map g (assignAll n ps ls) = map g ls.
Proof.
  intros Hg. revert ls. induction ps as [|[i j] ps IH]; intros ls; simpl; [done|].
  rewrite IH. apply list_eq. intros k. rewrite !list_lookup_fmap, list_lookup_alter.
  case_decide; [|done]. subst. destruct (ls !! k); simpl; [|done]. by rewrite Hg.
Qed.

Lemma assignAll_notin (n : nat) (ps : list (nat * nat)) (ls : list LinkData) (j : nat) :
  ~ In j (map snd ps) -> assignAll n ps ls !! j = ls !! j.
Proof.
  revert ls. induction ps as [|[i0 j0] ps IH]; intros ls Hj; simpl in *; [done|].
  rewrite IH by tauto. apply list_lookup_alter_ne. tauto.
Qed.

Lemma assignAll_in (n : nat) (ps : list (nat * nat)) (ls : list LinkData) (i j : nat) :
  NoDup (map snd ps) -> In (i, j) ps -> assignAll n ps ls !! j = set i n <$> ls !! j.
Proof.
  revert ls. induction ps as [|[i0 j0] ps IH]; intros ls Hnd Hin; [done|].
  simpl in Hnd. apply NoDup_cons in Hnd as [Hj0 Hnd]. rewrite list_elem_of_In in Hj0.
  destruct Hin as [[= -> ->]|Hin]; simpl.
  - rewrite assignAll_notin by done. apply list_lookup_alter_eq.
  - rewrite IH by done. f_equal. apply list_lookup_alter_ne.
    intros ->. apply Hj0. change j with (snd (i, j)). by apply in_map.
Qed.

Lemma assignPorts_proj {C} (g : LinkData -> C) (ls : list LinkData) (node : Node) :
  (forall i n l, g (set i n l) = g l) -> map g (assignPorts sel far set ls node) = map g ls.
Proof. intros Hg. apply assignAll_proj. intros. apply Hg. Qed.

Lemma assignPorts_notin (ls : list LinkData) (node : Node) (j : nat) :
  ~ In j (linksOf sel ls (id (topic node))) -> assignPorts sel far set ls node !! j = ls !! j.
Proof.
  intros Hj. apply assignAll_notin. rewrite indexed_snd. intros Hin. apply Hj.
  eapply Permutation_in; [apply sortBy_perm | exact Hin].
Qed.

Lemma assignPorts_in (ls : list LinkData) (node : Node) (i j : nat) :
  sortBy (farY far ls) (linksOf sel ls (id (topic node))) !! i = Some j ->
  assignPorts sel far set ls node !! j
  = set i (length (sortBy (farY far ls) (linksOf sel ls (id (topic node))))) <$> ls !! j.
Proof.
  intros Hij. apply assignAll_in; [|by apply indexed_in].
  rewrite indexed_snd, sortBy_perm. apply linksOf_NoDup.
Qed.

Variable port : LinkData -> option nat * option nat.
Hypothesis sel_set : forall i n l, sel (set i n l) = sel l.
Hypothesis far_set : forall i n l, far (set i n l) = far l.
Hypothesis port_set : forall i n l, port (set i n l) = (Some i, Some n).

Lemma assignPorts_order (ls : list LinkData) (node : Node) (a : string) :
  sortBy (farY far (assignPorts sel far set ls node))
         (linksOf sel (assignPorts sel far set ls node) a)
  = sortBy (farY far ls) (linksOf sel ls a).
Proof.
  apply order_ext; apply assignPorts_proj; intros; by rewrite ?sel_set, ?far_set.
Qed.

Lemma assignPorts_establishes (ls : list LinkData) (node : Node) :
  ported sel far port (assignPorts sel far set ls node) (id (topic node)).
Proof.
  unfold ported. rewrite assignPorts_order. intros i j Hij.
  rewrite (assignPorts_in ls node i j Hij).
  assert (In j (linksOf sel ls (id (topic node)))) as Hj.
  { eapply Permutation_in; [apply sortBy_perm|].
    apply list_elem_of_In. by eapply list_elem_of_lookup_2. }
  apply in_linksOf in Hj as (l & Hl & _). rewrite Hl. simpl.
  eexists. split; [done|]. apply port_set.
Qed.

Lemma assignPorts_keeps (ls : list LinkData) (node : Node) (a : string) :
  ported sel far port ls a -> ported sel far port (assignPorts sel far set ls node) a.
Proof.
  intros H. destruct (decide (id (topic node) = a)) as [<-|Hne].
  - apply assignPorts_establishes.
  - unfold ported in *. rewrite assignPorts_order. intros i j Hij.
    rewrite assignPorts_notin; [by apply H|].
    intros Hin. apply in_linksOf in Hin as (l & Hl & Hid).
    assert (In j (linksOf sel ls a)) as Hj.
    { eapply Permutation_in; [apply sortBy_perm|].
      apply list_elem_of_In. by eapply list_elem_of_lookup_2. }
    apply in_linksOf in Hj as (l' & Hl' & Hid'). congruence.
Qed.

Lemma assignPorts_fold_ported (nodes : list Node) (ls : list LinkData) (node : Node) :
  In node nodes ->
  ported sel far port (fold_left (assignPorts sel far set) nodes ls) (id (topic node)).
Proof.
  intros Hin.
  apply (fold_left_establish _ (fun ls => ported sel far port ls (id (topic node))) _ node).
  - done.
  - intros ls'. apply assignPorts_establishes.
  - intros ls' n _. apply assignPorts_keeps.
Qed.

Lemma assignPorts_fold_proj {C} (g : LinkData -> C) (nodes : list Node) (ls : list LinkData) :
  (forall i n l, g (set i n l) = g l) ->
  map g (fold_left (assignPorts sel far set) nodes ls) = map g ls.
Proof.
  intros Hg. apply (fold_left_inv _ (fun ls' => map g ls' = map g ls)); [|done].
  intros ls' n _ <-. by apply assignPorts_proj.
Qed.
End PortSort.

(** ** Port indices of the links at one node *)

Section PortValues.
Variables (sel far : LinkData -> Node) (port : LinkData -> option nat * option nat).
Variables (ls : list LinkData) (a : string).
Hypothesis Hported : ported sel far port ls a.

Let group := List.filter (fun l => String.eqb (id (topic (sel l))) a) ls.
Let order := sortBy (farY far ls) (linksOf sel ls a).







End PortValues.

Lemma sortPorts_source_ported (nodes : list Node) (links : list LinkData) (node : Node) :
  In node nodes ->
  ported source target sourcePort (sortPorts nodes links) (id (topic node)).
Proof.
  intros Hin. unfold sortPorts.
  apply (ported_ext source target sourcePort
           (fold_left (assignPorts source target setSourcePort) nodes links)).
  - symmetry. by apply assignPorts_fold_proj.
  - symmetry. by apply assignPorts_fold_proj.
  - symmetry. by apply assignPorts_fold_proj.
  - by apply assignPorts_fold_ported.
Qed.

Lemma sortPorts_target_ported (nodes : list Node) (links : list LinkData) (node : Node) :
  In node nodes ->
  ported target source targetPort (sortPorts nodes links) (id (topic node)).
Proof. intros Hin. unfold sortPorts. by apply assignPorts_fold_ported. Qed.

Lemma sortPorts_ends (nodes : list Node) (links : list LinkData) :
  map ends (sortPorts nodes links) = map ends links.
Proof.
  unfold sortPorts. rewrite assignPorts_fold_proj by done. by apply assignPorts_fold_proj.
Qed.



(** ** The edge list *)

Lemma findNode_mkNodes (c : gset string) (m : gmap string Position) (topics : list Topic)
    (t : string) :
  findNode (mkNodes c m topics) t
  = mkNode c m <$> List.find (fun x => String.eqb (id x) t) topics.
Proof.
  unfold findNode, mkNodes. induction topics as [|a topics IH]; simpl; [done|].
  destruct (String.eqb (id a) t); [done|exact IH].
Qed.

Lemma find_by_id (topics : list Topic) (tgt : Topic) :
  NoDup (map id topics) -> In tgt topics ->
  List.find (fun x => String.eqb (id x) (id tgt)) topics = Some tgt.
Proof.
  intros Hnd Hin.
  destruct (List.find (fun x => String.eqb (id x) (id tgt)) topics) as [x|] eqn:Hf.
  - apply find_some in Hf as [Hx Hid]. apply String.eqb_eq in Hid.
    f_equal. by apply (NoDup_map_inj id topics).
  - apply (find_none _ _ Hf) in Hin. by rewrite String.eqb_refl in Hin.
Qed.

Lemma in_allLinks (nodes : list Node) (l : LinkData) :
  In l (allLinks nodes) <->
  exists src targetId tgt,
    In src nodes /\ In targetId (relatedTopics (topic src))
    /\ findNode nodes targetId = Some tgt
    /\ (level (topic src) < level (topic tgt))%Z
    /\ l = newLink src tgt.
Proof.
  unfold allLinks, linksFrom. rewrite in_flat_map. split.
  - intros (src & Hsrc & Hl). apply in_flat_map in Hl as (targetId & Hid & Hl).
    destruct (findNode nodes targetId) as [tgt|] eqn:Hf; [|done].
    destruct (Z.ltb_spec (level (topic src)) (level (topic tgt))); [|done].
    destruct Hl as [<-|[]]. exists src, targetId, tgt. by repeat split.
  - intros (src & targetId & tgt & Hsrc & Hid & Hf & Hlt & ->).
    exists src. split; [done|]. apply in_flat_map. exists targetId. split; [done|].
    rewrite Hf. apply Z.ltb_lt in Hlt. rewrite Hlt. by left.
Qed.

Lemma routeEdges_ends (nodes : list Node) (e : Node * Node * bool) :
  (exists l, In l (routeEdges nodes) /\ ends l = e)
  <-> (exists l, In l (allLinks nodes) /\ ends l = e).
Proof.
  unfold routeEdges.
  split; intros (l & Hl & He); apply (in_map ends) in Hl;
    [rewrite sortPorts_ends in Hl | rewrite <- (sortPorts_ends nodes) in Hl];
    apply in_map_iff in Hl as (l' & He' & Hl'); exists l'; split; congruence.
Qed.

(** C1.  For a topic [s] and an id [t] of [s.relatedTopics]: when ids are
    distinct and [target] is the topic with id [t], the routed edge list
    contains the edge [(s, target, active = isComplete s)] exactly when
    [s.level < target.level]; when no topic has id [t], no edge from [s]
    to [t] is routed.  Every routed edge joins two listed topics of strictly
    increasing level (so no self-reference and no same-level or backward
    edge), comes from a [relatedTopics] entry and has [active] equal to
    [isComplete] of its source.  The edge list is a total function. *)
Theorem edges_follow_level_order (topics : list Topic) (c : gset string)
    (m : gmap string Position) :
  let nodes := mkNodes c m topics in
  (forall s t tgt, NoDup (map id topics) ->
     In s topics -> In t (relatedTopics s) -> In tgt topics -> id tgt = t ->
     (exists l, In l (routeEdges nodes)
                /\ ends l = (mkNode c m s, mkNode c m tgt, isComplete c s))
     <-> (level s < level tgt)%Z)
  /\ (forall s t, In s topics -> In t (relatedTopics s) ->
        (forall tgt, In tgt topics -> id tgt <> t) ->
        ~ exists l, In l (routeEdges nodes)
                    /\ source l = mkNode c m s /\ id (topic (target l)) = t)
  /\ (forall l, In l (routeEdges nodes) ->
        exists s tgt, In s topics /\ In tgt topics
          /\ source l = mkNode c m s /\ target l = mkNode c m tgt
          /\ In (id tgt) (relatedTopics s)
          /\ (level s < level tgt)%Z
          /\ active l = isComplete c s).
Proof.
  intros nodes.
  assert (Hwf : forall l, In l (allLinks nodes) ->
            exists s tgt, In s topics /\ In tgt topics
              /\ source l = mkNode c m s /\ target l = mkNode c m tgt
              /\ In (id tgt) (relatedTopics s)
              /\ (level s < level tgt)%Z
              /\ active l = isComplete c s).
  { intros l Hl. apply in_allLinks in Hl as (src & tid & tg & Hsrc & Hid & Hf & Hlt & ->).
    unfold nodes, mkNodes in Hsrc. apply in_map_iff in Hsrc as (s & <- & Hs).
    unfold nodes in Hf. rewrite findNode_mkNodes in Hf.
    destruct (List.find _ topics) as [tgt|] eqn:Hfind; [|done].
    injection Hf as <-. apply find_some in Hfind as [Htgt Heq].
    apply String.eqb_eq in Heq. subst tid.
    exists s, tgt. repeat split; try done. simpl. apply complete_is_isComplete. }
  split; [|split].
  - intros s t tgt Hnd Hs Ht Htgt Hid. rewrite routeEdges_ends. split.
    + intros (l & Hl & He). destruct (Hwf l Hl) as (s' & tgt' & _ & _ & Hs' & Ht' & _ & Hlt & _).
      unfold ends in He. injection He as He1 He2 _.
      rewrite He1 in Hs'. rewrite He2 in Ht'.
      apply (f_equal topic) in Hs', Ht'. simpl in Hs', Ht'. congruence.
    + intros Hlt. exists (newLink (mkNode c m s) (mkNode c m tgt)). split.
      * apply in_allLinks. exists (mkNode c m s), t, (mkNode c m tgt).
        repeat split; try done.
        -- by apply in_map.
        -- unfold nodes. rewrite findNode_mkNodes. subst t. by rewrite find_by_id.
      * unfold ends. simpl. by rewrite complete_is_isComplete.
  - intros s t Hs Ht Hnone (l & Hl & Hsrc & Hid).
    assert (exists l', In l' (allLinks nodes) /\ ends l' = ends l) as (l' & Hl' & He).
    { apply routeEdges_ends. eauto. }
    destruct (Hwf l' Hl') as (s' & tgt' & _ & Htgt' & _ & Ht' & _).
    unfold ends in He. injection He as _ He2 _.
    apply (Hnone tgt' Htgt'). rewrite <- Hid, <- He2, Ht'. done.
  - intros l Hl.
    assert (exists l', In l' (allLinks nodes) /\ ends l' = ends l) as (l' & Hl' & He).
    { apply routeEdges_ends. eauto. }
    destruct (Hwf l' Hl') as (s & tgt & H1 & H2 & H3 & H4 & H5 & H6 & H7).
    unfold ends in He. injection He as He1 He2 He3.
    exists s, tgt. repeat split; try done; congruence.
Qed.

Lemma edges_follow_level_order_witness :
  exists l, In l (routeEdges (mkNodes ∅ ∅ [topicA; topicB]))
            /\ ends l = (mkNode ∅ ∅ topicA, mkNode ∅ ∅ topicB, isComplete ∅ topicA).
Proof.
  refine (proj2 (proj1 (edges_follow_level_order [topicA; topicB] ∅ ∅)
                   topicA "B" topicB _ _ _ _ _) _).
  - repeat constructor; rewrite list_elem_of_In; simpl; intuition discriminate.
  - by left.
  - by left.
  - right; by left.
  - reflexivity.
  - reflexivity.
Defined.

(** ** The transform kept across runs *)

Lemma isZoomIdentity_spec (t : ZoomTransform) :
  isZoomIdentity t = true <-> t_k t == 1 /\ t_x t == 0 /\ t_y t == 0.
Proof.
  unfold isZoomIdentity. rewrite !andb_true_iff, !Qeq_bool_iff. tauto.
Qed.

(** C9.  In a run of the effect of the component with the instructor
    filter, a running transform that is not the identity is the transform
    applied, unchanged; the initial fit is applied when the running
    transform is the identity. *)
Theorem running_transform_is_kept (topics : list Topic) (c hidden : gset string)
    (width height : Q) (current : ZoomTransform) (scene : Scene) :
  runEffect topics c hidden width height current = Some scene ->
  (~ (t_k current == 1 /\ t_x current == 0 /\ t_y current == 0) ->
     scene_transform scene = current)
  /\ (t_k current == 1 /\ t_x current == 0 /\ t_y current == 0 ->
      scene_transform scene = initialTransform (scene_nodes scene) width height).
Proof.
  intros Hrun. unfold runEffect in Hrun. destruct topics as [|t0 topics]; [done|].
  injection Hrun as <-. cbn [scene_transform scene_nodes]. unfold appliedTransform.
  split; intros H.
  - destruct (isZoomIdentity current) eqn:Hid; [|done].
    apply isZoomIdentity_spec in Hid. done.
  - apply isZoomIdentity_spec in H. by rewrite H.
Qed.

Lemma running_transform_is_kept_witness :
  exists scene,
    runEffect [topicA; topicB] ∅ {["t@example.org"]} 800 600
              {| t_k := 2; t_x := 30; t_y := -15 |} = Some scene
    /\ scene_transform scene = {| t_k := 2; t_x := 30; t_y := -15 |}.
Proof.
  eexists. split; [reflexivity|].
  refine (proj1 (running_transform_is_kept [topicA; topicB] ∅ {["t@example.org"]} 800 600
                   {| t_k := 2; t_x := 30; t_y := -15 |} _ eq_refl) _).
  simpl. intros [H _]. discriminate H.
Defined.

(** ** The initial fit *)

Lemma fold_min_le (l : list Q) (a : Q) :
  fold_left Qmin l a <= a /\ forall v, In v l -> fold_left Qmin l a <= v.
Proof.
  revert a. induction l as [|b l IH]; intros a; simpl.
  - split; [apply Qle_refl | tauto].
  - destruct (IH (Qmin a b)) as [H1 H2]. split.
    + eapply Qle_trans; [exact H1 | apply Q.le_min_l].
    + intros v [<-|Hv]; [|by apply H2].
      eapply Qle_trans; [exact H1 | apply Q.le_min_r].
Qed.

Lemma fold_max_ge (l : list Q) (a : Q) :
  a <= fold_left Qmax l a /\ forall v, In v l -> v <= fold_left Qmax l a.
Proof.
  revert a. induction l as [|b l IH]; intros a; simpl.
  - split; [apply Qle_refl | tauto].
  - destruct (IH (Qmax a b)) as [H1 H2]. split.
    + eapply Qle_trans; [apply Q.le_max_l | exact H1].
    + intros v [<-|Hv]; [|by apply H2].
      eapply Qle_trans; [apply Q.le_max_r | exact H1].
Qed.

Lemma d3_min_le (l : list Q) (v : Q) : In v l -> orZero (d3_min l) <= v.
Proof.
  destruct l as [|a l]; [done|]. simpl. destruct (fold_min_le l a) as [H1 H2].
  intros [<-|Hv]; auto.
Qed.

Lemma d3_max_ge (l : list Q) (v : Q) : In v l -> v <= orZero (d3_max l).
Proof.
  destruct l as [|a l]; [done|]. simpl. destruct (fold_max_ge l a) as [H1 H2].
  intros [<-|Hv]; auto.
Qed.

(** The bounding box of a non-empty graph is at least one node wide and
    one node high, so the two quotients of the fit are well defined. *)
Lemma graph_extent (nodes : list Node) :
  nodes <> [] ->
  240 <= graphWidth (graphBounds nodes) /\ 160 <= graphHeight (graphBounds nodes).
Proof.
  destruct nodes as [|n nodes]; [done|]. intros _.
  unfold graphWidth, graphHeight, graphBounds. cbn [minX maxX minY maxY].
  assert (orZero (d3_min (map node_x (n :: nodes))) <= node_x n) as H1
    by (apply d3_min_le; by left).
  assert (node_x n + NODE_WIDTH
          <= orZero (d3_max (map (fun d => node_x d + NODE_WIDTH) (n :: nodes)))) as H2
    by (apply d3_max_ge; by left).
  assert (orZero (d3_min (map node_y (n :: nodes))) <= node_y n) as H3
    by (apply d3_min_le; by left).
  assert (node_y n + NODE_HEIGHT
          <= orZero (d3_max (map (fun d => node_y d + NODE_HEIGHT) (n :: nodes)))) as H4
    by (apply d3_max_ge; by left).
  set (x0 := orZero (d3_min (map node_x (n :: nodes)))) in *.
  set (x1 := orZero (d3_max (map (fun d => node_x d + NODE_WIDTH) (n :: nodes)))) in *.
  set (y0 := orZero (d3_min (map node_y (n :: nodes)))) in *.
  set (y1 := orZero (d3_max (map (fun d => node_y d + NODE_HEIGHT) (n :: nodes)))) in *.
  unfold NODE_WIDTH in H2. unfold NODE_HEIGHT in H4. split; lra.
Qed.

Lemma Qlt_bool_true (a b : Q) : Qlt_bool a b = true <-> a < b.
Proof.
  unfold Qlt_bool. rewrite negb_true_iff. split.
  - intros H. apply Qnot_le_lt. intros Hle. apply Qle_bool_iff in Hle. congruence.
  - intros H. destruct (Qle_bool b a) eqn:Hle; [|done].
    apply Qle_bool_iff in Hle. exfalso. by apply (Qlt_not_le a b).
Qed.

Lemma Qlt_bool_false (a b : Q) : Qlt_bool a b = false <-> b <= a.
Proof.
  unfold Qlt_bool. rewrite negb_false_iff. apply Qle_bool_iff.
Qed.

Lemma clampScale_spec (s : Q) :
  1 # 10 <= clampScale s /\ clampScale s <= 1
  /\ (s < 1 # 10 -> clampScale s == 1 # 10)
  /\ (1 < s -> clampScale s == 1)
  /\ (1 # 10 <= s -> s <= 1 -> clampScale s == s).
Proof.
  unfold clampScale.
  destruct (Qlt_bool 1 s) eqn:H1.
  - apply Qlt_bool_true in H1. change (Qlt_bool 1 (1 # 10)) with false. cbv iota.
    repeat split; try lra; try reflexivity.
  - apply Qlt_bool_false in H1. destruct (Qlt_bool s (1 # 10)) eqn:H2.
    + apply Qlt_bool_true in H2. repeat split; try lra; try reflexivity.
    + apply Qlt_bool_false in H2. repeat split; try lra; try reflexivity.
Qed.

Lemma initialTransform_k (nodes : list Node) (width height : Q) :
  t_k (initialTransform nodes width height) == fitScale (graphBounds nodes) width height.
Proof. unfold initialTransform, scale, translate. simpl. ring. Qed.

Lemma initialTransform_x (nodes : list Node) (width height : Q) :
  t_x (initialTransform nodes width height)
  == width / 2 - fitScale (graphBounds nodes) width height * centerX (graphBounds nodes).
Proof. unfold initialTransform, scale, translate. simpl. ring. Qed.

Lemma initialTransform_y (nodes : list Node) (width height : Q) :
  t_y (initialTransform nodes width height)
  == height / 2 - fitScale (graphBounds nodes) width height * centerY (graphBounds nodes).
Proof. unfold initialTransform, scale, translate. simpl. ring. Qed.

Lemma axis_fit (k t lo hi W : Q) :
  t == W / 2 - k * ((lo + hi) / 2) ->
  (0 <= lo * k + t /\ hi * k + t <= W) <-> k * (hi - lo) <= W.
Proof.
  intros Ht.
  assert (lo * k + t == W * (1 # 2) - k * (hi - lo) * (1 # 2)) as -> by (rewrite Ht; field).
  assert (hi * k + t == W * (1 # 2) + k * (hi - lo) * (1 # 2)) as -> by (rewrite Ht; field).
  generalize (k * (hi - lo)). intros e. split.
  - intros [H1 H2]. lra.
  - intros H. split; lra.
Qed.

Lemma axis_centre (k t lo hi W : Q) :
  t == W / 2 - k * ((lo + hi) / 2) -> (lo + hi) / 2 * k + t == W / 2.
Proof. intros ->. ring. Qed.

(** On one axis: the scaled extent is within the viewport exactly when the
    extent is at most ten times the viewport, provided the scale is the
    clamped minimum of two quotients of which this axis' is one. *)
Lemma axis_scaled_extent (s raw g W : Q) :
  0 < g ->
  1 # 10 <= s -> s <= 1 ->
  (raw < 1 # 10 -> s == 1 # 10) ->
  (1 # 10 <= raw -> s <= raw) ->
  raw <= (W - 200) / g ->
  (s * g <= W <-> g <= 10 * W).
Proof.
  intros Hg Hlo Hhi Hsmall Hbig Hraw. split.
  - intros H. assert (0 <= (s - (1 # 10)) * g) by (apply Qmult_le_0_compat; lra). lra.
  - intros H. destruct (Qlt_le_dec raw (1 # 10)) as [Hlt|Hge].
    + rewrite (Hsmall Hlt). lra.
    + assert (s <= (W - 200) / g) as Hs by (eapply Qle_trans; [by apply Hbig|done]).
      assert (s * g <= (W - 200) / g * g) as Hsg by (apply Qmult_le_compat_r; lra).
      assert ((W - 200) / g * g == W - 200) as Heq by (field; lra).
      rewrite Heq in Hsg. lra.
Qed.

(** C6 (as amended).  For a non-empty graph the bounding box contains every
    node rectangle and has positive extent; the scale of the initial fit is
    [min(availableWidth/graphWidth, availableHeight/graphHeight)] clamped
    to [0.1, 1]; the centre of the bounding box is mapped to the centre of
    the viewport; and the image of the bounding box lies inside the viewport
    exactly when the graph is at most ten times the viewport in each
    direction, in particular whenever the unclamped scale is at least 0.1. *)
Theorem initial_fit_transform (nodes : list Node) (width height : Q) :
  nodes <> [] ->
  let b := graphBounds nodes in
  let t := initialTransform nodes width height in
  let raw := Qmin ((width - 200) / graphWidth b) ((height - 200) / graphHeight b) in
  (forall n, In n nodes ->
     minX b <= node_x n /\ node_x n + 240 <= maxX b
     /\ minY b <= node_y n /\ node_y n + 160 <= maxY b)
  /\ (0 < graphWidth b /\ 0 < graphHeight b)
  /\ (1 # 10 <= t_k t /\ t_k t <= 1)
  /\ (raw < 1 # 10 -> t_k t == 1 # 10)
  /\ (1 < raw -> t_k t == 1)
  /\ (1 # 10 <= raw -> raw <= 1 -> t_k t == raw)
  /\ (applyX t (centerX b) == width / 2 /\ applyY t (centerY b) == height / 2)
  /\ (fitsViewport t b width height
      <-> graphWidth b <= 10 * width /\ graphHeight b <= 10 * height)
  /\ (1 # 10 <= raw -> fitsViewport t b width height).
Proof.
  intros Hne b t raw.
  destruct (graph_extent nodes Hne) as [Hgw Hgh]. fold b in Hgw, Hgh.
  assert (Hk : t_k t == clampScale raw) by apply initialTransform_k.
  destruct (clampScale_spec raw) as (Hlo & Hhi & Hsmall & Hone & Hmid).
  assert (Hx : t_x t == width / 2 - t_k t * ((minX b + maxX b) / 2)).
  { unfold t. rewrite initialTransform_x, initialTransform_k. reflexivity. }
  assert (Hy : t_y t == height / 2 - t_k t * ((minY b + maxY b) / 2)).
  { unfold t. rewrite initialTransform_y, initialTransform_k. reflexivity. }
  assert (Hbig : 1 # 10 <= raw -> t_k t <= raw).
  { intros Hge. rewrite Hk. destruct (Qlt_le_dec 1 raw) as [H1|H1].
    - rewrite (Hone H1). lra.
    - rewrite (Hmid Hge H1). lra. }
  assert (HfitX : t_k t * graphWidth b <= width <-> graphWidth b <= 10 * width).
  { apply (axis_scaled_extent (t_k t) raw).
    - lra.
    - by rewrite Hk.
    - by rewrite Hk.
    - intros H. rewrite Hk. auto.
    - exact Hbig.
    - apply Q.le_min_l. }
  assert (HfitY : t_k t * graphHeight b <= height <-> graphHeight b <= 10 * height).
  { apply (axis_scaled_extent (t_k t) raw).
    - lra.
    - by rewrite Hk.
    - by rewrite Hk.
    - intros H. rewrite Hk. auto.
    - exact Hbig.
    - apply Q.le_min_r. }
  assert (Hfits : fitsViewport t b width height
                  <-> graphWidth b <= 10 * width /\ graphHeight b <= 10 * height).
  { unfold fitsViewport, applyX, applyY.
    rewrite <- HfitX, <- HfitY.
    rewrite <- (axis_fit (t_k t) (t_x t) (minX b) (maxX b) width Hx).
    rewrite <- (axis_fit (t_k t) (t_y t) (minY b) (maxY b) height Hy). tauto. }
  split.
  { intros n Hn. repeat split.
    - apply d3_min_le. by apply (in_map node_x).
    - apply (d3_max_ge (map (fun d => node_x d + NODE_WIDTH) nodes)).
      by apply (in_map (fun d => node_x d + NODE_WIDTH)).
    - apply d3_min_le. by apply (in_map node_y).
    - apply (d3_max_ge (map (fun d => node_y d + NODE_HEIGHT) nodes)).
      by apply (in_map (fun d => node_y d + NODE_HEIGHT)). }
  split. { split; lra. }
  split. { split; by rewrite Hk. }
  split. { intros H. rewrite Hk. auto. }
  split. { intros H. rewrite Hk. auto. }
  split. { intros H1 H2. rewrite Hk. auto. }
  split.
  { split; [unfold applyX, centerX | unfold applyY, centerY]; by apply axis_centre. }
  split. { exact Hfits. }
  intros Hge. apply Hfits. rewrite <- HfitX, <- HfitY.
  assert (raw <= (width - 200) / graphWidth b) as Hrx by apply Q.le_min_l.
  assert (raw <= (height - 200) / graphHeight b) as Hry by apply Q.le_min_r.
  specialize (Hbig Hge).
  assert (t_k t * graphWidth b <= (width - 200) / graphWidth b * graphWidth b) as H1.
  { apply Qmult_le_compat_r; lra. }
  assert (t_k t * graphHeight b <= (height - 200) / graphHeight b * graphHeight b) as H2.
  { apply Qmult_le_compat_r; lra. }
  assert ((width - 200) / graphWidth b * graphWidth b == width - 200) as E1 by (field; lra).
  assert ((height - 200) / graphHeight b * graphHeight b == height - 200) as E2
    by (field; lra).
  rewrite E1 in H1. rewrite E2 in H2. split; lra.
Qed.

Lemma initial_fit_transform_witness :
  let nodes := mkNodes ∅ (computeLayout [topicA; topicB] 600) [topicA; topicB] in
  fitsViewport (initialTransform nodes 800 600) (graphBounds nodes) 800 600.
Proof.
  intros nodes.
  assert (nodes <> []) as Hne by discriminate.
  destruct (initial_fit_transform nodes 800 600 Hne) as (_ & _ & _ & _ & _ & _ & _ & _ & H).
  apply H. vm_compute. discriminate.
Defined.

(** C6, as stated, fails: two topics at levels 1 and 5 in a viewport 200
    wide.  The graph is 2240 wide, the unclamped scale is 0, the clamp
    raises it to 0.1, and the left edge of the bounding box is mapped to
    -12, outside the viewport. *)
Lemma initial_fit_overflows_narrow_viewport :
  exists scene,
    runEffect [topicA; topicWide] ∅ ∅ 200 600 zoomIdentity = Some scene
    /\ applyX (scene_transform scene) (minX (graphBounds (scene_nodes scene))) == -12
    /\ ~ fitsViewport (scene_transform scene) (graphBounds (scene_nodes scene)) 200 600.
Proof.
  eexists. split; [reflexivity|]. split.
  - vm_compute. reflexivity.
  - intros [H _]. vm_compute in H. apply H. reflexivity.
Qed.

(** ** Geometry does not read the completion set or the filter *)

Lemma map_factor {A B C} (f : A -> B) (phi : B -> C) (g : A -> C) (l1 l2 : list A) :
  (forall a, g a = phi (f a)) -> map f l1 = map f l2 -> map g l1 = map g l2.
Proof.
  intros Hg Hf. rewrite (map_ext g (fun a => phi (f a))) by done.
  rewrite (map_ext g (fun a => phi (f a)) Hg l2).
  rewrite <- !(map_map f phi). by rewrite Hf.
Qed.

Section PortSortGeometry.
Variables (sel far : LinkData -> Node) (set : nat -> nat -> LinkData -> LinkData).
Variables (selId : (Topic * Q * Q * Topic * Q * Q
                    * (option nat * option nat * option nat * option nat)) -> string)
          (farOrd : (Topic * Q * Q * Topic * Q * Q
                     * (option nat * option nat * option nat * option nat)) -> Q).
Hypothesis sel_geometry : forall l, id (topic (sel l)) = selId (geometry l).
Hypothesis far_geometry : forall l, node_y (far l) = farOrd (geometry l).
Hypothesis set_geometry :
  forall i n l l', geometry l = geometry l' -> geometry (set i n l) = geometry (set i n l').

Lemma assignAll_geometry (n : nat) (ps : list (nat * nat)) (ls1 ls2 : list LinkData) :
  map geometry ls1 = map geometry ls2 ->
  map geometry (fold_left (fun ls0 '(i, j) => alter (set i n) j ls0) ps ls1)
  = map geometry (fold_left (fun ls0 '(i, j) => alter (set i n) j ls0) ps ls2).
Proof.
  revert ls1 ls2. induction ps as [|[i j] ps IH]; intros ls1 ls2 Heq; simpl; [done|].
  apply IH. apply list_eq. intros k.
  assert (geometry <$> ls1 !! k = geometry <$> ls2 !! k) as Hk.
  { rewrite <- !list_lookup_fmap. by f_equal. }
  rewrite !list_lookup_fmap, !list_lookup_alter. case_decide; [|done]. subst j.
  destruct (ls1 !! k), (ls2 !! k); simpl in *; try done.
  f_equal. apply set_geometry. congruence.
Qed.

Lemma assignPorts_geometry (ls1 ls2 : list LinkData) (n1 n2 : Node) :
  id (topic n1) = id (topic n2) ->
  map geometry ls1 = map geometry ls2 ->
  map geometry (assignPorts sel far set ls1 n1)
  = map geometry (assignPorts sel far set ls2 n2).
Proof.
  intros Hid Heq. unfold assignPorts. rewrite Hid.
  rewrite (order_ext sel far ls1 ls2).
  - by apply assignAll_geometry.
  - by apply (map_factor geometry selId).
  - by apply (map_factor geometry farOrd).
Qed.

Lemma assignPorts_fold_geometry (nodes1 nodes2 : list Node) (ls1 ls2 : list LinkData) :
  map (fun n => id (topic n)) nodes1 = map (fun n => id (topic n)) nodes2 ->
  map geometry ls1 = map geometry ls2 ->
  map geometry (fold_left (assignPorts sel far set) nodes1 ls1)
  = map geometry (fold_left (assignPorts sel far set) nodes2 ls2).
Proof.
  revert nodes2 ls1 ls2.
  induction nodes1 as [|n1 nodes1 IH]; intros [|n2 nodes2] ls1 ls2 Hn Heq;
    simpl in *; try done.
  injection Hn as Hid Hn. apply IH; [done|]. by apply assignPorts_geometry.
Qed.
End PortSortGeometry.

Lemma sortPorts_geometry (nodes1 nodes2 : list Node) (ls1 ls2 : list LinkData) :
  map (fun n => id (topic n)) nodes1 = map (fun n => id (topic n)) nodes2 ->
  map geometry ls1 = map geometry ls2 ->
  map geometry (sortPorts nodes1 ls1) = map geometry (sortPorts nodes2 ls2).
Proof.
  intros Hn Heq. unfold sortPorts.
  apply (assignPorts_fold_geometry target source setTargetPort
           (fun '(_, _, _, t, _, _, _) => id t) (fun '(_, _, y, _, _, _, _) => y)); try done.
  - intros i n l l' H. unfold geometry, ports in *. simpl. congruence.
  - apply (assignPorts_fold_geometry source target setSourcePort
             (fun '(t, _, _, _, _, _, _) => id t) (fun '(_, _, _, _, _, y, _) => y)); try done.
    intros i n l l' H. unfold geometry, ports in *. simpl. congruence.
Qed.

Lemma linksFrom_geometry (c1 c2 : gset string) (m : gmap string Position)
    (topics : list Topic) (s : Topic) :
  map geometry (linksFrom (mkNodes c1 m topics) (mkNode c1 m s))
  = map geometry (linksFrom (mkNodes c2 m topics) (mkNode c2 m s)).
Proof.
  unfold linksFrom. cbn [topic mkNode]. induction (relatedTopics s) as [|t ts IH]; [done|].
  cbn [flat_map]. rewrite !map_app, IH. f_equal.
  rewrite !findNode_mkNodes. destruct (List.find _ topics) as [tgt|]; [|done].
  simpl. by destruct (level s <? level tgt)%Z.
Qed.

Lemma allLinks_geometry (c1 c2 : gset string) (m : gmap string Position)
    (topics : list Topic) :
  map geometry (allLinks (mkNodes c1 m topics))
  = map geometry (allLinks (mkNodes c2 m topics)).
Proof.
  unfold allLinks.
  assert (forall l,
            map geometry (flat_map (linksFrom (mkNodes c1 m topics)) (map (mkNode c1 m) l))
            = map geometry (flat_map (linksFrom (mkNodes c2 m topics)) (map (mkNode c2 m) l)))
    as Hgen.
  { induction l as [|s l IH]; [done|].
    cbn [map flat_map]. rewrite !map_app, IH. f_equal. apply linksFrom_geometry. }
  apply Hgen.
Qed.

Lemma routeEdges_geometry (c1 c2 : gset string) (m : gmap string Position)
    (topics : list Topic) :
  map geometry (routeEdges (mkNodes c1 m topics))
  = map geometry (routeEdges (mkNodes c2 m topics)).
Proof.
  unfold routeEdges. apply sortPorts_geometry.
  - unfold mkNodes. rewrite !map_map. done.
  - apply allLinks_geometry.
Qed.

Lemma runEffect_Some (topics : list Topic) (c hidden : gset string) (width height : Q)
    (current : ZoomTransform) (s : Scene) :
  runEffect topics c hidden width height current = Some s ->
  scene_positions s = computeLayout topics height
  /\ scene_nodes s = mkNodes c (computeLayout topics height) topics
  /\ scene_links s = routeEdges (scene_nodes s)
  /\ scene_transform s = appliedTransform current (scene_nodes s) width height.
Proof.
  unfold runEffect. destruct topics as [|t0 topics]; [done|].
  intros [= <-]. done.
Qed.

(** C8.  Two runs of the effect on the same topics, viewport and running
    transform, under any two completion sets and any two filter sets,
    compute the same position map, the same node coordinates and links of
    the same geometry (ends, coordinates of the ends and the four port
    numbers); when only the filter differs the node objects and the link
    objects are the same altogether, so that the filter shows only in
    opacity and click handling. *)
Theorem geometry_ignores_completion_and_filter (topics : list Topic)
    (width height : Q) (current : ZoomTransform)
    (c1 c2 hidden1 hidden2 : gset string) (s1 s2 : Scene) :
  runEffect topics c1 hidden1 width height current = Some s1 ->
  runEffect topics c2 hidden2 width height current = Some s2 ->
  scene_positions s1 = scene_positions s2
  /\ map (fun n => (topic n, node_x n, node_y n)) (scene_nodes s1)
     = map (fun n => (topic n, node_x n, node_y n)) (scene_nodes s2)
  /\ map geometry (scene_links s1) = map geometry (scene_links s2)
  /\ (c1 = c2 ->
      scene_nodes s1 = scene_nodes s2 /\ scene_links s1 = scene_links s2
      /\ scene_transform s1 = scene_transform s2).
Proof.
  intros H1 H2.
  apply runEffect_Some in H1 as (Hp1 & Hn1 & Hl1 & Ht1).
  apply runEffect_Some in H2 as (Hp2 & Hn2 & Hl2 & Ht2).
  split; [congruence|]. split; [|split].
  - rewrite Hn1, Hn2. unfold mkNodes. rewrite !map_map. done.
  - rewrite Hl1, Hl2, Hn1, Hn2. apply routeEdges_geometry.
  - intros ->. assert (scene_nodes s1 = scene_nodes s2) as Hn by congruence.
    split; [done|]. split; congruence.
Qed.

Lemma geometry_ignores_completion_and_filter_witness :
  exists s1 s2,
    runEffect [topicA; topicB] ∅ ∅ 800 600 zoomIdentity = Some s1
    /\ runEffect [topicA; topicB] {["A-1"; "A-2"]} {["t@example.org"]} 800 600 zoomIdentity
       = Some s2
    /\ scene_positions s1 = scene_positions s2
    /\ map geometry (scene_links s1) = map geometry (scene_links s2)
    /\ map active (scene_links s1) = [false]
    /\ map active (scene_links s2) = [true].
Proof.
  eexists. eexists. split; [reflexivity|]. split; [reflexivity|].
  destruct (geometry_ignores_completion_and_filter [topicA; topicB] 800 600 zoomIdentity
              ∅ {["A-1"; "A-2"]} ∅ {["t@example.org"]} _ _ eq_refl eq_refl)
    as (Hp & _ & Hg & _).
  split; [exact Hp|]. split; [exact Hg|]. split; vm_compute; reflexivity.
Defined.


(** ** The refinement loop against its description *)

Lemma bucket_fold_maxLevel (topics : list Topic) (levels : gmap Z (list Topic)) (m : Z) :
  (0 <= m)%Z ->
  (fold_left bucket topics (levels, m)).2 = Z.max m (Spec.maxLevel topics).
Proof.
  revert levels m. induction topics as [|t topics IH]; intros levels m Hm; simpl.
  - unfold Spec.maxLevel. simpl. lia.
  - rewrite IH by (destruct (Z.ltb_spec m (level t)); lia).
    unfold Spec.maxLevel. simpl. destruct (Z.ltb_spec m (level t)); lia.
Qed.

Lemma maxLevel_nonneg (topics : list Topic) : (0 <= Spec.maxLevel topics)%Z.
Proof. unfold Spec.maxLevel. induction (map level topics); simpl; lia. Qed.

Lemma buildLevels_maxLevel (topics : list Topic) :
  (buildLevels topics).2 = Spec.maxLevel topics.
Proof.
  unfold buildLevels. rewrite bucket_fold_maxLevel by lia.
  pose proof (maxLevel_nonneg topics). lia.
Qed.

Lemma levelRange_shift (lo : nat) (hi : Z) :
  levelRange (Z.of_nat lo) hi = map Z.of_nat (seq lo (Z.to_nat (hi - Z.of_nat lo + 1))).
Proof.
  unfold levelRange. generalize (Z.to_nat (hi - Z.of_nat lo + 1)) as n. intros n.
  assert (forall s, map (fun k => (Z.of_nat lo + Z.of_nat k)%Z) (seq s n)
                    = map Z.of_nat (seq (lo + s) n)) as Hgen.
  { induction n as [|n IH]; intros s; simpl; [done|].
    f_equal; [lia|]. rewrite IH. by rewrite Nat.add_succ_r. }
  rewrite Hgen. by rewrite Nat.add_0_r.
Qed.

Lemma forwardLevels_range (topics : list Topic) :
  levelRange 2 (Spec.maxLevel topics) = Spec.forwardLevels topics.
Proof.
  unfold Spec.forwardLevels. rewrite (levelRange_shift 2). do 2 f_equal.
  pose proof (maxLevel_nonneg topics). lia.
Qed.

Lemma backwardLevels_range (topics : list Topic) :
  rev (levelRange 1 (Spec.maxLevel topics - 1)) = Spec.backwardLevels topics.
Proof.
  unfold Spec.backwardLevels. rewrite (levelRange_shift 1). do 3 f_equal.
  pose proof (maxLevel_nonneg topics). lia.
Qed.

(** The levels visited are 2 .. maxLevel going up and maxLevel-1 .. 1 going
    down, and maxLevel is the largest level of a topic. *)
Lemma visited_levels (topics : list Topic) :
  (forall l, In l (Spec.forwardLevels topics) <-> (2 <= l <= Spec.maxLevel topics)%Z)
  /\ (forall l, In l (Spec.backwardLevels topics) <-> (1 <= l <= Spec.maxLevel topics - 1)%Z)
  /\ Sorted Z.lt (Spec.forwardLevels topics)
  /\ Sorted Z.gt (Spec.backwardLevels topics)
  /\ (forall t, In t topics -> (level t <= Spec.maxLevel topics)%Z)
  /\ ((0 < Spec.maxLevel topics)%Z -> exists t, In t topics /\ level t = Spec.maxLevel topics).
Proof.
  pose proof (maxLevel_nonneg topics) as Hm.
  assert (Hup : forall s n, Sorted Z.lt (map Z.of_nat (seq s n))).
  { intros s n. revert s. induction n as [|n IH]; intros s; simpl; [constructor|].
    constructor; [apply IH|]. destruct n; simpl; constructor. lia. }
  assert (Hdown : forall s n, Sorted Z.gt (rev (map Z.of_nat (seq s n)))).
  { intros s n. revert s. induction n as [|n IH]; intros s; [constructor|].
    rewrite seq_S, map_app, rev_app_distr. simpl. constructor; [apply IH|].
    destruct n; [constructor|]. rewrite seq_S, map_app, rev_app_distr. simpl.
    constructor. lia. }
  split; [|split; [|split; [|split; [|split]]]].
  - intros l. unfold Spec.forwardLevels. rewrite in_map_iff. split.
    + intros (k & <- & Hk). apply in_seq in Hk. lia.
    + intros Hl. exists (Z.to_nat l). split; [lia|]. apply in_seq. lia.
  - intros l. unfold Spec.backwardLevels. rewrite <- in_rev, in_map_iff. split.
    + intros (k & <- & Hk). apply in_seq in Hk. lia.
    + intros Hl. exists (Z.to_nat l). split; [lia|]. apply in_seq. lia.
  - apply Hup.
  - apply Hdown.
  - intros t Ht. clear Hm. unfold Spec.maxLevel.
    induction topics as [|a topics IH]; [done|].
    simpl. destruct Ht as [->|Ht]; [lia|]. specialize (IH Ht). lia.
  - clear Hm. unfold Spec.maxLevel. induction topics as [|a topics IH]; simpl; [lia|].
    intros Hpos. destruct (Z.max_spec (level a) (fold_right Z.max 0%Z (map level topics)))
      as [[Hlt ->]|[Hge ->]].
    + destruct (IH ltac:(lia)) as (t & Ht & Hl). exists t. split; [by right | done].
    + exists a. split; [by left | done].
Qed.

Lemma includes_elem_of (arr : list string) (s : string) :
  includes arr s = true <-> s ∈ arr.
Proof.
  unfold includes. rewrite existsb_exists, list_elem_of_In. split.
  - intros (x & Hx & Heq). apply String.eqb_eq in Heq. by subst.
  - intros H. exists s. split; [done|]. apply String.eqb_refl.
Qed.

Lemma parentsOf_spec (topics : list Topic) (node : Topic) :
  parentsOf topics (level node) node = Spec.parents topics node.
Proof.
  apply filter_ext. intros p. apply eq_true_iff_eq.
  rewrite andb_true_iff, bool_decide_eq_true, includes_elem_of, Z.ltb_lt. tauto.
Qed.

Lemma childrenOf_spec (topics : list Topic) (node : Topic) :
  childrenOf topics (level node) node = Spec.children topics node.
Proof.
  apply filter_ext. intros c. apply eq_true_iff_eq.
  rewrite andb_true_iff, bool_decide_eq_true, includes_elem_of, Z.ltb_lt. tauto.
Qed.

Lemma sum_left_right (f : Topic -> Q) (l : list Topic) (a : Q) :
  fold_left (fun sum p => sum + f p) l a == a + fold_right Qplus 0 (map f l).
Proof.
  revert a. induction l as [|t l IH]; intros a; simpl; [ring|].
  rewrite IH. ring.
Qed.

Lemma weightOf_mean (m : gmap string Position) (node : Topic) (ns : list Topic) :
  weightOf m node ns == Spec.weight ns m node.
Proof.
  unfold weightOf, Spec.weight. destruct ns as [|n ns]; [reflexivity|].
  change (0 <? length (n :: ns))%nat with true. cbv iota.
  unfold Spec.mean, sumY. rewrite length_map.
  rewrite (sum_left_right (fun p => yOr0 m (id p))).
  rewrite Qplus_0_l. reflexivity.
Qed.

(** One level pass of the source re-sorts and respaces the level. *)
Lemma levelPass_resorted (nb : list Topic -> Z -> Topic -> list Topic)
    (nbSpec : list Topic -> Topic -> list Topic) (h : Q) (topics : list Topic)
    (m : gmap string Position) (lvl : Z) :
  (forall node, nb topics (level node) node = nbSpec topics node) ->
  Spec.resorted h topics (fun node => Spec.weight (nbSpec topics node) m node) lvl m
    (levelPass nb h topics (buildLevels topics).1 m lvl).
Proof.
  intros Hnb. rewrite levelPass_sortBy, buildLevels_levelNodes.
  set (key := fun node => weightOf m node (nb topics lvl node)).
  set (column := List.filter (fun t => (level t =? lvl)%Z) topics).
  assert (Hperm : Permutation (sortBy key column) column) by apply sortBy_perm.
  assert (Hkey : forall a, In a (sortBy key column) ->
                   key a == Spec.weight (nbSpec topics a) m a).
  { intros a Ha. apply (Permutation_in _ Hperm) in Ha.
    apply filter_In in Ha as [_ Hl]. apply Z.eqb_eq in Hl.
    unfold key. rewrite <- Hl, Hnb. apply weightOf_mean. }
  exists (sortBy key column). split; [exact Hperm|]. split; [|split].
  - intros i j a b Hij Hi Hj.
    assert (Ha : In a (sortBy key column)).
    { apply list_elem_of_In. by eapply list_elem_of_lookup_2. }
    assert (Hb : In b (sortBy key column)).
    { apply list_elem_of_In. by eapply list_elem_of_lookup_2. }
    rewrite <- (Hkey a Ha), <- (Hkey b Hb).
    destruct (decide (i = j)) as [->|Hne].
    + assert (a = b) as -> by congruence. apply Qle_refl.
    + apply (Sorted_lookup_le (fun a b => key a <= key b) (sortBy key column) i j);
        [|apply sortBy_is_sorted|lia|done|done].
      intros x y z. apply Qle_trans.
  - intros i Hi. by apply applySpacing_notin.
  - intros Hnd k t Hk. by rewrite (applySpacing_nodup _ _ _ _ k t Hnd Hk).
Qed.

Lemma passes_fold (pass : Z -> gmap string Position -> gmap string Position -> Prop)
    (f : gmap string Position -> Z -> gmap string Position) (lvls : list Z)
    (m : gmap string Position) :
  (forall lvl m0, pass lvl m0 (f m0 lvl)) ->
  Spec.passes pass lvls m (fold_left f lvls m).
Proof.
  intros Hf. revert m. induction lvls as [|lvl lvls IH]; intros m; simpl; [done|].
  exists (f m lvl). split; [apply Hf | apply IH].
Qed.

Lemma times_fold {B} (step : gmap string Position -> gmap string Position -> Prop)
    (f : gmap string Position -> gmap string Position) (l : list B)
    (m : gmap string Position) :
  (forall m0, step m0 (f m0)) ->
  Spec.times (length l) step m (fold_left (fun x (_ : B) => f x) l m).
Proof.
  intros Hf. revert m. induction l as [|b l IH]; intros m; simpl; [done|].
  exists (f m). split; [apply Hf | apply IH].
Qed.

(** C5.  The refinement loop of the layout engine does what its
    description says: it makes exactly ten sweeps; a sweep is a forward
    pass over the levels 2, ..., maxLevel in ascending order followed by a
    backward pass over the levels maxLevel-1, ..., 1 in descending order; a
    pass over a level takes as weight of a node the arithmetic mean of the
    current ordinates of its parents (forward: the topics at a strictly
    lower level whose [relatedTopics] contains the node's id) or children
    (backward: the topics at a strictly higher level that its
    [relatedTopics] references), or the node's own current ordinate when it
    has none, puts the nodes of the level in ascending order of weight and
    gives them the slots of the spacing formula in that order, leaving the
    other levels alone. *)
Theorem refinement_is_ten_barycentre_sweeps (topics : list Topic) (h : Q)
    (m : gmap string Position) :
  Spec.refine h topics m
    (refinement h topics (buildLevels topics).1 (buildLevels topics).2 m)
  /\ (forall l, In l (Spec.forwardLevels topics) <-> (2 <= l <= Spec.maxLevel topics)%Z)
  /\ (forall l, In l (Spec.backwardLevels topics) <-> (1 <= l <= Spec.maxLevel topics - 1)%Z)
  /\ Sorted Z.lt (Spec.forwardLevels topics)
  /\ Sorted Z.gt (Spec.backwardLevels topics)
  /\ (forall t, In t topics -> (level t <= Spec.maxLevel topics)%Z)
  /\ ((0 < Spec.maxLevel topics)%Z -> exists t, In t topics /\ level t = Spec.maxLevel topics).
Proof.
  split; [|apply visited_levels].
  unfold refinement, Spec.refine.
  change 10%nat with (length (seq 0 10)).
  apply (times_fold (Spec.sweep h topics)
           (sweep h topics (buildLevels topics).1 (buildLevels topics).2)).
  intros m0. unfold sweep, Spec.sweep.
  exists (forwardPass h topics (buildLevels topics).1 (buildLevels topics).2 m0). split.
  - unfold forwardPass, Spec.forward.
    rewrite buildLevels_maxLevel, forwardLevels_range.
    apply (passes_fold _ (levelPass parentsOf h topics (buildLevels topics).1)).
    intros lvl m1. apply levelPass_resorted, parentsOf_spec.
  - unfold backwardPass, Spec.backward.
    rewrite buildLevels_maxLevel, backwardLevels_range.
    apply (passes_fold _ (levelPass childrenOf h topics (buildLevels topics).1)).
    intros lvl m1. apply levelPass_resorted, childrenOf_spec.
Qed.

Lemma refinement_is_ten_barycentre_sweeps_witness :
  let levels := (buildLevels crossing).1 in
  let maxLevel := (buildLevels crossing).2 in
  let start := initialPositions 600 levels maxLevel in
  let final := refinement 600 crossing levels maxLevel start in
  Spec.refine 600 crossing start final
  /\ Spec.currentY start crossC < Spec.currentY start crossD
  /\ Spec.currentY final crossD < Spec.currentY final crossC
  /\ Spec.currentY final crossA < Spec.currentY final crossB.
Proof.
  intros levels maxLevel start final.
  split; [exact (proj1 (refinement_is_ten_barycentre_sweeps crossing 600 start))|].
  split; [|split]; vm_compute; reflexivity.
Defined.


(** * Further properties of the component *)

(** ** Ports and paths of the routed links *)

Lemma routeEdges_link_ends (nodes : list Node) (l : LinkData) :
  In l (routeEdges nodes) ->
  In (source l) nodes /\ In (target l) nodes
  /\ (level (topic (source l)) < level (topic (target l)))%Z.
Proof.
  intros Hl.
  assert (exists l', In l' (allLinks nodes) /\ ends l' = ends l) as (l' & Hl' & He).
  { apply routeEdges_ends. eauto. }
  unfold ends in He. injection He as <- <- _.
  apply in_allLinks in Hl' as (src & tid & tgt & Hsrc & _ & Hf & Hlt & ->).
  simpl. split; [done|]. split; [|done].
  unfold findNode in Hf. by apply find_some in Hf as [? _].
Qed.

Lemma ported_at (sel far : LinkData -> Node) (port : LinkData -> option nat * option nat)
    (ls : list LinkData) (j : nat) (l : LinkData) :
  ported sel far port ls (id (topic (sel l))) -> ls !! j = Some l ->
  exists i, sortBy (farY far ls) (linksOf sel ls (id (topic (sel l)))) !! i = Some j
    /\ (i < length (sortBy (farY far ls) (linksOf sel ls (id (topic (sel l))))))%nat
    /\ port l = (Some i, Some (length (sortBy (farY far ls)
                                         (linksOf sel ls (id (topic (sel l))))))).
Proof.
  intros Hp Hj.
  assert (In j (sortBy (farY far ls) (linksOf sel ls (id (topic (sel l)))))) as Hin.
  { eapply Permutation_in; [symmetry; apply sortBy_perm|]. apply in_linksOf. eauto. }
  apply list_elem_of_In, list_elem_of_lookup_1 in Hin as [i Hi].
  exists i. split; [done|]. split; [by eapply lookup_lt_Some|].
  destruct (Hp i j Hi) as (l' & Hl' & Hport). congruence.
Qed.

Lemma routeEdges_source_port (nodes : list Node) (j : nat) (l : LinkData) :
  routeEdges nodes !! j = Some l ->
  exists i, sortBy (farY target (routeEdges nodes))
                   (linksOf source (routeEdges nodes) (id (topic (source l)))) !! i = Some j
    /\ (i < length (sortBy (farY target (routeEdges nodes))
                           (linksOf source (routeEdges nodes) (id (topic (source l))))))%nat
    /\ sourcePort l
       = (Some i, Some (length (sortBy (farY target (routeEdges nodes))
                                  (linksOf source (routeEdges nodes)
                                           (id (topic (source l))))))).
Proof.
  intros Hj. apply (ported_at source target sourcePort); [|done].
  apply sortPorts_source_ported.
  apply routeEdges_link_ends. apply list_elem_of_In. by eapply list_elem_of_lookup_2.
Qed.

Lemma routeEdges_target_port (nodes : list Node) (j : nat) (l : LinkData) :
  routeEdges nodes !! j = Some l ->
  exists i, sortBy (farY source (routeEdges nodes))
                   (linksOf target (routeEdges nodes) (id (topic (target l)))) !! i = Some j
    /\ (i < length (sortBy (farY source (routeEdges nodes))
                           (linksOf target (routeEdges nodes) (id (topic (target l))))))%nat
    /\ targetPort l
       = (Some i, Some (length (sortBy (farY source (routeEdges nodes))
                                  (linksOf target (routeEdges nodes)
                                           (id (topic (target l))))))).
Proof.
  intros Hj. apply (ported_at target source targetPort); [|done].
  apply sortPorts_target_ported.
  apply routeEdges_link_ends. apply list_elem_of_In. by eapply list_elem_of_lookup_2.
Qed.

Lemma totalOr1_pos (n i : nat) : (i < n)%nat -> totalOr1 (Some n) = n.
Proof. destruct n; [lia|done]. Qed.

(** X1.  Every routed link has its four port numbers assigned, each index
    below its total, so that the defaults [|| 0] and [|| 1] of the path
    computation return the assigned numbers. *)
Theorem routed_links_have_ports (nodes : list Node) (l : LinkData) :
  In l (routeEdges nodes) ->
  exists i n j k,
    ports l = (Some i, Some n, Some j, Some k)
    /\ (i < n)%nat /\ (j < k)%nat
    /\ indexOr0 (sourceIndex l) = i /\ totalOr1 (sourceTotal l) = n
    /\ indexOr0 (targetIndex l) = j /\ totalOr1 (targetTotal l) = k.
Proof.
  intros Hl. apply list_elem_of_In, list_elem_of_lookup_1 in Hl as [a Ha].
  destruct (routeEdges_source_port nodes a l Ha) as (i & _ & Hi & Hs).
  destruct (routeEdges_target_port nodes a l Ha) as (j & _ & Hj & Ht).
  unfold sourcePort in Hs. unfold targetPort in Ht.
  injection Hs as Hs1 Hs2. injection Ht as Ht1 Ht2.
  eexists i, _, j, _. unfold ports. rewrite Hs1, Hs2, Ht1, Ht2.
  split; [reflexivity|]. split; [exact Hi|]. split; [exact Hj|].
  split; [done|]. split; [by apply (totalOr1_pos _ i)|].
  split; [done|]. by apply (totalOr1_pos _ j).
Qed.

Lemma routed_links_have_ports_witness :
  let nodes := mkNodes ∅ (computeLayout [topicA; topicB] 600) [topicA; topicB] in
  exists i n j k,
    ports (setTargetPort 0 1 (setSourcePort 0 1
             (newLink (mkNode ∅ (computeLayout [topicA; topicB] 600) topicA)
                      (mkNode ∅ (computeLayout [topicA; topicB] 600) topicB))))
    = (Some i, Some n, Some j, Some k) /\ (i < n)%nat /\ (j < k)%nat.
Proof.
  intros nodes.
  destruct (routed_links_have_ports nodes
              (setTargetPort 0 1 (setSourcePort 0 1
                 (newLink (mkNode ∅ (computeLayout [topicA; topicB] 600) topicA)
                          (mkNode ∅ (computeLayout [topicA; topicB] 600) topicB)))))
    as (i & n & j & k & H1 & H2 & H3 & _).
  - left. reflexivity.
  - exists i, n, j, k. auto.
Defined.

Lemma linkPath_source_side (l : LinkData) (i n : nat) :
  sourcePort l = (Some i, Some n) -> (i < n)%nat ->
  path_sy (linkPath l)
  == node_y (source l) + 80
     + (inject_Z (Z.of_nat i) * 15 - (inject_Z (Z.of_nat n) - 1) * (15 # 2))
  /\ path_turnX (linkPath l)
     == node_x (source l) + 370
        + (inject_Z (Z.of_nat i) * 15 - (inject_Z (Z.of_nat n) - 1) * (15 # 2)) * (3 # 2).
Proof.
  intros Hp Hi. unfold sourcePort in Hp. injection Hp as Hp1 Hp2.
  unfold linkPath. rewrite Hp1, Hp2. cbn [indexOr0 default path_sy path_turnX].
  rewrite (totalOr1_pos n i Hi).
  unfold portOffset, NODE_HEIGHT, NODE_WIDTH, CONNECTOR_OFFSET, LEVEL_SPACING, Datatypes.id.
  change (inject_Z 500) with 500. split; field.
Qed.

Lemma linkPath_target_side (l : LinkData) (j k : nat) :
  targetPort l = (Some j, Some k) -> (j < k)%nat ->
  path_ty (linkPath l)
  == node_y (target l) + 80
     + (inject_Z (Z.of_nat j) * 15 - (inject_Z (Z.of_nat k) - 1) * (15 # 2)).
Proof.
  intros Hp Hj. unfold targetPort in Hp. injection Hp as Hp1 Hp2.
  unfold linkPath. rewrite Hp1, Hp2. cbn [indexOr0 default path_ty].
  rewrite (totalOr1_pos k j Hj).
  unfold portOffset, NODE_HEIGHT, CONNECTOR_OFFSET, Datatypes.id. field.
Qed.

Lemma inject_nat_neq (i j : nat) :
  i <> j -> ~ inject_Z (Z.of_nat i) == inject_Z (Z.of_nat j).
Proof. intros Hne Heq. apply (proj1 (inject_Z_injective _ _)) in Heq. lia. Qed.

(** X2.  Two different link objects leaving the same node get different
    source ports, so they leave the node at different heights and turn at
    different abscissas; two different links entering the same node get
    different target ports and arrive at different heights. *)
Theorem parallel_links_use_distinct_ports (nodes : list Node) (a b : nat) (la lb : LinkData) :
  routeEdges nodes !! a = Some la -> routeEdges nodes !! b = Some lb -> a <> b ->
  (source la = source lb ->
     sourceIndex la <> sourceIndex lb
     /\ ~ path_sy (linkPath la) == path_sy (linkPath lb)
     /\ ~ path_turnX (linkPath la) == path_turnX (linkPath lb))
  /\ (target la = target lb ->
        targetIndex la <> targetIndex lb
        /\ ~ path_ty (linkPath la) == path_ty (linkPath lb)).
Proof.
  intros Ha Hb Hab. split; intros Hsame.
  - destruct (routeEdges_source_port nodes a la Ha) as (ia & Hia & Hlta & Hpa).
    destruct (routeEdges_source_port nodes b lb Hb) as (ib & Hib & Hltb & Hpb).
    rewrite <- Hsame in Hib, Hltb, Hpb.
    assert (ia <> ib) as Hne by (intros ->; congruence).
    destruct (linkPath_source_side la _ _ Hpa Hlta) as [Hya Hxa].
    destruct (linkPath_source_side lb _ _ Hpb Hltb) as [Hyb Hxb].
    pose proof (inject_nat_neq ia ib Hne) as Hq.
    unfold sourcePort in Hpa, Hpb. injection Hpa as Hpa _. injection Hpb as Hpb _.
    split; [congruence|]. rewrite Hya, Hyb, Hxa, Hxb, Hsame.
    revert Hq. generalize (inject_Z (Z.of_nat ia)) (inject_Z (Z.of_nat ib)).
    intros qa qb Hq. split; intros Heq; apply Hq; lra.
  - destruct (routeEdges_target_port nodes a la Ha) as (ia & Hia & Hlta & Hpa).
    destruct (routeEdges_target_port nodes b lb Hb) as (ib & Hib & Hltb & Hpb).
    rewrite <- Hsame in Hib, Hltb, Hpb.
    assert (ia <> ib) as Hne by (intros ->; congruence).
    pose proof (linkPath_target_side la _ _ Hpa Hlta) as Hya.
    pose proof (linkPath_target_side lb _ _ Hpb Hltb) as Hyb.
    pose proof (inject_nat_neq ia ib Hne) as Hq.
    unfold targetPort in Hpa, Hpb. injection Hpa as Hpa _. injection Hpb as Hpb _.
    split; [congruence|]. rewrite Hya, Hyb, Hsame.
    revert Hq. generalize (inject_Z (Z.of_nat ia)) (inject_Z (Z.of_nat ib)).
    intros qa qb Hq Heq. apply Hq. lra.
Qed.

Lemma parallel_links_use_distinct_ports_witness :
  let topics := [topicS; topicP; topicQ; topicR] in
  let links := routeEdges (mkNodes ∅ (computeLayout topics 600) topics) in
  exists la lb, links !! 0%nat = Some la /\ links !! 2%nat = Some lb
    /\ ~ path_turnX (linkPath la) == path_turnX (linkPath lb).
Proof.
  intros topics links.
  assert (length links = 3%nat) as Hlen by (vm_compute; reflexivity).
  assert (0 < length links)%nat as H0 by (rewrite Hlen; repeat constructor).
  assert (2 < length links)%nat as H2 by (rewrite Hlen; repeat constructor).
  destruct (lookup_lt_is_Some_2 links 0%nat H0) as [la Ha].
  destruct (lookup_lt_is_Some_2 links 2%nat H2) as [lb Hb].
  assert (source <$> links !! 0%nat = source <$> links !! 2%nat) as Hsrc
    by (vm_compute; reflexivity).
  rewrite Ha, Hb in Hsrc. injection Hsrc as Hsrc.
  exists la, lb. split; [done|]. split; [done|].
  subst links topics.
  refine (proj2 (proj2 (proj1 (parallel_links_use_distinct_ports _ 0 2 la lb Ha Hb _) Hsrc))).
  lia.
Defined.

Lemma mkNodes_in (c : gset string) (m : gmap string Position) (topics : list Topic) (n : Node) :
  In n (mkNodes c m topics) -> exists t, In t topics /\ n = mkNode c m t.
Proof. unfold mkNodes. rewrite in_map_iff. intros (t & <- & Ht). eauto. Qed.

(** X3.  In the laid-out graph (distinct ids, positive levels) every routed
    link starts on the right edge of its source and ends on the left edge
    of its target, at least 260 further right.  While the source has at
    most 12 outgoing links the vertical segment of the path lies between
    the two edges; while a node has at most 11 links on one side, their
    ports lie on the edge of the node. *)
Theorem link_paths_cross_the_gap (topics : list Topic) (h : Q) (c : gset string)
    (l : LinkData) :
  NoDup (map id topics) ->
  (forall t, In t topics -> (1 <= level t)%Z) ->
  In l (routeEdges (mkNodes c (computeLayout topics h) topics)) ->
  path_sx (linkPath l) == node_x (source l) + 240
  /\ path_tx (linkPath l) == node_x (target l)
  /\ path_sx (linkPath l) + 260 <= path_tx (linkPath l)
  /\ (forall n, sourceTotal l = Some n -> (n <= 12)%nat ->
        path_sx (linkPath l) <= path_turnX (linkPath l)
        /\ path_turnX (linkPath l) <= path_sx (linkPath l) + 260)
  /\ (forall n, sourceTotal l = Some n -> (n <= 11)%nat ->
        node_y (source l) <= path_sy (linkPath l)
        /\ path_sy (linkPath l) <= node_y (source l) + 160)
  /\ (forall k, targetTotal l = Some k -> (k <= 11)%nat ->
        node_y (target l) <= path_ty (linkPath l)
        /\ path_ty (linkPath l) <= node_y (target l) + 160).
Proof.
  intros Hnd Hpos Hl.
  destruct (routeEdges_link_ends _ l Hl) as (Hs & Ht & Hlt).
  apply mkNodes_in in Hs as (s & Hs & Es). apply mkNodes_in in Ht as (t & Ht & Et).
  assert (node_x (source l) == 100 + (inject_Z (level s) - 1) * 500) as Hxs
    by (rewrite Es; apply node_x_formula; auto).
  assert (node_x (target l) == 100 + (inject_Z (level t) - 1) * 500) as Hxt
    by (rewrite Et; apply node_x_formula; auto).
  assert (inject_Z (level s) + 1 <= inject_Z (level t)) as Hlev.
  { rewrite Es, Et in Hlt. simpl in Hlt.
    change 1 with (inject_Z 1). rewrite <- inject_Z_plus, <- Zle_Qle. lia. }
  apply list_elem_of_In, list_elem_of_lookup_1 in Hl as [a Ha].
  destruct (routeEdges_source_port _ a l Ha) as (i & _ & Hi & Hsp).
  destruct (routeEdges_target_port _ a l Ha) as (j & _ & Hj & Htp).
  destruct (linkPath_source_side l _ _ Hsp Hi) as [Hsy Hturn].
  pose proof (linkPath_target_side l _ _ Htp Hj) as Hty.
  assert (path_sx (linkPath l) == node_x (source l) + 240) as Hsx by reflexivity.
  assert (path_tx (linkPath l) == node_x (target l)) as Htx by reflexivity.
  assert (forall a b : nat, (a < b)%nat ->
            0 <= inject_Z (Z.of_nat a)
            /\ inject_Z (Z.of_nat a) + 1 <= inject_Z (Z.of_nat b)) as Hnat.
  { intros x y Hxy. split.
    - rewrite <- (Zle_Qle 0). lia.
    - change 1 with (inject_Z 1). rewrite <- inject_Z_plus, <- Zle_Qle. lia. }
  assert (forall (b : nat) (z : Z), (b <= Z.to_nat z)%nat -> (0 <= z)%Z ->
            inject_Z (Z.of_nat b) <= inject_Z z) as Hcap.
  { intros b z Hb Hz. rewrite <- Zle_Qle. lia. }
  unfold sourcePort in Hsp. injection Hsp as _ Hstot.
  unfold targetPort in Htp. injection Htp as _ Httot.
  destruct (Hnat _ _ Hi) as [Hi0 Hi1]. destruct (Hnat _ _ Hj) as [Hj0 Hj1].
  split; [done|]. split; [done|]. split.
  { rewrite Hsx, Htx, Hxs, Hxt.
    revert Hlev. generalize (inject_Z (level s)) (inject_Z (level t)). intros; lra. }
  split; [|split].
  - intros n Hn Hle. rewrite Hstot in Hn. injection Hn as <-.
    pose proof (Hcap _ 12%Z Hle ltac:(lia)) as Hc. change (inject_Z 12) with 12 in Hc.
    rewrite Hturn, Hsx.
    revert Hi0 Hi1 Hc. generalize (inject_Z (Z.of_nat i)).
    generalize (inject_Z (Z.of_nat (length
      (sortBy (farY target (routeEdges (mkNodes c (computeLayout topics h) topics)))
         (linksOf source (routeEdges (mkNodes c (computeLayout topics h) topics))
            (id (topic (source l)))))))).
    intros qn qi ? ? ?. split; lra.
  - intros n Hn Hle. rewrite Hstot in Hn. injection Hn as <-.
    pose proof (Hcap _ 11%Z Hle ltac:(lia)) as Hc. change (inject_Z 11) with 11 in Hc.
    rewrite Hsy.
    revert Hi0 Hi1 Hc. generalize (inject_Z (Z.of_nat i)).
    generalize (inject_Z (Z.of_nat (length
      (sortBy (farY target (routeEdges (mkNodes c (computeLayout topics h) topics)))
         (linksOf source (routeEdges (mkNodes c (computeLayout topics h) topics))
            (id (topic (source l)))))))).
    intros qn qi ? ? ?. split; lra.
  - intros k Hk Hle. rewrite Httot in Hk. injection Hk as <-.
    pose proof (Hcap _ 11%Z Hle ltac:(lia)) as Hc. change (inject_Z 11) with 11 in Hc.
    rewrite Hty.
    revert Hj0 Hj1 Hc. generalize (inject_Z (Z.of_nat j)).
    generalize (inject_Z (Z.of_nat (length
      (sortBy (farY source (routeEdges (mkNodes c (computeLayout topics h) topics)))
         (linksOf target (routeEdges (mkNodes c (computeLayout topics h) topics))
            (id (topic (target l)))))))).
    intros qn qi ? ? ?. split; lra.
Qed.

Lemma link_paths_cross_the_gap_witness :
  let topics := [topicS; topicP; topicQ; topicR] in
  let links := routeEdges (mkNodes ∅ (computeLayout topics 600) topics) in
  exists l, links !! 0%nat = Some l
    /\ path_sx (linkPath l) + 260 <= path_tx (linkPath l).
Proof.
  intros topics links.
  assert (length links = 3%nat) as Hlen by (vm_compute; reflexivity).
  assert (0 < length links)%nat as H0 by (rewrite Hlen; repeat constructor).
  destruct (lookup_lt_is_Some_2 links 0%nat H0) as [l Hl].
  assert (l ∈ links) as Hel by exact (list_elem_of_lookup_2 links 0%nat l Hl).
  assert (In l links) as Hin by exact (proj1 (list_elem_of_In links l) Hel).
  exists l. split; [done|]. subst links topics.
  refine (proj1 (proj2 (proj2 (link_paths_cross_the_gap
                                 [topicS; topicP; topicQ; topicR] 600 ∅ l _ _ Hin)))).
  - apply NoDup_ListNoDup. simpl.
    repeat (constructor; [simpl; intuition discriminate|]). constructor.
  - intros t [<-|[<-|[<-|[<-|[]]]]]; simpl; lia.
Defined.

(** ** Columns of the layout *)

Lemma columnSpaced_apply (topics : list Topic) (h : Q) (L : Z) (sorted : list Topic)
    (m : gmap string Position) :
  NoDup (map id topics) ->
  Permutation sorted (levelNodes (buildLevels topics).1 L) ->
  columnSpaced h L (levelNodes (buildLevels topics).1 L)
               (applySpacing h sorted (levelX L) m).
Proof.
  intros Hnd Hperm. exists sorted. split; [done|]. intros k t Hk.
  rewrite <- (Permutation_length Hperm). apply applySpacing_nodup; [|done].
  rewrite Hperm, buildLevels_levelNodes. by apply NoDup_map_filter.
Qed.

Lemma columnSpaced_other (topics : list Topic) (h : Q) (L lvl : Z) (nodes : list Topic)
    (X : Q) (m : gmap string Position) :
  NoDup (map id topics) -> lvl <> L ->
  (forall n, In n nodes -> In n topics /\ level n = lvl) ->
  columnSpaced h L (levelNodes (buildLevels topics).1 L) m ->
  columnSpaced h L (levelNodes (buildLevels topics).1 L) (applySpacing h nodes X m).
Proof.
  intros Hnd Hne Hnodes (sorted & Hperm & Hs). exists sorted. split; [done|].
  intros k t Hk. rewrite applySpacing_notin; [by apply Hs|].
  assert (In t topics /\ level t = L) as [Ht Hl].
  { apply in_levelNodes. eapply Permutation_in; [exact Hperm|].
    apply list_elem_of_In. by eapply list_elem_of_lookup_2. }
  apply (id_notin_other_level topics nodes lvl); auto. congruence.
Qed.

Lemma columnSpaced_levelPass (nb : list Topic -> Z -> Topic -> list Topic) (topics : list Topic)
    (h : Q) (L lvl : Z) (m : gmap string Position) :
  NoDup (map id topics) ->
  columnSpaced h L (levelNodes (buildLevels topics).1 L) m ->
  columnSpaced h L (levelNodes (buildLevels topics).1 L)
               (levelPass nb h topics (buildLevels topics).1 m lvl).
Proof.
  intros Hnd Hm. rewrite levelPass_sortBy. destruct (decide (lvl = L)) as [->|Hne].
  - apply columnSpaced_apply; [done | apply sortBy_perm].
  - apply (columnSpaced_other topics h L lvl); auto.
    intros n Hn. by apply sorted_levelNodes_spec in Hn.
Qed.

Lemma columnSpaced_final (topics : list Topic) (h : Q) (L : Z) :
  NoDup (map id topics) -> (1 <= L)%Z ->
  columnSpaced h L (levelNodes (buildLevels topics).1 L) (computeLayout topics h).
Proof.
  intros Hnd HL.
  destruct (levelNodes (buildLevels topics).1 L) as [|t0 col] eqn:Hcol.
  { exists []. split; [done|]. intros k t Hk. done. }
  rewrite <- Hcol.
  assert (In L (levelRange 1 (buildLevels topics).2)) as HLin.
  { assert (In t0 topics /\ level t0 = L) as [Ht <-].
    { apply in_levelNodes. rewrite Hcol. by left. }
    apply in_levelRange. split; [done|]. by apply buildLevels_max. }
  rewrite computeLayout_unfold.
  apply (refinement_inv (columnSpaced h L (levelNodes (buildLevels topics).1 L))).
  - intros nb lvl m Hm. by apply columnSpaced_levelPass.
  - unfold initialPositions.
    apply (fold_left_establish _
             (columnSpaced h L (levelNodes (buildLevels topics).1 L)) _ L); [done| |].
    + intros m. by apply columnSpaced_apply.
    + intros m lvl _ Hm. destruct (decide (lvl = L)) as [->|Hne].
      * by apply columnSpaced_apply.
      * apply (columnSpaced_other topics h L lvl); auto.
        intros n Hn. by apply in_levelNodes.
Qed.

Lemma columnSpaced_position (topics : list Topic) (h : Q) (t : Topic) :
  NoDup (map id topics) -> In t topics -> (1 <= level t)%Z ->
  exists sorted k,
    Permutation sorted (levelNodes (buildLevels topics).1 (level t))
    /\ sorted !! k = Some t
    /\ computeLayout topics h !! id t
       = Some {| pos_x := levelX (level t);
                 pos_y := startY h (length (levelNodes (buildLevels topics).1 (level t)))
                          + inject_Z (Z.of_nat k) * NODE_SPACING |}
    /\ forall k' t', sorted !! k' = Some t' ->
         computeLayout topics h !! id t'
         = Some {| pos_x := levelX (level t);
                   pos_y := startY h (length (levelNodes (buildLevels topics).1 (level t)))
                            + inject_Z (Z.of_nat k') * NODE_SPACING |}.
Proof.
  intros Hnd Ht Hl.
  destruct (columnSpaced_final topics h (level t) Hnd Hl) as (sorted & Hperm & Hs).
  assert (In t sorted) as Hin.
  { eapply Permutation_in; [symmetry; exact Hperm|]. by apply in_levelNodes. }
  apply list_elem_of_In, list_elem_of_lookup_1 in Hin as [k Hk].
  exists sorted, k. split; [done|]. split; [done|]. split; [by apply Hs|]. exact Hs.
Qed.

(** X4.  In the laid-out graph (distinct ids, positive levels) no two node
    rectangles overlap: two topics of one level share x and lie at least
    280 apart vertically (the nodes are 160 high); a topic of a higher
    level lies at least 500 further right (the nodes are 240 wide). *)
Theorem nodes_never_overlap (topics : list Topic) (h : Q) (c : gset string)
    (t1 t2 : Topic) :
  NoDup (map id topics) ->
  (forall t, In t topics -> (1 <= level t)%Z) ->
  In t1 topics -> In t2 topics -> t1 <> t2 ->
  let n1 := mkNode c (computeLayout topics h) t1 in
  let n2 := mkNode c (computeLayout topics h) t2 in
  (level t1 = level t2 ->
     node_x n1 == node_x n2
     /\ (node_y n1 + 280 <= node_y n2 \/ node_y n2 + 280 <= node_y n1))
  /\ ((level t1 < level t2)%Z -> node_x n1 + 500 <= node_x n2)
  /\ (node_x n1 + 240 < node_x n2 \/ node_x n2 + 240 < node_x n1
      \/ node_y n1 + 160 < node_y n2 \/ node_y n2 + 160 < node_y n1).
Proof.
  intros Hnd Hpos H1 H2 Hne n1 n2.
  assert (Hsame : level t1 = level t2 ->
            node_x n1 == node_x n2
            /\ (node_y n1 + 280 <= node_y n2 \/ node_y n2 + 280 <= node_y n1)).
  { intros Hl.
    destruct (columnSpaced_position topics h t1 Hnd H1 (Hpos t1 H1))
      as (sorted & k1 & Hperm & Hk1 & Hp1 & Hall).
    assert (In t2 sorted) as Hin.
    { eapply Permutation_in; [symmetry; exact Hperm|]. rewrite Hl. by apply in_levelNodes. }
    apply list_elem_of_In, list_elem_of_lookup_1 in Hin as [k2 Hk2].
    pose proof (Hall k2 t2 Hk2) as Hp2.
    assert (k1 <> k2) as Hk by (intros ->; congruence).
    unfold n1, n2, mkNode, posOrOrigin. rewrite Hp1, Hp2.
    generalize (startY h (length (levelNodes (buildLevels topics).1 (level t1)))). intros y0.
    unfold NODE_SPACING. simpl. split; [reflexivity|].
    destruct (Nat.lt_gt_cases k1 k2) as [Hcase _]. destruct (Hcase Hk) as [Hlt|Hgt].
    - left. assert (inject_Z (Z.of_nat k1) + 1 <= inject_Z (Z.of_nat k2)) as Hq.
      { change 1 with (inject_Z 1). rewrite <- inject_Z_plus, <- Zle_Qle. lia. }
      revert Hq. generalize (inject_Z (Z.of_nat k1)) (inject_Z (Z.of_nat k2)). intros; lra.
    - right. assert (inject_Z (Z.of_nat k2) + 1 <= inject_Z (Z.of_nat k1)) as Hq.
      { change 1 with (inject_Z 1). rewrite <- inject_Z_plus, <- Zle_Qle. lia. }
      revert Hq. generalize (inject_Z (Z.of_nat k1)) (inject_Z (Z.of_nat k2)). intros; lra. }
  assert (Hfar : forall a b, In a topics -> In b topics -> (level a < level b)%Z ->
            node_x (mkNode c (computeLayout topics h) a) + 500
            <= node_x (mkNode c (computeLayout topics h) b)).
  { intros a b Ha Hb Hlt. rewrite !node_x_formula by auto.
    assert (inject_Z (level a) + 1 <= inject_Z (level b)) as Hq.
    { change 1 with (inject_Z 1). rewrite <- inject_Z_plus, <- Zle_Qle. lia. }
    revert Hq. generalize (inject_Z (level a)) (inject_Z (level b)). intros; lra. }
  split; [exact Hsame|]. split; [by apply Hfar|].
  destruct (Z.lt_total (level t1) (level t2)) as [Hlt|[Heq|Hgt]].
  - left. specialize (Hfar t1 t2 H1 H2 Hlt). fold n1 n2 in Hfar. lra.
  - destruct (Hsame Heq) as [_ [Hy|Hy]]; [right; right; left | right; right; right]; lra.
  - right. left. specialize (Hfar t2 t1 H2 H1 Hgt). fold n1 n2 in Hfar. lra.
Qed.

Lemma nodes_never_overlap_witness :
  node_y (mkNode ∅ (computeLayout [topicP; topicQ; topicR] 600) topicP) + 280
  <= node_y (mkNode ∅ (computeLayout [topicP; topicQ; topicR] 600) topicQ)
  \/ node_y (mkNode ∅ (computeLayout [topicP; topicQ; topicR] 600) topicQ) + 280
     <= node_y (mkNode ∅ (computeLayout [topicP; topicQ; topicR] 600) topicP).
Proof.
  refine (proj2 (proj1 (nodes_never_overlap [topicP; topicQ; topicR] 600 ∅ topicP topicQ
                          _ _ _ _ _) _)).
  - apply NoDup_ListNoDup. simpl.
    repeat (constructor; [simpl; intuition discriminate|]). constructor.
  - intros t [<-|[<-|[<-|[]]]]; simpl; lia.
  - by left.
  - right; by left.
  - discriminate.
  - reflexivity.
Defined.

(** X5.  In the laid-out graph (distinct ids) the final ordinates of the
    nodes of any level [L >= 1] holding [N] nodes are, in some order,
    exactly the [N] slots [startY + i * 280], [i = 0 .. N-1]: the sweeps
    only permute the nodes of a level among its slots. *)
Theorem level_ordinates_are_its_slots (topics : list Topic) (h : Q) (L : Z) :
  NoDup (map id topics) -> (1 <= L)%Z ->
  let column := List.filter (fun t => (level t =? L)%Z) topics in
  Permutation
    (map (fun t => computeLayout topics h !! id t) column)
    (map (fun i => Some {| pos_x := levelX L;
                           pos_y := startY h (length column)
                                    + inject_Z (Z.of_nat i) * NODE_SPACING |})
         (seq 0 (length column))).
Proof.
  intros Hnd HL column.
  destruct (columnSpaced_final topics h L Hnd HL) as (sorted & Hperm & Hs).
  rewrite buildLevels_levelNodes in Hperm, Hs. fold column in Hperm, Hs.
  pose proof (Permutation_length Hperm) as HN.
  transitivity (map (fun t => computeLayout topics h !! id t) sorted).
  { apply Permutation_map. by symmetry. }
  assert (map (fun t => computeLayout topics h !! id t) sorted
          = map (fun i => Some {| pos_x := levelX L;
                                  pos_y := startY h (length column)
                                           + inject_Z (Z.of_nat i) * NODE_SPACING |})
                (seq 0 (length column))) as ->; [|done].
  apply list_eq. intros k. rewrite !list_lookup_fmap.
  destruct (sorted !! k) as [t|] eqn:Hk; simpl.
  - rewrite lookup_seq_lt by (rewrite <- HN; by eapply lookup_lt_Some).
    simpl. by rewrite (Hs k t Hk).
  - apply lookup_ge_None in Hk. rewrite lookup_seq_ge by lia. done.
Qed.

Lemma level_ordinates_are_its_slots_witness :
  Permutation
    (map (fun t => computeLayout [topicS; topicP; topicQ; topicR] 600 !! id t)
         [topicP; topicQ; topicR])
    (map (fun i => Some {| pos_x := levelX 2;
                           pos_y := startY 600 3 + inject_Z (Z.of_nat i) * NODE_SPACING |})
         (seq 0 3)).
Proof.
  refine (level_ordinates_are_its_slots [topicS; topicP; topicQ; topicR] 600 2 _ _).
  - apply NoDup_ListNoDup. simpl.
    repeat (constructor; [simpl; intuition discriminate|]). constructor.
  - lia.
Defined.

(** ** Global progress *)

Lemma countTopic_spec (c : gset string) (t : Topic) (completed total : nat) :
  countTopic c (completed, total) t
  = ((completed
      + length (List.filter (fun st => bool_decide (sub_id st ∈ c)) (subTopics t)))%nat,
     (total + length (subTopics t))%nat).
Proof.
  unfold countTopic. revert completed total.
  induction (subTopics t) as [|st l IH]; intros completed total; simpl.
  - f_equal; lia.
  - rewrite IH. destruct (bool_decide (sub_id st ∈ c)); simpl; f_equal; lia.
Qed.

Lemma getProgressStats_counts (c : gset string) (t : Topic) :
  completed (getProgressStats c t)
  = length (List.filter (fun st => bool_decide (sub_id st ∈ c)) (subTopics t))
  /\ total (getProgressStats c t) = length (subTopics t).
Proof. unfold getProgressStats. by destruct (subTopics t). Qed.

Lemma overall_counts (topics : list Topic) (c : gset string) (completed0 total0 : nat) :
  fold_left (countTopic c) topics (completed0, total0)
  = ((completed0 + list_sum (map (fun t => completed (getProgressStats c t)) topics))%nat,
     (total0 + list_sum (map (fun t => total (getProgressStats c t)) topics))%nat).
Proof.
  revert completed0 total0. induction topics as [|t topics IH]; intros completed0 total0; simpl.
  - f_equal; lia.
  - rewrite countTopic_spec, IH.
    destruct (getProgressStats_counts c t) as [-> ->]. f_equal; lia.
Qed.

Lemma overallStats_counts (topics : list Topic) (c : gset string) :
  overall_completed (overallStats topics c)
  = list_sum (map (fun t => completed (getProgressStats c t)) topics)
  /\ overall_total (overallStats topics c)
     = list_sum (map (fun t => total (getProgressStats c t)) topics).
Proof. unfold overallStats. rewrite overall_counts. done. Qed.

Lemma list_sum_le_eq {A} (f g : A -> nat) (l : list A) :
  (forall a, In a l -> (f a <= g a)%nat) ->
  (list_sum (map f l) <= list_sum (map g l))%nat
  /\ (list_sum (map f l) = list_sum (map g l) <-> forall a, In a l -> f a = g a).
Proof.
  induction l as [|a l IH]; intros Hle; simpl.
  - split; [lia|]. split; [tauto|done].
  - destruct IH as [IH1 IH2]; [intros; apply Hle; by right|].
    pose proof (Hle a (or_introl eq_refl)) as Ha. split; [lia|]. split.
    + intros Heq b [<-|Hb]; [lia|]. apply IH2; [lia|done].
    + intros Hall. rewrite (Hall a (or_introl eq_refl)).
      f_equal. apply IH2. intros b Hb. apply Hall. by right.
Qed.

(** *** Rounding to a double stays within one part in [2^53] *)

Lemma roundHalfEven_le (s : Q) : inject_Z (roundHalfEven s) <= s + (1 # 2).
Proof.
  unfold roundHalfEven. pose proof (Qfloor_le s) as Hf.
  destruct (Qcompare (s - inject_Z (Qfloor s)) (1 # 2)) eqn:Hc.
  - apply Qeq_alt in Hc. destruct (Z.even (Qfloor s)); [lra|].
    rewrite inject_Z_plus. change (inject_Z 1) with 1. lra.
  - lra.
  - apply Qgt_alt in Hc. rewrite inject_Z_plus. change (inject_Z 1) with 1. lra.
Qed.

Lemma roundHalfEven_nonneg (s : Q) : 0 <= s -> (0 <= roundHalfEven s)%Z.
Proof.
  intros Hs. assert (0 <= Qfloor s)%Z as Hf.
  { change 0%Z with (Qfloor 0). by apply Qfloor_resp_le. }
  unfold roundHalfEven.
  destruct (Qcompare (s - inject_Z (Qfloor s)) (1 # 2)); [destruct (Z.even _)| |]; lia.
Qed.

Lemma pow2_pos (e : Z) : 0 < 2 ^ e.
Proof. apply Qpower_0_lt. reflexivity. Qed.

Lemma binade_lower (q : Q) : 0 < q -> 2 ^ 52 <= q / 2 ^ binade q.
Proof.
  intros Hq. unfold binade.
  set (a := Z.log2 (Qnum q)). set (b := Z.log2 (Zpos (Qden q))).
  set (e0 := (a - b - 52)%Z).
  destruct (Qle_bool (2 ^ 52) (q / 2 ^ e0)) eqn:Ht.
  - by apply Qle_bool_iff.
  - clear Ht.
    assert (Hn : (0 < Qnum q)%Z).
    { destruct q as [n d]. unfold Qlt in Hq. simpl in *. lia. }
    destruct (Z.log2_spec (Qnum q) Hn) as [Ha _]. fold a in Ha.
    destruct (Z.log2_spec (Zpos (Qden q)) eq_refl) as [_ Hb]. fold b in Hb.
    assert (Ha0 : (0 <= a)%Z) by apply Z.log2_nonneg.
    assert (Hb0 : (0 <= b)%Z) by apply Z.log2_nonneg.
    assert (HaQ : 2 ^ a <= inject_Z (Qnum q)).
    { change 2 with (inject_Z 2). rewrite <- Zpower_Qpower by done. by rewrite <- Zle_Qle. }
    assert (HbQ : inject_Z (Zpos (Qden q)) <= 2 ^ (b + 1)).
    { change 2 with (inject_Z 2). rewrite <- Zpower_Qpower by lia.
      rewrite <- Zle_Qle. lia. }
    assert (Hdpos : 0 < inject_Z (Zpos (Qden q))) by reflexivity.
    assert (Hqeq : q == inject_Z (Qnum q) / inject_Z (Zpos (Qden q))).
    { destruct q as [n d]. simpl. apply Qmake_Qdiv. }
    apply Qle_shift_div_l; [apply pow2_pos|].
    rewrite <- Qpower_plus by discriminate.
    replace (52 + (e0 - 1))%Z with (a - (b + 1))%Z by (unfold e0; lia).
    rewrite Qpower_minus by discriminate.
    rewrite Hqeq.
    pose proof (pow2_pos a) as HA. pose proof (pow2_pos (b + 1)) as HB.
    revert HaQ HbQ Hdpos HA HB.
    generalize (2 ^ a) (2 ^ (b + 1)) (inject_Z (Qnum q)) (inject_Z (Zpos (Qden q))).
    intros A B N D HaQ HbQ Hdpos HA HB.
    apply Qle_shift_div_l; [done|].
    assert (Hr : D / B <= 1) by (apply Qle_shift_div_r; lra).
    assert (He : A / B * D == A * (D / B)) by (field; lra).
    rewrite He. revert Hr. generalize (D / B). intros r Hr. nra.
Qed.

Lemma nearestDouble_upper (q : Q) :
  0 < q -> nearestDouble q <= q * (1 + (1 # 9007199254740992)).
Proof.
  intros Hq. unfold nearestDouble.
  pose proof (binade_lower q Hq) as Hs. pose proof (pow2_pos (binade q)) as HP.
  pose proof (roundHalfEven_le (q / 2 ^ binade q)) as Hm.
  assert (Hq' : q / 2 ^ binade q * 2 ^ binade q == q) by (field; lra).
  assert (H52 : 2 ^ 52 == 4503599627370496) by reflexivity. rewrite H52 in Hs.
  revert HP Hs Hm Hq'. generalize (inject_Z (roundHalfEven (q / 2 ^ binade q))).
  generalize (q / 2 ^ binade q). generalize (2 ^ binade q).
  intros P s M HP Hs Hm Hq'.
  assert (H1 : M * P <= (s + (1 # 2)) * P) by (apply Qmult_le_compat_r; lra).
  assert (H2 : 4503599627370496 * P <= s * P) by (apply Qmult_le_compat_r; lra).
  assert (H3 : (s + (1 # 2)) * P == s * P + (1 # 2) * P) by ring.
  rewrite H3 in H1. rewrite Hq' in H1, H2. lra.
Qed.

Lemma nearestDouble_nonneg (q : Q) : 0 < q -> 0 <= nearestDouble q.
Proof.
  intros Hq. unfold nearestDouble. pose proof (pow2_pos (binade q)) as HP.
  apply Qmult_le_0_compat; [|lra].
  change 0 with (inject_Z 0). rewrite <- Zle_Qle. apply roundHalfEven_nonneg.
  apply Qle_shift_div_l; lra.
Qed.

Lemma double_comp (q q' : Q) : q == q' -> double q = double q'.
Proof. intros H. unfold double. by rewrite (Qred_complete q q' H). Qed.

Lemma double_bounds (q : Q) :
  0 <= q -> 0 <= double q /\ double q <= q * (1 + (1 # 9007199254740992)).
Proof.
  intros Hq. unfold double. pose proof (Qred_correct q) as Hr.
  destruct (Qnum (Qred q)) eqn:Hn.
  - split; [lra|]. nra.
  - assert (0 < Qred q) as Hpos.
    { destruct (Qred q) as [n d]. simpl in Hn. subst n. reflexivity. }
    split; [by apply nearestDouble_nonneg|].
    rewrite <- Hr at 2. by apply nearestDouble_upper.
  - exfalso. assert (Qred q < 0) as Hneg.
    { destruct (Qred q) as [n d]. simpl in Hn. subst n. reflexivity. }
    lra.
Qed.

Lemma percent_double_bounds (c t : nat) :
  (c <= t)%nat -> (0 < t)%nat ->
  (0 <= Math_round (double (double (inject_Z (Z.of_nat c) / inject_Z (Z.of_nat t)) * 100))
   <= 100)%Z.
Proof.
  intros Hct Ht.
  assert (Hq : 0 < inject_Z (Z.of_nat t)) by (rewrite <- (Zlt_Qlt 0); lia).
  assert (Hc0 : 0 <= inject_Z (Z.of_nat c)) by (rewrite <- (Zle_Qle 0); lia).
  assert (Hc1 : inject_Z (Z.of_nat c) <= inject_Z (Z.of_nat t)) by (rewrite <- Zle_Qle; lia).
  assert (Hr0 : 0 <= inject_Z (Z.of_nat c) / inject_Z (Z.of_nat t)).
  { apply Qle_shift_div_l; [done|]. lra. }
  assert (Hr1 : inject_Z (Z.of_nat c) / inject_Z (Z.of_nat t) <= 1).
  { apply Qle_shift_div_r; [done|]. lra. }
  revert Hr0 Hr1. generalize (inject_Z (Z.of_nat c) / inject_Z (Z.of_nat t)). intros r Hr0 Hr1.
  destruct (double_bounds r Hr0) as [Hd0 Hd1].
  assert (Hy0 : 0 <= double r * 100) by lra.
  destruct (double_bounds (double r * 100) Hy0) as [He0 He1].
  revert Hd0 Hd1 He0 He1. generalize (double (double r * 100)). generalize (double r).
  intros d1 d2 Hd0 Hd1 He0 He1.
  assert (Hd2 : d2 <= 100 + (1 # 4)) by nra.
  unfold Math_round. split.
  - change 0%Z with (Qfloor 0). apply Qfloor_resp_le. lra.
  - change 100%Z with (Qfloor (100 + (3 # 4))). apply Qfloor_resp_le. lra.
Qed.

Lemma percent_double_full (t : nat) :
  (0 < t)%nat ->
  Math_round (double (double (inject_Z (Z.of_nat t) / inject_Z (Z.of_nat t)) * 100)) = 100%Z.
Proof.
  intros Ht.
  assert (Hq : ~ inject_Z (Z.of_nat t) == 0).
  { intros E. change 0 with (inject_Z 0) in E.
    apply (proj1 (inject_Z_injective _ _)) in E. lia. }
  rewrite (double_comp (inject_Z (Z.of_nat t) / inject_Z (Z.of_nat t)) 1) by (by field).
  vm_compute. reflexivity.
Qed.

Lemma percent_double_zero (t : nat) :
  Math_round (double (double (inject_Z (Z.of_nat 0) / inject_Z (Z.of_nat t)) * 100)) = 0%Z.
Proof.
  rewrite (double_comp (inject_Z (Z.of_nat 0) / inject_Z (Z.of_nat t)) 0).
  - vm_compute. reflexivity.
  - unfold Qdiv. simpl. ring.
Qed.

(** X6.  The global progress agrees with the per-topic statistics: its
    counts are the sums of the topics' counts, completed never exceeds
    total, the two are equal exactly when every submodule of every topic is
    in the completion set, and the percent, computed in doubles and rounded
    as the code does, is an integer between 0 and 100 that is 0 without
    submodules and 100 when everything is completed. *)
Theorem overall_progress_sums_the_topics (topics : list Topic) (c : gset string) :
  let o := overallStats topics c in
  overall_completed o = list_sum (map (fun t => completed (getProgressStats c t)) topics)
  /\ overall_total o = list_sum (map (fun t => total (getProgressStats c t)) topics)
  /\ (overall_completed o <= overall_total o)%nat
  /\ (overall_completed o = overall_total o
      <-> forall t st, In t topics -> In st (subTopics t) -> sub_id st ∈ c)
  /\ (0 <= overall_percent o <= 100)%Z
  /\ (overall_total o = 0%nat -> overall_percent o = 0%Z)
  /\ (overall_completed o = overall_total o -> (0 < overall_total o)%nat ->
      overall_percent o = 100%Z).
Proof.
  intros o. destruct (overallStats_counts topics c) as [Hc Ht]. fold o in Hc, Ht.
  assert (Hle : forall t, In t topics ->
            (completed (getProgressStats c t) <= total (getProgressStats c t))%nat).
  { intros t _. destruct (getProgressStats_counts c t) as [-> ->]. apply filter_length_le. }
  destruct (list_sum_le_eq _ _ topics Hle) as [Hsum Heq].
  assert (Hcle : (overall_completed o <= overall_total o)%nat) by (rewrite Hc, Ht; exact Hsum).
  split; [done|]. split; [done|]. split; [done|]. split.
  { rewrite Hc, Ht, Heq. split.
    - intros H t st Ht' Hst. specialize (H t Ht').
      destruct (getProgressStats_counts c t) as [E1 E2]. rewrite E1, E2 in H.
      apply filter_length_all with (a := st) in H; [|done]. by apply bool_decide_eq_true in H.
    - intros H t Ht'. destruct (getProgressStats_counts c t) as [-> ->].
      apply filter_length_all. intros st Hst. apply bool_decide_eq_true. by apply (H t). }
  assert (Hpct : overall_percent o
                 = if (0 <? overall_total o)%nat
                   then Math_round
                          (double (double (inject_Z (Z.of_nat (overall_completed o))
                                           / inject_Z (Z.of_nat (overall_total o)))
                                   * 100))
                   else 0%Z).
  { unfold o, overallStats. by destruct (fold_left (countTopic c) topics (0%nat, 0%nat)). }
  split; [|split].
  - rewrite Hpct. destruct (Nat.ltb_spec 0 (overall_total o)) as [Hpos|_]; [|lia].
    by apply percent_double_bounds.
  - intros H0. rewrite Hpct, H0. reflexivity.
  - intros Heq' Hpos. rewrite Hpct, Heq'.
    destruct (Nat.ltb_spec 0 (overall_total o)) as [_|?]; [|lia].
    by apply percent_double_full.
Qed.

Lemma overall_progress_sums_the_topics_witness :
  let o := overallStats [topicSixteen; topicTwentyFour] partlyDone in
  overall_completed o = 23%nat /\ overall_total o = 40%nat
  /\ overall_percent o = 57%Z /\ (0 <= overall_percent o <= 100)%Z.
Proof.
  intros o.
  destruct (overall_progress_sums_the_topics [topicSixteen; topicTwentyFour] partlyDone)
    as (Hc & Ht & _ & _ & Hb & _).
  fold o in Hc, Ht, Hb.
  split; [rewrite Hc; vm_compute; reflexivity|].
  split; [rewrite Ht; vm_compute; reflexivity|].
  split; [vm_compute; reflexivity | exact Hb].
Defined.

(** ** Instructor legend and filter *)

Lemma existsb_key (map : list (string * Teacher)) (e : string) :
  existsb (fun kv => String.eqb (fst kv) e) map = true <-> In e (List.map fst map).
Proof.
  rewrite existsb_exists, in_map_iff. split.
  - intros (kv & Hin & Heq). apply String.eqb_eq in Heq. eauto.
  - intros (kv & Heq & Hin). exists kv. split; [done|]. by apply String.eqb_eq.
Qed.

Lemma addTeacher_fold (topics : list Topic) (acc : list (string * Teacher)) :
  List.NoDup (map fst acc) ->
  (forall kv, In kv acc -> fst kv = email (snd kv)) ->
  List.NoDup (map fst (fold_left addTeacher topics acc))
  /\ (forall kv, In kv (fold_left addTeacher topics acc) -> fst kv = email (snd kv))
  /\ (forall kv, In kv (fold_left addTeacher topics acc) ->
        In kv acc \/ exists t, In t topics /\ snd kv = teacher t)
  /\ (forall kv, In kv acc -> In kv (fold_left addTeacher topics acc))
  /\ (forall t, In t topics ->
        In (email (teacher t)) (map fst (fold_left addTeacher topics acc))).
Proof.
  revert acc. induction topics as [|t topics IH]; intros acc Hnd Hkey; simpl.
  - repeat split; auto. intros t [].
  - assert (List.NoDup (map fst (addTeacher acc t))
            /\ (forall kv, In kv (addTeacher acc t) -> fst kv = email (snd kv))
            /\ (forall kv, In kv (addTeacher acc t) -> In kv acc \/ snd kv = teacher t)
            /\ (forall kv, In kv acc -> In kv (addTeacher acc t))
            /\ In (email (teacher t)) (map fst (addTeacher acc t))) as (A1 & A2 & A3 & A4 & A5).
    { unfold addTeacher.
      destruct (existsb (fun kv => String.eqb (fst kv) (email (teacher t))) acc) eqn:Hex.
      - apply existsb_key in Hex. repeat split; auto.
      - assert (~ In (email (teacher t)) (map fst acc)) as Hnot.
        { intros Hin. apply existsb_key in Hin. congruence. }
        repeat split.
        + rewrite map_app. simpl. apply NoDup_ListNoDup. rewrite NoDup_app.
          split; [by apply NoDup_ListNoDup|]. split.
          * intros x Hx Hk. apply list_elem_of_In in Hk. destruct Hk as [Heq|[]].
            apply Hnot. rewrite Heq. by apply list_elem_of_In.
          * apply NoDup_ListNoDup. repeat constructor. simpl. tauto.
        + intros kv [Hin|[<-|[]]]%in_app_or; auto.
        + intros kv [Hin|[<-|[]]]%in_app_or; auto.
        + intros kv Hin. apply in_or_app. by left.
        + rewrite map_app. apply in_or_app. right. by left. }
    destruct (IH (addTeacher acc t) A1 A2) as (B1 & B2 & B3 & B4 & B5).
    repeat split; auto.
    + intros kv Hin. destruct (B3 kv Hin) as [Hacc|(t' & Ht' & Heq)].
      * destruct (A3 kv Hacc) as [?|Heq]; [by left|]. right. exists t. split; [by left|done].
      * right. exists t'. split; [by right|done].
    + intros t' [<-|Ht']; [|by apply B5].
      apply in_map_iff in A5 as (kv & Hk & Hin). apply in_map_iff. exists kv. auto.
Qed.

(** X7.  The instructor legend lists every email once (so the emails can
    serve as list keys), every entry is the teacher of some topic, and the
    teacher of every topic is represented by an entry with its email. *)
Theorem legend_lists_each_instructor_once (topics : list Topic) :
  List.NoDup (map email (uniqueTeachers topics))
  /\ (forall u, In u (uniqueTeachers topics) -> exists t, In t topics /\ u = teacher t)
  /\ (forall t, In t topics ->
        exists u, In u (uniqueTeachers topics) /\ email u = email (teacher t)).
Proof.
  destruct (addTeacher_fold topics []) as (H1 & H2 & H3 & _ & H5);
    [constructor | intros kv [] |].
  unfold uniqueTeachers.
  assert (map email (map snd (fold_left addTeacher topics []))
          = map fst (fold_left addTeacher topics [])) as Hmap.
  { rewrite map_map. apply map_ext_in. intros kv Hin. symmetry. by apply H2. }
  split; [by rewrite Hmap|]. split.
  - intros u (kv & <- & Hin)%in_map_iff. destruct (H3 kv Hin) as [[]|(t & Ht & Heq)]. eauto.
  - intros t Ht. specialize (H5 t Ht). apply in_map_iff in H5 as (kv & Hk & Hin).
    exists (snd kv). split; [by apply in_map|]. rewrite <- Hk. symmetry. by apply H2.
Qed.

Lemma legend_lists_each_instructor_once_witness :
  exists u, In u (uniqueTeachers [topicA; topicB]) /\ email u = email (teacher topicB).
Proof.
  refine (proj2 (proj2 (legend_lists_each_instructor_once [topicA; topicB])) topicB _).
  right. by left.
Defined.

(** X8.  Toggling an instructor twice restores the filter; a toggle flips
    the hidden state of the nodes of that instructor and of no other node,
    so opacity and click handling of the other nodes, and the opacity of
    the links between them, stay as they were. *)
Theorem toggle_flips_one_instructor (e : string) (hidden : gset string) :
  toggleTeacher e (toggleTeacher e hidden) = hidden
  /\ (forall d, email (teacher (topic d)) = e ->
        isHidden (toggleTeacher e hidden) d = negb (isHidden hidden d))
  /\ (forall d, email (teacher (topic d)) <> e ->
        isHidden (toggleTeacher e hidden) d = isHidden hidden d
        /\ nodeOpacity (toggleTeacher e hidden) d = nodeOpacity hidden d
        /\ nodeClick (toggleTeacher e hidden) d = nodeClick hidden d)
  /\ (forall l, email (teacher (topic (source l))) <> e ->
        email (teacher (topic (target l))) <> e ->
        linkOpacity (toggleTeacher e hidden) l = linkOpacity hidden l).
Proof.
  assert (Hother : forall d, email (teacher (topic d)) <> e ->
            isHidden (toggleTeacher e hidden) d = isHidden hidden d).
  { intros d Hne. unfold isHidden, toggleTeacher.
    apply bool_decide_ext. destruct (bool_decide (e ∈ hidden)).
    - rewrite elem_of_difference, elem_of_singleton. tauto.
    - rewrite elem_of_union, elem_of_singleton. tauto. }
  split; [|split; [|split]].
  - unfold toggleTeacher. apply set_eq. intros x.
    destruct (decide (e ∈ hidden)) as [Hin|Hout].
    + rewrite (bool_decide_eq_true_2 (e ∈ hidden)) by done.
      rewrite bool_decide_eq_false_2
        by (rewrite elem_of_difference, elem_of_singleton; tauto).
      rewrite elem_of_union, elem_of_difference, elem_of_singleton.
      destruct (decide (x = e)) as [->|Hne]; tauto.
    + rewrite (bool_decide_eq_false_2 (e ∈ hidden)) by done.
      rewrite bool_decide_eq_true_2
        by (rewrite elem_of_union, elem_of_singleton; tauto).
      rewrite elem_of_difference, elem_of_union, elem_of_singleton.
      destruct (decide (x = e)) as [->|Hne]; tauto.
  - intros d <-. unfold isHidden, toggleTeacher.
    destruct (decide (email (teacher (topic d)) ∈ hidden)) as [Hin|Hout].
    + rewrite !(bool_decide_eq_true_2 (email (teacher (topic d)) ∈ hidden)) by done.
      rewrite bool_decide_eq_false_2
        by (rewrite elem_of_difference, elem_of_singleton; tauto). done.
    + rewrite !(bool_decide_eq_false_2 (email (teacher (topic d)) ∈ hidden)) by done.
      rewrite bool_decide_eq_true_2
        by (rewrite elem_of_union, elem_of_singleton; tauto). done.
  - intros d Hne. split; [by apply Hother|].
    unfold nodeOpacity, nodeClick. by rewrite (Hother d Hne).
  - intros l Hs Ht. unfold linkOpacity. by rewrite (Hother _ Hs), (Hother _ Ht).
Qed.

Lemma toggle_flips_one_instructor_witness :
  isHidden (toggleTeacher "t@example.org" ∅) (mkNode ∅ ∅ topicA) = negb (isHidden ∅ (mkNode ∅ ∅ topicA)).
Proof.
  refine (proj1 (proj2 (toggle_flips_one_instructor "t@example.org" ∅)) (mkNode ∅ ∅ topicA) _).
  reflexivity.
Defined.

(** ** The cursor read-out *)

(** X9.  The read-out inverts the zoom transform: for a transform with
    non-zero scale the pointer over the image of a world point reads that
    point, and the image of the read-out is the pointer position relative
    to the container.  The initial fit of a non-empty graph has such a
    scale: over the fitted top-left corner of a node the read-out shows the
    node's coordinates. *)
Theorem cursor_reads_world_coordinates (t : ZoomTransform) (rectLeft rectTop : Q) :
  (~ t_k t == 0 ->
     (forall wx wy,
        coords_x (handleMouseMove rectLeft rectTop
                    (rectLeft + applyX t wx) (rectTop + applyY t wy) t) == wx
        /\ coords_y (handleMouseMove rectLeft rectTop
                       (rectLeft + applyX t wx) (rectTop + applyY t wy) t) == wy)
     /\ (forall ex ey,
           applyX t (coords_x (handleMouseMove rectLeft rectTop ex ey t)) == ex - rectLeft
           /\ applyY t (coords_y (handleMouseMove rectLeft rectTop ex ey t)) == ey - rectTop))
  /\ (forall nodes width height n, nodes <> [] ->
        let fit := initialTransform nodes width height in
        coords_x (handleMouseMove rectLeft rectTop
                    (rectLeft + applyX fit (node_x n)) (rectTop + applyY fit (node_y n)) fit)
        == node_x n
        /\ coords_y (handleMouseMove rectLeft rectTop
                       (rectLeft + applyX fit (node_x n)) (rectTop + applyY fit (node_y n)) fit)
           == node_y n).
Proof.
  assert (Hinv : forall t : ZoomTransform, ~ t_k t == 0 -> forall wx wy,
            coords_x (handleMouseMove rectLeft rectTop
                        (rectLeft + applyX t wx) (rectTop + applyY t wy) t) == wx
            /\ coords_y (handleMouseMove rectLeft rectTop
                           (rectLeft + applyX t wx) (rectTop + applyY t wy) t) == wy).
  { intros t0 Hk wx wy. unfold handleMouseMove, applyX, applyY. simpl. split; by field. }
  split.
  - intros Hk. split; [by apply Hinv|].
    intros ex ey. unfold handleMouseMove, applyX, applyY. simpl. split; by field.
  - intros nodes width height n Hne fit. apply Hinv.
    unfold fit. rewrite initialTransform_k. unfold fitScale.
    destruct (clampScale_spec (rawScale (graphBounds nodes) width height)) as (Hlo & _).
    intros E. rewrite E in Hlo. by apply Hlo.
Qed.

Lemma cursor_reads_world_coordinates_witness :
  coords_x (handleMouseMove 10 20 (10 + applyX {| t_k := 2; t_x := 30; t_y := -15 |} 7)
              (20 + applyY {| t_k := 2; t_x := 30; t_y := -15 |} 9)
              {| t_k := 2; t_x := 30; t_y := -15 |}) == 7.
Proof.
  refine (proj1 (proj1 (proj1 (cursor_reads_world_coordinates
                                 {| t_k := 2; t_x := 30; t_y := -15 |} 10 20) _) 7 9)).
  simpl. discriminate.
Defined.

(** ** Permissions and prerequisites *)

Lemma locked_fold (allowed : gset string) (topics : list Topic) (acc : gset string) (i : string) :
  i ∈ fold_left
        (fun locked t => if bool_decide (id t ∈ allowed) then locked else locked ∪ {[id t]})
        topics acc
  <-> i ∈ acc \/ (In i (map id topics) /\ i ∉ allowed).
Proof.
  revert acc. induction topics as [|t topics IH]; intros acc; simpl.
  - tauto.
  - rewrite IH. case_bool_decide as Hin.
    + split; [tauto|]. intros [Hacc|[[Heq|Hrest] Hnot]]; [tauto| |tauto].
      subst i. done.
    + rewrite elem_of_union, elem_of_singleton. split.
      * intros [[Hacc|Heq]|[Hrest Hnot]]; [tauto| |tauto]. subst i. tauto.
      * intros [Hacc|[[Heq|Hrest] Hnot]]; [tauto| |tauto]. subst i. tauto.
Qed.

Lemma lockedTopicIds_spec (u : User) (topics : list Topic) (i : string) :
  roleIsAdmin (role u) = false ->
  i ∈ lockedTopicIds (Some u) topics
  <-> In i (map id topics) /\ ~ In i (default [] (allowedTopics u)).
Proof.
  intros Hrole. unfold lockedTopicIds. rewrite Hrole, locked_fold.
  rewrite elem_of_list_to_set, list_elem_of_In. split.
  - intros [H|H]; [by apply not_elem_of_empty in H | done].
  - by right.
Qed.

(** X10.  An administrator opens every topic, whatever the completion
    state.  For any other signed-in user the locked ids are exactly the ids
    of listed topics that are not in [allowedTopics], and selecting such a
    topic ends in the locked-account alert; a user without [allowedTopics]
    is locked out of every listed topic. *)
Theorem permissions_gate_topic_selection (u : User) (topics : list Topic) (c : gset string)
    (topic : Topic) :
  (roleIsAdmin (role u) = true -> handleTopicSelect (Some u) topics c topic = TopicOpened)
  /\ (roleIsAdmin (role u) = false ->
        (forall i, i ∈ lockedTopicIds (Some u) topics
                   <-> In i (map id topics) /\ ~ In i (default [] (allowedTopics u)))
        /\ (In topic topics -> ~ In (id topic) (default [] (allowedTopics u)) ->
            handleTopicSelect (Some u) topics c topic = AccountLocked)
        /\ (In topic topics -> allowedTopics u = None ->
            handleTopicSelect (Some u) topics c topic = AccountLocked)
        /\ (In (id topic) (default [] (allowedTopics u)) ->
            handleTopicSelect (Some u) topics c topic <> AccountLocked)).
Proof.
  split.
  - intros Hadmin. unfold handleTopicSelect, lockedTopicIds. rewrite Hadmin.
    rewrite bool_decide_eq_false_2 by apply not_elem_of_empty.
    simpl. by rewrite andb_false_r.
  - intros Hrole.
    assert (Hlock : In topic topics -> ~ In (id topic) (default [] (allowedTopics u)) ->
              handleTopicSelect (Some u) topics c topic = AccountLocked).
    { intros Ht Hnot. unfold handleTopicSelect. rewrite bool_decide_eq_true_2; [done|].
      apply lockedTopicIds_spec; [done|]. split; [by apply in_map | done]. }
    split; [intros i; by apply lockedTopicIds_spec|]. split; [exact Hlock|]. split.
    + intros Ht Hnone. apply Hlock; [done|]. rewrite Hnone. simpl. tauto.
    + intros Hallowed. unfold handleTopicSelect. rewrite bool_decide_eq_false_2.
      * by destruct (_ && _).
      * rewrite lockedTopicIds_spec by done. tauto.
Qed.

Lemma permissions_gate_topic_selection_witness :
  handleTopicSelect (Some sampleAdmin) [topicA; topicB] ∅ topicB = TopicOpened
  /\ handleTopicSelect (Some sampleStudent) [topicA; topicB] ∅ topicB = AccountLocked.
Proof.
  split.
  - refine (proj1 (permissions_gate_topic_selection sampleAdmin [topicA; topicB] ∅ topicB) _).
    reflexivity.
  - refine (proj1 (proj2 (proj2 (permissions_gate_topic_selection
                                   sampleStudent [topicA; topicB] ∅ topicB) _)) _ _).
    + reflexivity.
    + right; by left.
    + simpl. intuition discriminate.
Defined.

Lemma hasIncompleteSubTopic_spec (c : gset string) (p : Topic) :
  hasIncompleteSubTopic c p = false <-> forall st, In st (subTopics p) -> sub_id st ∈ c.
Proof.
  unfold hasIncompleteSubTopic. split.
  - intros H st Hst. destruct (decide (sub_id st ∈ c)) as [|Hn]; [done|].
    assert (existsb (fun st => negb (bool_decide (sub_id st ∈ c))) (subTopics p) = true).
    { apply existsb_exists. exists st. split; [done|].
      by rewrite bool_decide_eq_false_2. }
    congruence.
  - intros H. apply not_true_is_false. intros (st & Hst & Hneg)%existsb_exists.
    rewrite bool_decide_eq_true_2 in Hneg by (by apply H). discriminate.
Qed.

Lemma incomplete_not_isComplete (c : gset string) (p : Topic) :
  hasIncompleteSubTopic c p = true -> isComplete c p = false.
Proof.
  intros H. apply not_true_is_false. intros Hc.
  apply isComplete_all_completed in Hc as [_ Hall].
  apply hasIncompleteSubTopic_spec in Hall. congruence.
Qed.

(** X11.  The prerequisite check of the application reads the same parents as
    the layout.  For a user who is not an administrator and a topic that is
    not locked: the topic opens exactly when every parent has all its
    submodules completed; otherwise the alert lists parents only, each with
    an incomplete submodule, and (ids distinct, topic listed) each of them
    is the source of a routed edge into the topic that is inactive. *)
Theorem prerequisite_alert_matches_inactive_edges (currentUser : option User)
    (topics : list Topic) (c : gset string) (m : gmap string Position) (topic : Topic) :
  match currentUser with Some u => roleIsAdmin (role u) | None => false end = false ->
  id topic ∉ lockedTopicIds currentUser topics ->
  (handleTopicSelect currentUser topics c topic = TopicOpened
   <-> forall p st, In p (parentsOf topics (level topic) topic) ->
         In st (subTopics p) -> sub_id st ∈ c)
  /\ (forall missing,
        handleTopicSelect currentUser topics c topic = PrerequisitesMissing missing ->
        missing <> []
        /\ forall p, In p missing ->
             In p (parentsOf topics (level topic) topic)
             /\ hasIncompleteSubTopic c p = true
             /\ (NoDup (map id topics) -> In topic topics ->
                 exists l, In l (routeEdges (mkNodes c m topics))
                   /\ ends l = (mkNode c m p, mkNode c m topic, false))).
Proof.
  intros Hadmin Hlock. unfold handleTopicSelect.
  rewrite bool_decide_eq_false_2 by done. rewrite Hadmin. simpl negb. rewrite andb_true_r.
  fold (parentsOf topics (level topic) topic).
  set (missing := List.filter (hasIncompleteSubTopic c) (parentsOf topics (level topic) topic)).
  split.
  - destruct (Nat.ltb_spec 0 (length missing)) as [Hpos|Hzero].
    + split; [done|]. intros Hall. exfalso.
      destruct missing as [|p rest] eqn:Hm; [simpl in Hpos; lia|].
      assert (In p missing) as Hin by (rewrite Hm; by left).
      unfold missing in Hin. apply filter_In in Hin as [Hp Hinc].
      assert (hasIncompleteSubTopic c p = false) as Hf.
      { apply hasIncompleteSubTopic_spec. intros st Hst. by apply (Hall p). }
      congruence.
    + split; [|done]. intros _ p st Hp Hst.
      destruct (hasIncompleteSubTopic c p) eqn:Hinc.
      * assert (In p missing) as Hin by (apply filter_In; done).
        destruct missing; [done | simpl in Hzero; lia].
      * by apply (proj1 (hasIncompleteSubTopic_spec c p) Hinc).
  - intros missing' Hsel.
    destruct (Nat.ltb_spec 0 (length missing)) as [Hpos|Hzero]; [|done].
    injection Hsel as <-. split.
    { intros Hnil. rewrite Hnil in Hpos. simpl in Hpos. lia. }
    intros p Hp. unfold missing in Hp. apply filter_In in Hp as [Hp Hinc].
    split; [done|]. split; [done|]. intros Hnd Htopic.
    unfold parentsOf in Hp. apply filter_In in Hp as [Hpin Hcond].
    apply andb_true_iff in Hcond as [Hincl Hlt]. apply Z.ltb_lt in Hlt.
    apply routeEdges_ends.
    exists (newLink (mkNode c m p) (mkNode c m topic)). split.
    + apply in_allLinks. exists (mkNode c m p), (id topic), (mkNode c m topic).
      split; [by apply in_map|]. split.
      { unfold includes in Hincl. apply existsb_exists in Hincl as (x & Hx & Heq).
        apply String.eqb_eq in Heq. by subst x. }
      split; [|done]. rewrite findNode_mkNodes. by rewrite find_by_id.
    + unfold ends. simpl. rewrite complete_is_isComplete.
      by rewrite (incomplete_not_isComplete c p Hinc).
Qed.

Lemma prerequisite_alert_matches_inactive_edges_witness :
  handleTopicSelect (Some sampleLearner) [topicA; topicB] {["A-1"]} topicB
  = PrerequisitesMissing [topicA]
  /\ exists l, In l (routeEdges (mkNodes {["A-1"]} ∅ [topicA; topicB]))
       /\ ends l = (mkNode {["A-1"]} ∅ topicA, mkNode {["A-1"]} ∅ topicB, false).
Proof.
  assert (Hsel : handleTopicSelect (Some sampleLearner) [topicA; topicB] {["A-1"]} topicB
                 = PrerequisitesMissing [topicA]) by (vm_compute; reflexivity).
  split; [exact Hsel|].
  assert (Hadmin : match Some sampleLearner with
                   | Some u => roleIsAdmin (role u)
                   | None => false
                   end = false) by reflexivity.
  assert (Hlock : id topicB ∉ lockedTopicIds (Some sampleLearner) [topicA; topicB]).
  { vm_compute. intros H. discriminate H. }
  destruct (proj2 (prerequisite_alert_matches_inactive_edges
                     (Some sampleLearner) [topicA; topicB] {["A-1"]} ∅ topicB Hadmin Hlock)
              [topicA] Hsel) as [_ Hall].
  destruct (Hall topicA (or_introl eq_refl)) as (_ & _ & Hedge).
  apply Hedge.
  - apply NoDup_ListNoDup. simpl.
    repeat (constructor; [simpl; intuition discriminate|]). constructor.
  - right. left. reflexivity.
Defined.

(** ** Progress updates *)

Lemma percent_mono (c c' : gset string) (t : Topic) :
  c ⊆ c' -> num_le (percent (getProgressStats c t)) (percent (getProgressStats c' t)).
Proof.
  intros Hsub. unfold getProgressStats. destruct (subTopics t) as [|s l] eqn:Hs.
  - simpl. apply Qle_refl.
  - cbn [length percent js_div_len js_mul num_le].
    apply percent_scale_mono. apply filter_length_mono.
    intros a Ha. apply bool_decide_eq_true in Ha. apply bool_decide_eq_true. by apply Hsub.
Qed.

Lemma isComplete_mono (c c' : gset string) (t : Topic) :
  c ⊆ c' -> isComplete c t = true -> isComplete c' t = true.
Proof.
  intros Hsub Hc. apply isComplete_all_completed in Hc as [Hne Hall].
  apply isComplete_all_completed. split; [done|]. intros st Hst. by apply Hsub, Hall.
Qed.

(** X12.  Submitting an exercise never removes a completed submodule: no
    topic's percent goes down and no complete topic (hence no active edge)
    becomes incomplete.  A submission without quiz, or with a passed quiz,
    marks the submodule completed and submitted; a failed quiz leaves both
    sets as they were; every quiz attempt is appended to the submodule's
    attempts. *)
Theorem submission_never_lowers_progress (subTopicId : string) (quizData : option QuizAttempt)
    (p : Progress) (t : Topic) :
  let p' := handleExerciseSubmission subTopicId quizData p in
  completedSubTopics p ⊆ completedSubTopics p'
  /\ num_le (percent (getProgressStats (completedSubTopics p) t))
            (percent (getProgressStats (completedSubTopics p') t))
  /\ (isComplete (completedSubTopics p) t = true -> isComplete (completedSubTopics p') t = true)
  /\ (match quizData with Some a => passed a | None => true end = true ->
        subTopicId ∈ completedSubTopics p' /\ subTopicId ∈ submittedExercises p')
  /\ (match quizData with Some a => passed a | None => true end = false ->
        completedSubTopics p' = completedSubTopics p
        /\ submittedExercises p' = submittedExercises p)
  /\ (forall a, quizData = Some a ->
        quizProgress p' !! subTopicId
        = Some (default [] (quizProgress p !! subTopicId) ++ [a]))
  /\ (quizData = None -> quizProgress p' = quizProgress p).
Proof.
  intros p'.
  assert (Hsub : completedSubTopics p ⊆ completedSubTopics p').
  { unfold p', handleExerciseSubmission. destruct quizData as [a|]; [destruct (passed a)|];
      simpl; [apply union_subseteq_l | done | apply union_subseteq_l]. }
  split; [done|]. split; [by apply percent_mono|]. split; [by apply isComplete_mono|].
  unfold p', handleExerciseSubmission.
  destruct quizData as [a|]; [destruct (passed a) eqn:Hp|]; simpl; rewrite ?Hp.
  - repeat split; try done.
    + apply elem_of_union_r. by apply elem_of_singleton.
    + apply elem_of_union_r. by apply elem_of_singleton.
    + intros a' [= <-]. by rewrite lookup_insert_eq.
  - repeat split; try done. intros a' [= <-]. by rewrite lookup_insert_eq.
  - repeat split; try done.
    + apply elem_of_union_r. by apply elem_of_singleton.
    + apply elem_of_union_r. by apply elem_of_singleton.
Qed.

Lemma submission_never_lowers_progress_witness :
  let p := {| completedSubTopics := {["A-1"]}; submittedExercises := ∅; quizProgress := ∅ |} in
  "A-2" ∈ completedSubTopics (handleExerciseSubmission "A-2" (Some {| answers := ∅; passed := true |}) p).
Proof.
  intros p.
  refine (proj1 (proj1 (proj2 (proj2 (proj2
            (submission_never_lowers_progress "A-2" (Some {| answers := ∅; passed := true |}) p topicA))))
            _)).
  reflexivity.
Defined.

Lemma filter_ext_in_length {A} (f g : A -> bool) (l : list A) :
  (forall a, In a l -> f a = g a) -> List.filter f l = List.filter g l.
Proof.
  induction l as [|a l IH]; intros H; simpl; [done|].
  rewrite (H a (or_introl eq_refl)), IH; [done|]. intros b Hb. apply H. by right.
Qed.

(** X13.  Toggling the completion of a submodule twice restores the
    progress; a toggle changes the membership of that one id only, and it
    leaves the statistics of every topic that has no submodule with this id
    as they were. *)
Theorem completion_toggle_is_local (subTopicId : string) (p : Progress) :
  toggleSubTopicCompletion subTopicId (toggleSubTopicCompletion subTopicId p) = p
  /\ (subTopicId ∈ completedSubTopics (toggleSubTopicCompletion subTopicId p)
      <-> subTopicId ∉ completedSubTopics p)
  /\ (forall i, i <> subTopicId ->
        (i ∈ completedSubTopics (toggleSubTopicCompletion subTopicId p)
         <-> i ∈ completedSubTopics p))
  /\ (forall t, ~ In subTopicId (map sub_id (subTopics t)) ->
        getProgressStats (completedSubTopics (toggleSubTopicCompletion subTopicId p)) t
        = getProgressStats (completedSubTopics p) t).
Proof.
  assert (Hmem : forall i,
            i ∈ completedSubTopics (toggleSubTopicCompletion subTopicId p)
            <-> (i = subTopicId /\ subTopicId ∉ completedSubTopics p)
                \/ (i <> subTopicId /\ i ∈ completedSubTopics p)).
  { intros i. unfold toggleSubTopicCompletion. simpl.
    destruct (decide (subTopicId ∈ completedSubTopics p)) as [Hin|Hout].
    - rewrite bool_decide_eq_true_2 by done.
      rewrite elem_of_difference, elem_of_singleton. tauto.
    - rewrite bool_decide_eq_false_2 by done.
      rewrite elem_of_union, elem_of_singleton.
      destruct (decide (i = subTopicId)) as [->|Hne]; tauto. }
  split; [|split; [|split]].
  - destruct p as [c s q]. unfold toggleSubTopicCompletion at 1. cbn [submittedExercises quizProgress].
    f_equal. apply set_eq. intros i.
    pose proof (Hmem i) as Hi. cbn [completedSubTopics] in Hi.
    pose proof (Hmem subTopicId) as Hs. cbn [completedSubTopics] in Hs.
    set (c1 := completedSubTopics (toggleSubTopicCompletion subTopicId
                 {| completedSubTopics := c; submittedExercises := s; quizProgress := q |}))
      in *.
    destruct (decide (subTopicId ∈ c1)) as [Hin|Hout].
    + rewrite bool_decide_eq_true_2 by done.
      rewrite elem_of_difference, elem_of_singleton.
      destruct (decide (i = subTopicId)) as [->|Hne]; tauto.
    + rewrite bool_decide_eq_false_2 by done.
      rewrite elem_of_union, elem_of_singleton.
      destruct (decide (i = subTopicId)) as [->|Hne]; [|tauto].
      destruct (decide (subTopicId ∈ c)); tauto.
  - rewrite Hmem. tauto.
  - intros i Hne. rewrite Hmem. tauto.
  - intros t Hnot. unfold getProgressStats.
    rewrite (filter_ext_in_length
               (fun st => bool_decide
                  (sub_id st ∈ completedSubTopics (toggleSubTopicCompletion subTopicId p)))
               (fun st => bool_decide (sub_id st ∈ completedSubTopics p))); [done|].
    intros st Hst. apply bool_decide_ext. rewrite Hmem.
    assert (sub_id st <> subTopicId).
    { intros Heq. apply Hnot. rewrite <- Heq. by apply in_map. }
    tauto.
Qed.

Lemma completion_toggle_is_local_witness :
  let p := {| completedSubTopics := {["A-1"]}; submittedExercises := ∅; quizProgress := ∅ |} in
  getProgressStats (completedSubTopics (toggleSubTopicCompletion "B-1" p)) topicA
  = getProgressStats (completedSubTopics p) topicA.
Proof.
  intros p.
  refine (proj2 (proj2 (proj2 (completion_toggle_is_local "B-1" p))) topicA _).
  simpl. intuition discriminate.
Defined.

(** ** The list view *)

(** X14.  The list view and the graph count alike, and they agree on
    completeness for every topic that has a submodule; for a topic without
    submodules the list view reports "fully complete" with a progress that
    is [NaN] (it divides 0 by 0), where the graph reports "not complete"
    with percent 0.  For a topic with submodules the progress shown is an
    integer between 0 and 100, and 100 for a complete topic. *)
Theorem list_view_and_graph_completeness (c : gset string) (t : Topic) :
  completedCount (moduleRow c t) = completed (getProgressStats c t)
  /\ totalCount (moduleRow c t) = total (getProgressStats c t)
  /\ (subTopics t <> [] -> isFullyComplete (moduleRow c t) = isComplete c t)
  /\ (subTopics t = [] ->
        isFullyComplete (moduleRow c t) = true /\ isComplete c t = false
        /\ percent (getProgressStats c t) = Num 0)
  /\ (progress (moduleRow c t) = NaN <-> subTopics t = [])
  /\ (subTopics t <> [] ->
        exists p, progress (moduleRow c t) = Num (inject_Z p)
          /\ (0 <= p <= 100)%Z
          /\ (isComplete c t = true -> p = 100%Z)).
Proof.
  destruct (getProgressStats_counts c t) as [Hc Ht].
  split; [by rewrite Hc|]. split; [by rewrite Ht|]. split; [|split; [|split]].
  - intros Hne. unfold moduleRow. cbn [isFullyComplete].
    apply eq_true_iff_eq. rewrite Nat.eqb_eq, filter_length_all, isComplete_all_completed.
    split.
    + intros H. split; [done|]. intros st Hst. specialize (H st Hst).
      by apply bool_decide_eq_true in H.
    + intros [_ H] st Hst. apply bool_decide_eq_true. by apply H.
  - intros Hnil. unfold moduleRow, isComplete, getProgressStats. rewrite Hnil. done.
  - unfold moduleRow. cbn [progress]. destruct (subTopics t) as [|s l]; simpl.
    + done.
    + split; [discriminate|discriminate].
  - intros Hne. unfold moduleRow. cbn [progress].
    set (k := length (List.filter (fun st => bool_decide (sub_id st ∈ c)) (subTopics t))).
    assert (Hk : (k <= length (subTopics t))%nat) by apply filter_length_le.
    assert (Hfull : isComplete c t = true -> k = length (subTopics t)).
    { intros Hcomp. apply isComplete_all_completed in Hcomp as [_ Hall].
      apply filter_length_all. intros st Hst. apply bool_decide_eq_true. by apply Hall. }
    destruct (subTopics t) as [|s l]; [done|].
    cbn [length double_div_len js_div_len double_mul js_mul js_round] in *.
    eexists. split; [reflexivity|]. split.
    + apply percent_double_bounds; [done|lia].
    + intros Hcomp. rewrite (Hfull Hcomp). apply percent_double_full. lia.
Qed.

Lemma list_view_and_graph_completeness_witness :
  exists p, progress (moduleRow partlyDone topicForty) = Num (inject_Z p)
            /\ (0 <= p <= 100)%Z /\ p = 57%Z.
Proof.
  destruct (proj2 (proj2 (proj2 (proj2 (proj2
              (list_view_and_graph_completeness partlyDone topicForty))))))
    as (p & Hp & Hb & _).
  - vm_compute. discriminate.
  - exists p. split; [exact Hp|]. split; [exact Hb|].
    assert (Hv : progress (moduleRow partlyDone topicForty) = Num 57)
      by (vm_compute; reflexivity).
    rewrite Hv in Hp. injection Hp as Hp. symmetry. exact Hp.
Defined.

(** ** Fresh identifiers in the curriculum builder *)

Lemma includes_In (arr : list string) (s : string) : includes arr s = true <-> In s arr.
Proof.
  unfold includes. rewrite existsb_exists. split.
  - intros (x & Hx & Heq). apply String.eqb_eq in Heq. by subst.
  - intros H. exists s. split; [done|]. apply String.eqb_refl.
Qed.

Lemma string_length_append (s1 s2 : string) :
  String.length (s1 +:+ s2) = (String.length s1 + String.length s2)%nat.
Proof. induction s1 as [|a s1 IH]; simpl; [done|]. by rewrite IH. Qed.

Lemma candidateId_inj (base : string) : Inj (=) (=) (candidateId base).
Proof.
  intros n m H. unfold candidateId in H.
  apply (inj (String.app base)) in H. apply (inj (String.app "-")) in H.
  by apply (inj pretty) in H.
Qed.

Lemma candidateId_not_base (base : string) (n : nat) : candidateId base n <> base.
Proof.
  intros H. apply (f_equal String.length) in H. unfold candidateId in H.
  rewrite !string_length_append in H. simpl in H. lia.
Qed.

(** If the base and the candidates [1 .. c-1] are all taken, there are at
    least [c] existing ids. *)
Lemma taken_candidates_bound (base : string) (existingIds : list string) (c : nat) :
  In base existingIds ->
  (forall m, (1 <= m < c)%nat -> In (candidateId base m) existingIds) ->
  (c <= length existingIds)%nat.
Proof.
  intros Hbase Hall.
  set (taken := base :: map (candidateId base) (seq 1 (c - 1))).
  assert (Hnd : NoDup taken).
  { unfold taken. apply NoDup_cons. split.
    - intros Hin. apply list_elem_of_In, in_map_iff in Hin as (m & Hm & _).
      by apply candidateId_not_base in Hm.
    - apply (@NoDup_fmap_2 _ _ (candidateId base) (candidateId_inj base)).
      apply NoDup_ListNoDup, seq_NoDup. }
  assert (Hsub : taken ⊆+ existingIds).
  { apply NoDup_submseteq; [done|]. intros x Hx. apply list_elem_of_In.
    apply list_elem_of_In in Hx. destruct Hx as [<-|Hx]; [done|].
    apply in_map_iff in Hx as (m & <- & Hm). apply in_seq in Hm. apply Hall. lia. }
  apply submseteq_length in Hsub. unfold taken in Hsub. simpl in Hsub.
  rewrite length_map, length_seq in Hsub. lia.
Qed.

Lemma uniqueIdLoop_spec (base : string) (existingIds : list string) (fuel c : nat) :
  In base existingIds ->
  (1 <= c)%nat ->
  (forall m, (1 <= m < c)%nat -> In (candidateId base m) existingIds) ->
  (length existingIds < c + fuel)%nat ->
  exists n, uniqueIdLoop fuel base existingIds c = Some n
            /\ (c <= n)%nat
            /\ ~ In (candidateId base n) existingIds
            /\ (forall m, (1 <= m < n)%nat -> In (candidateId base m) existingIds).
Proof.
  intros Hbase. revert c. induction fuel as [|fuel IH]; intros c Hc Hall Hlen.
  - pose proof (taken_candidates_bound base existingIds c Hbase Hall). lia.
  - simpl. destruct (includes existingIds (candidateId base c)) eqn:Hinc.
    + apply includes_In in Hinc.
      destruct (IH (S c)) as (n & Hn & Hle & Hfresh & Hbelow); [lia| |lia|].
      * intros m Hm. destruct (decide (m = c)) as [->|Hne]; [done|]. apply Hall. lia.
      * exists n. split; [done|]. split; [lia|]. split; done.
    + exists c. split; [done|]. split; [lia|]. split; [|done].
      intros Hin. apply includes_In in Hin. congruence.
Qed.

Lemma getUniqueId_spec (fuel : nat) (base : string) (existingIds : list string) :
  (length existingIds <= fuel)%nat ->
  exists r, getUniqueId fuel base existingIds = Some r
    /\ ~ In r existingIds
    /\ (~ In base existingIds -> r = base)
    /\ (In base existingIds ->
          exists n, (1 <= n <= length existingIds)%nat
                    /\ r = candidateId base n
                    /\ forall m, (1 <= m < n)%nat -> In (candidateId base m) existingIds).
Proof.
  intros Hfuel.
  unfold getUniqueId. destruct (includes existingIds base) eqn:Hinc; simpl.
  - apply includes_In in Hinc.
    destruct (uniqueIdLoop_spec base existingIds fuel 1 Hinc) as (n & -> & Hle & Hfresh & Hbelow);
      [lia|intros m Hm; lia|lia|].
    simpl. exists (candidateId base n). split; [done|]. split; [done|]. split; [tauto|].
    intros _. exists n. split; [|split; done]. split; [done|].
    apply (taken_candidates_bound base existingIds n Hinc Hbelow).
  - assert (Hnot : ~ In base existingIds).
    { intros Hin. apply includes_In in Hin. congruence. }
    exists base. split; [done|]. split; [done|]. split; [done|tauto].
Qed.

(** X15.  [getUniqueId] terminates after at most as many tests as there are
    existing ids, and its result is not among them: it is the base itself
    when that is free, and otherwise the base with the least positive
    counter whose candidate is free, which is at most the number of existing
    ids.  Hence adding a topic keeps the topic ids distinct, and the new
    topic, at level 1 and without relations, is the last of the list. *)
Theorem unique_id_is_fresh (fuel : nat) (base : string) (existingIds : list string) :
  (length existingIds <= fuel)%nat ->
  exists r, getUniqueId fuel base existingIds = Some r
    /\ ~ In r existingIds
    /\ (~ In base existingIds -> r = base)
    /\ (In base existingIds ->
          exists n, (1 <= n <= length existingIds)%nat
                    /\ r = candidateId base n
                    /\ forall m, (1 <= m < n)%nat -> In (candidateId base m) existingIds)
    /\ (forall firstTeacher topics,
          existingIds = map id topics -> base = newTopicSlug ->
          exists added,
            handleAddTopic fuel firstTeacher topics = Some (topics ++ [added])
            /\ id added = r /\ level added = 1%Z
            /\ relatedTopics added = [] /\ subTopics added = []
            /\ (List.NoDup (map id topics) ->
                List.NoDup (map id (topics ++ [added])))).
Proof.
  intros Hfuel.
  destruct (getUniqueId_spec fuel base existingIds Hfuel)
    as (r & Hr & Hfresh & Hfree & Htaken).
  exists r. split; [done|]. split; [done|]. split; [done|]. split; [done|].
  intros firstTeacher topics -> ->. unfold handleAddTopic. rewrite Hr.
  eexists. split; [reflexivity|]. simpl.
  split; [done|]. split; [done|]. split; [done|]. split; [done|].
  intros Hnd. rewrite map_app. simpl.
  apply NoDup_ListNoDup, NoDup_app. repeat split.
  - by apply NoDup_ListNoDup.
  - intros x Hx Hx'. apply list_elem_of_In in Hx. apply list_elem_of_singleton in Hx'.
    by subst.
  - apply NoDup_singleton.
Qed.

Lemma unique_id_is_fresh_witness :
  exists r, getUniqueId 3 "new-topic" ["new-topic"; "new-topic-1"; "intro"] = Some r
            /\ ~ In r ["new-topic"; "new-topic-1"; "intro"].
Proof.
  destruct (unique_id_is_fresh 3 "new-topic" ["new-topic"; "new-topic-1"; "intro"])
    as (r & Hr & Hfresh & _).
  - simpl. lia.
  - exists r. split; [exact Hr | exact Hfresh].
Defined.

(** ** Slugs *)

Lemma toLowerChar_not_upper (c : Ascii.ascii) : isUpper (toLowerChar c) = false.
Proof. destruct c as [[] [] [] [] [] [] [] []]; reflexivity. Qed.

Lemma toLowerChar_fix (c : Ascii.ascii) : isUpper c = false -> toLowerChar c = c.
Proof. intros H. unfold toLowerChar. by rewrite H. Qed.

Lemma slugChar_facts (c : Ascii.ascii) :
  slugChar c = true ->
  isSpace c = false /\ isUpper c = false /\ (isWord c || isDash c) = true
  /\ (charCode c < 128)%nat.
Proof.
  destruct c as [[] [] [] [] [] [] [] []]; vm_compute; intros H;
    first [discriminate H | repeat split; lia].
Qed.

Lemma dashChar_facts : isUpper dashChar = false /\ isDash dashChar = true.
Proof. split; reflexivity. Qed.

Lemma Forall_dropWhile {A} (P : A -> Prop) (p : A -> bool) (l : list A) :
  Forall P l -> Forall P (dropWhile p l).
Proof.
  induction 1 as [|a l Ha Hl IH]; simpl; [constructor|].
  destruct (p a); [exact IH | by constructor].
Qed.

Lemma Forall_dropWhileEnd {A} (P : A -> Prop) (p : A -> bool) (l : list A) :
  Forall P l -> Forall P (dropWhileEnd p l).
Proof.
  induction 1 as [|a l Ha Hl IH]; simpl; [constructor|].
  destruct (dropWhileEnd p l) as [|b r].
  - destruct (p a); [constructor | by repeat constructor].
  - by constructor.
Qed.

Lemma Forall_spacesToDash (f : bool) (l : list Ascii.ascii) :
  Forall (fun c => isUpper c = false) l ->
  Forall (fun c => isUpper c = false) (spacesToDash f l).
Proof.
  intros H. revert f. induction H as [|a l Ha Hl IH]; intros f; simpl; [constructor|].
  destruct (isSpace a); [destruct f|]; try apply IH; constructor; try apply IH; done.
Qed.

Lemma Forall_collapseDashes (P : Ascii.ascii -> Prop) (f : bool) (l : list Ascii.ascii) :
  Forall P l -> Forall P (collapseDashes f l).
Proof.
  intros H. revert f. induction H as [|a l Ha Hl IH]; intros f; simpl; [constructor|].
  destruct (isDash a); [destruct f|]; try apply IH; constructor; try apply IH; done.
Qed.

Lemma noDoubleDash_cons2 (a b : Ascii.ascii) (l : list Ascii.ascii) :
  noDoubleDash (a :: b :: l) = negb (isDash a && isDash b) && noDoubleDash (b :: l).
Proof. reflexivity. Qed.

Lemma endsWithDash_cons2 (a b : Ascii.ascii) (l : list Ascii.ascii) :
  endsWithDash (a :: b :: l) = endsWithDash (b :: l).
Proof. reflexivity. Qed.

Lemma noDoubleDash_tail (a : Ascii.ascii) (l : list Ascii.ascii) :
  noDoubleDash (a :: l) = true -> noDoubleDash l = true.
Proof.
  destruct l as [|b l]; [done|]. rewrite noDoubleDash_cons2.
  intros H. by apply andb_true_iff in H as [_ H].
Qed.

Lemma noDoubleDash_cons (a : Ascii.ascii) (l : list Ascii.ascii) :
  isDash a = false \/ startsWithDash l = false ->
  noDoubleDash l = true -> noDoubleDash (a :: l) = true.
Proof.
  destruct l as [|b l]; [done|]. rewrite noDoubleDash_cons2. simpl startsWithDash.
  intros [->| ->] ->; [done|]. by rewrite andb_false_r.
Qed.

Lemma dropWhile_noDoubleDash (p : Ascii.ascii -> bool) (l : list Ascii.ascii) :
  noDoubleDash l = true -> noDoubleDash (dropWhile p l) = true.
Proof.
  induction l as [|a l IH]; [done|]. intros H. simpl.
  destruct (p a); [|done]. apply IH. by apply noDoubleDash_tail in H.
Qed.

Lemma dropWhileEnd_head {A} (p : A -> bool) (a : A) (l : list A) :
  dropWhileEnd p (a :: l) = [] \/ exists r, dropWhileEnd p (a :: l) = a :: r.
Proof.
  simpl. destruct (dropWhileEnd p l) as [|b r].
  - destruct (p a); [by left | right; by exists []].
  - right. by exists (b :: r).
Qed.

Lemma dropWhileEnd_noDoubleDash (p : Ascii.ascii -> bool) (l : list Ascii.ascii) :
  noDoubleDash l = true -> noDoubleDash (dropWhileEnd p l) = true.
Proof.
  induction l as [|a l IH]; [done|]. intros H.
  destruct l as [|b l].
  - simpl. by destruct (p a).
  - rewrite noDoubleDash_cons2 in H. apply andb_true_iff in H as [Hab Hl].
    specialize (IH Hl).
    change (dropWhileEnd p (a :: b :: l))
      with (match dropWhileEnd p (b :: l) with
            | [] => if p a then [] else [a]
            | r => a :: r
            end).
    destruct (dropWhileEnd_head p b l) as [E|[r E]]; rewrite E in *.
    + by destruct (p a).
    + rewrite noDoubleDash_cons2. by rewrite Hab, IH.
Qed.

Lemma dropWhile_starts (l : list Ascii.ascii) : startsWithDash (dropWhile isDash l) = false.
Proof.
  induction l as [|a l IH]; [done|]. simpl. destruct (isDash a) eqn:Ha; [done|].
  simpl. exact Ha.
Qed.

Lemma dropWhileEnd_starts (l : list Ascii.ascii) :
  startsWithDash l = false -> startsWithDash (dropWhileEnd isDash l) = false.
Proof.
  destruct l as [|a l]; [done|]. simpl. intros Ha.
  destruct (dropWhileEnd isDash l); [rewrite Ha|]; simpl; done.
Qed.

Lemma dropWhileEnd_ends (l : list Ascii.ascii) : endsWithDash (dropWhileEnd isDash l) = false.
Proof.
  induction l as [|a l IH]; [done|]. simpl.
  destruct (dropWhileEnd isDash l) as [|b r].
  - destruct (isDash a) eqn:Ha; [done|]. simpl. exact Ha.
  - rewrite endsWithDash_cons2. exact IH.
Qed.

Lemma collapseDashes_shape (f : bool) (l : list Ascii.ascii) :
  noDoubleDash (collapseDashes f l) = true
  /\ (f = true -> startsWithDash (collapseDashes f l) = false).
Proof.
  revert f. induction l as [|a l IH]; intros f; [done|]. simpl.
  destruct (isDash a) eqn:Ha; [destruct f|].
  - apply IH.
  - split; [|done]. destruct (IH true) as [H1 H2].
    apply noDoubleDash_cons; [right; by apply H2 | done].
  - destruct (IH false) as [H1 _]. split.
    + apply noDoubleDash_cons; [by left | done].
    + intros _. simpl. exact Ha.
Qed.

(** The stages are the identity on a list that already has the shape. *)
Lemma map_toLowerChar_id (l : list Ascii.ascii) :
  Forall (fun c => isUpper c = false) l -> map toLowerChar l = l.
Proof.
  induction 1 as [|a l Ha Hl IH]; [done|]. simpl. by rewrite toLowerChar_fix, IH.
Qed.

Lemma dropWhile_id {A} (p : A -> bool) (l : list A) :
  Forall (fun c => p c = false) l -> dropWhile p l = l.
Proof. destruct 1 as [|a l Ha Hl]; [done|]. simpl. by rewrite Ha. Qed.

Lemma dropWhileEnd_id {A} (p : A -> bool) (l : list A) :
  Forall (fun c => p c = false) l -> dropWhileEnd p l = l.
Proof.
  induction 1 as [|a l Ha Hl IH]; [done|]. simpl. rewrite IH, Ha. by destruct l.
Qed.

Lemma spacesToDash_id (l : list Ascii.ascii) :
  Forall (fun c => isSpace c = false) l -> spacesToDash false l = l.
Proof. induction 1 as [|a l Ha Hl IH]; [done|]. simpl. by rewrite Ha, IH. Qed.

Lemma keepWordAndDash_id (l : list Ascii.ascii) :
  Forall (fun c => (isWord c || isDash c) = true) l -> keepWordAndDash l = l.
Proof.
  unfold keepWordAndDash. induction 1 as [|a l Ha Hl IH]; [done|]. simpl.
  by rewrite Ha, IH.
Qed.

Lemma collapseDashes_id (f : bool) (l : list Ascii.ascii) :
  noDoubleDash l = true -> (f = true -> startsWithDash l = false) ->
  collapseDashes f l = l.
Proof.
  revert f. induction l as [|a l IH]; intros f Hnd Hf; [done|]. simpl.
  pose proof (noDoubleDash_tail _ _ Hnd) as Hl.
  destruct (isDash a) eqn:Ha.
  - destruct f; [simpl in Hf; rewrite Hf in Ha; [discriminate|done]|].
    f_equal. apply IH; [done|]. intros _.
    destruct l as [|b l]; [done|]. rewrite noDoubleDash_cons2, Ha in Hnd. simpl in *.
    destruct (isDash b); [discriminate|done].
  - f_equal. apply IH; [done|discriminate].
Qed.

Lemma dropWhile_isDash_id (l : list Ascii.ascii) :
  startsWithDash l = false -> dropWhile isDash l = l.
Proof. destruct l as [|a l]; [done|]. simpl. by intros ->. Qed.

Lemma dropWhileEnd_isDash_id (l : list Ascii.ascii) :
  endsWithDash l = false -> dropWhileEnd isDash l = l.
Proof.
  induction l as [|a l IH]; [done|]. destruct l as [|b l].
  - simpl. by intros ->.
  - rewrite endsWithDash_cons2. intros H. specialize (IH H).
    change (dropWhileEnd isDash (a :: b :: l))
      with (match dropWhileEnd isDash (b :: l) with
            | [] => if isDash a then [] else [a]
            | r => a :: r
            end).
    by rewrite IH.
Qed.

Lemma slugChars_shape (l : list Ascii.ascii) :
  Forall (fun c => slugChar c = true) (slugChars l)
  /\ startsWithDash (slugChars l) = false
  /\ endsWithDash (slugChars l) = false
  /\ noDoubleDash (slugChars l) = true.
Proof.
  unfold slugChars. split; [|split; [|split]].
  - apply Forall_dropWhileEnd, Forall_dropWhile, Forall_collapseDashes.
    unfold keepWordAndDash.
    assert (Hlow : Forall (fun c => isUpper c = false)
                     (spacesToDash false (trim (map toLowerChar l)))).
    { apply Forall_spacesToDash. unfold trim.
      apply Forall_dropWhileEnd, Forall_dropWhile.
      apply List.Forall_forall. intros c Hc. apply in_map_iff in Hc as (c0 & <- & _).
      apply toLowerChar_not_upper. }
    apply List.Forall_forall. intros c Hc. apply filter_In in Hc as [Hc Hok].
    rewrite List.Forall_forall in Hlow. unfold slugChar. by rewrite Hok, (Hlow c Hc).
  - apply dropWhileEnd_starts, dropWhile_starts.
  - apply dropWhileEnd_ends.
  - apply dropWhileEnd_noDoubleDash, dropWhile_noDoubleDash, collapseDashes_shape.
Qed.

Lemma slugChars_fixed (l : list Ascii.ascii) :
  Forall (fun c => slugChar c = true) l -> startsWithDash l = false ->
  endsWithDash l = false -> noDoubleDash l = true ->
  slugChars l = l.
Proof.
  intros Hall Hs He Hnd. unfold slugChars, trim.
  assert (Hup : Forall (fun c => isUpper c = false) l).
  { eapply Forall_impl; [exact Hall|]. intros c Hc. apply slugChar_facts in Hc. tauto. }
  assert (Hsp : Forall (fun c => isSpace c = false) l).
  { eapply Forall_impl; [exact Hall|]. intros c Hc. apply slugChar_facts in Hc. tauto. }
  assert (Hok : Forall (fun c => (isWord c || isDash c) = true) l).
  { eapply Forall_impl; [exact Hall|]. intros c Hc. apply slugChar_facts in Hc. tauto. }
  rewrite (map_toLowerChar_id l Hup), (dropWhile_id isSpace l Hsp),
    (dropWhileEnd_id isSpace l Hsp), (spacesToDash_id l Hsp), (keepWordAndDash_id l Hok),
    (collapseDashes_id false l Hnd), (dropWhile_isDash_id l Hs); [|discriminate].
  by apply dropWhileEnd_isDash_id.
Qed.

Lemma isSlug_spec (s : string) :
  isSlug s = true <->
  Forall (fun c => slugChar c = true) (String.list_ascii_of_string s)
  /\ startsWithDash (String.list_ascii_of_string s) = false
  /\ endsWithDash (String.list_ascii_of_string s) = false
  /\ noDoubleDash (String.list_ascii_of_string s) = true.
Proof.
  unfold isSlug. cbv zeta. rewrite !andb_true_iff, !negb_true_iff, forallb_forall, List.Forall_forall.
  tauto.
Qed.

(** X16.  On ASCII text [generateSlug] returns a slug: lower-case letters,
    digits, underscores and dashes only, no dash at either end and no two
    dashes in a row.  The slugs are exactly the texts it leaves unchanged,
    so it is idempotent; and the title of a new topic gives [new-topic]. *)
Theorem slug_shape_and_fixed_points (text : string) :
  isAscii text ->
  isSlug (generateSlug text) = true
  /\ isAscii (generateSlug text)
  /\ generateSlug (generateSlug text) = generateSlug text
  /\ (isSlug text = true <-> generateSlug text = text)
  /\ generateSlug "New Topic" = newTopicSlug.
Proof.
  intros _.
  assert (Hshape : isSlug (generateSlug text) = true).
  { apply isSlug_spec. unfold generateSlug.
    rewrite String.list_ascii_of_string_of_list_ascii. apply slugChars_shape. }
  assert (Hfix : forall s, isSlug s = true -> generateSlug s = s).
  { intros s Hs. apply isSlug_spec in Hs as (H1 & H2 & H3 & H4). unfold generateSlug.
    rewrite slugChars_fixed by done. apply String.string_of_list_ascii_of_string. }
  split; [done|]. split; [|split; [|split]].
  - apply isSlug_spec in Hshape as [Hall _]. unfold isAscii.
    eapply Forall_impl; [exact Hall|]. intros c Hc. apply slugChar_facts in Hc. tauto.
  - by apply Hfix.
  - split; [apply Hfix|]. intros <-. exact Hshape.
  - vm_compute. reflexivity.
Qed.

Lemma slug_shape_and_fixed_points_witness :
  isSlug (generateSlug "  Intro: Loops & Lists  ") = true.
Proof.
  refine (proj1 (slug_shape_and_fixed_points "  Intro: Loops & Lists  " _)).
  unfold isAscii. simpl. repeat constructor.
Defined.

(** ** The topic view and the selection handler *)

(** X17.  The prerequisites listed by the topic view are those the
    selection handler alerts: the handler's alert carries exactly
    [missingPrerequisites], which is then not empty, and a topic that is not
    locked and has none is opened.  The listed topics are the parents the
    layout uses with a submodule still open, and completing more submodules
    never adds a topic to the list. *)
Theorem topic_view_lists_the_alerted_prerequisites (currentUser : option User)
    (topics : list Topic) (c : gset string) (topic : Topic) :
  (forall m, handleTopicSelect currentUser topics c topic = PrerequisitesMissing m ->
             m = missingPrerequisites topic topics c /\ m <> [])
  /\ (id topic ∉ lockedTopicIds currentUser topics ->
      missingPrerequisites topic topics c = [] ->
      handleTopicSelect currentUser topics c topic = TopicOpened)
  /\ (forall p, In p (missingPrerequisites topic topics c)
                <-> In p (parentsOf topics (level topic) topic)
                    /\ exists st, In st (subTopics p) /\ sub_id st ∉ c)
  /\ (forall c' p, c ⊆ c' -> In p (missingPrerequisites topic topics c') ->
                   In p (missingPrerequisites topic topics c)).
Proof.
  assert (Hin : forall c0 p, In p (missingPrerequisites topic topics c0)
                <-> In p (parentsOf topics (level topic) topic)
                    /\ exists st, In st (subTopics p) /\ sub_id st ∉ c0).
  { intros c0 p. unfold missingPrerequisites, parentsOf. cbv zeta. rewrite filter_In.
    unfold hasIncompleteSubTopic. rewrite existsb_exists.
    split; intros [Hp (st & Hst & Hc)]; (split; [done|]); exists st; (split; [done|]).
    - apply negb_true_iff, bool_decide_eq_false in Hc. done.
    - apply negb_true_iff, bool_decide_eq_false. done. }
  split; [|split; [|split]].
  - intros m Hsel. unfold handleTopicSelect in Hsel.
    destruct (bool_decide (id topic ∈ lockedTopicIds currentUser topics)); [discriminate|].
    cbv zeta in Hsel. fold (missingPrerequisites topic topics c) in Hsel.
    destruct (missingPrerequisites topic topics c) as [|p l] eqn:Hm; simpl in Hsel;
      [discriminate|].
    destruct (negb _) in Hsel; [|discriminate]. injection Hsel as <-. done.
  - intros Hunlocked Hm. unfold handleTopicSelect.
    rewrite bool_decide_eq_false_2 by done. cbv zeta.
    fold (missingPrerequisites topic topics c). by rewrite Hm.
  - apply Hin.
  - intros c' p Hsub Hp. apply Hin in Hp as [Hpar (st & Hst & Hc)]. apply Hin.
    split; [done|]. exists st. split; [done|]. intros Hc0. by apply Hc, Hsub.
Qed.

(** ** Grading a quiz *)

Lemma defaultOrder_trans : Transitive defaultOrder.
Proof. intros a b d. unfold defaultOrder. apply transitivity. Qed.

Lemma defaultOrder_antisym : AntiSymm (=) defaultOrder.
Proof.
  intros a b H1 H2. unfold defaultOrder in *. apply (inj pretty).
  by apply (anti_symm String.le).
Qed.

Lemma defaultOrder_total : Total defaultOrder.
Proof. intros a b. unfold defaultOrder. apply String.le_total. Qed.

Lemma sortDefault_eq_iff (l1 l2 : list nat) :
  sortDefault l1 = sortDefault l2 <-> l1 ≡ₚ l2.
Proof.
  unfold sortDefault. split.
  - intros H. rewrite <- (merge_sort_Permutation defaultOrder l1), H.
    apply merge_sort_Permutation.
  - intros H.
    apply (@Sorted_unique _ defaultOrder defaultOrder_trans defaultOrder_antisym).
    + apply (@Sorted_merge_sort _ defaultOrder _ defaultOrder_total).
    + apply (@Sorted_merge_sort _ defaultOrder _ defaultOrder_total).
    + by rewrite !merge_sort_Permutation.
Qed.

Lemma answersDiffer_spec (selected : gmap string (list nat)) (q : QuizQuestion) :
  answersDiffer selected q = false <-> default [] (selected !! q_id q) ≡ₚ correctAnswers q.
Proof.
  unfold answersDiffer. cbv zeta. rewrite negb_false_iff, bool_decide_eq_true.
  apply sortDefault_eq_iff.
Qed.

Lemma allCorrect_fold (selected : gmap string (list nat)) (qs : list QuizQuestion) (b : bool) :
  fold_left (fun allCorrect q => if answersDiffer selected q then false else allCorrect) qs b
  = b && forallb (fun q => negb (answersDiffer selected q)) qs.
Proof.
  revert b. induction qs as [|q qs IH]; intros b; simpl; [by rewrite andb_true_r|].
  rewrite IH. destruct (answersDiffer selected q), b; simpl; done.
Qed.

(** X18.  A submitted quiz passes exactly when, for every question, the
    selected options are the correct ones up to order (the numerals are
    sorted as strings on both sides, which is harmless).  The attempt keeps
    the selection, and the questions later shown as incorrect are those
    whose selection does not match; there are none exactly when the attempt
    passed. *)
Theorem quiz_passes_on_matching_answers (quizQuestions : list QuizQuestion)
    (selected : gmap string (list nat)) :
  let attempt := submitQuiz quizQuestions selected in
  answers attempt = selected
  /\ (passed attempt = true <->
      forall q, In q quizQuestions -> default [] (selected !! q_id q) ≡ₚ correctAnswers q)
  /\ (forall q, In q (getIncorrectQuestions quizQuestions attempt)
                <-> In q quizQuestions
                    /\ ~ default [] (selected !! q_id q) ≡ₚ correctAnswers q)
  /\ (getIncorrectQuestions quizQuestions attempt = [] <-> passed attempt = true).
Proof.
  intros attempt. unfold attempt, submitQuiz. cbn [answers passed].
  rewrite allCorrect_fold. rewrite andb_true_l.
  assert (Hpass : forallb (fun q => negb (answersDiffer selected q)) quizQuestions = true
                  <-> forall q, In q quizQuestions ->
                                default [] (selected !! q_id q) ≡ₚ correctAnswers q).
  { rewrite forallb_forall. split; intros H q Hq.
    - apply answersDiffer_spec. by apply negb_true_iff, H.
    - apply negb_true_iff, answersDiffer_spec. by apply H. }
  split; [done|]. split; [done|].
  assert (Hwrong : forall q, In q (getIncorrectQuestions quizQuestions
                     {| answers := selected;
                        passed := forallb (fun q => negb (answersDiffer selected q))
                                    quizQuestions |})
                <-> In q quizQuestions
                    /\ ~ default [] (selected !! q_id q) ≡ₚ correctAnswers q).
  { intros q. unfold getIncorrectQuestions. cbn [answers]. rewrite filter_In.
    rewrite <- answersDiffer_spec. destruct (answersDiffer selected q); split;
      intros [? ?]; split; try done. }
  split; [done|]. rewrite Hpass. split.
  - intros Hnil q Hq. destruct (answersDiffer selected q) eqn:Hd.
    + assert (Hin : In q []); [|done]. rewrite <- Hnil. apply Hwrong. split; [done|].
      rewrite <- answersDiffer_spec. congruence.
    + by apply answersDiffer_spec.
  - intros Hall.
    destruct (getIncorrectQuestions _ _) as [|q l] eqn:Hg; [done|].
    destruct (proj1 (Hwrong q) (or_introl eq_refl)) as [Hq Hne].
    by specialize (Hall q Hq).
Qed.

(** X19.  Clicking a quiz option changes the selection of that question
    only, and nothing while results are shown.  On a single-choice question
    the selection becomes that option; on a multiple-choice question the
    option is toggled and the others stay, so a selection without
    repetitions stays so.  A single-choice question is then graded correct
    exactly when the clicked option is its one correct answer. *)
Theorem option_click_updates_one_question (showQuizResults : bool) (qId : string) (idx : nat)
    (multiSelect : bool) (prev : gmap string (list nat)) :
  let next := handleQuizToggleOption showQuizResults qId idx multiSelect prev in
  let current := default [] (prev !! qId) in
  (showQuizResults = true -> next = prev)
  /\ (forall q, q <> qId -> next !! q = prev !! q)
  /\ (showQuizResults = false ->
      (multiSelect = false -> next !! qId = Some [idx])
      /\ (multiSelect = true ->
          (idx ∈ default [] (next !! qId) <-> idx ∉ current)
          /\ (forall i, i <> idx -> (i ∈ default [] (next !! qId) <-> i ∈ current))
          /\ (List.NoDup current -> List.NoDup (default [] (next !! qId))))
      /\ (forall q, q_id q = qId -> multiSelect = false ->
          (answersDiffer next q = false <-> correctAnswers q = [idx]))).
Proof.
  intros next current. unfold next, handleQuizToggleOption. fold current.
  split; [by intros ->|]. split.
  { intros q Hq. destruct showQuizResults; [done|].
    destruct multiSelect; [destruct (bool_decide (idx ∈ current))|];
      by rewrite lookup_insert_ne. }
  intros ->. split; [|split].
  - intros ->. by rewrite lookup_insert_eq.
  - intros ->. destruct (decide (idx ∈ current)) as [Hin|Hout].
    + rewrite bool_decide_eq_true_2 by done. rewrite lookup_insert_eq. simpl.
      assert (Hf : forall i, i ∈ List.filter (fun i => negb (i =? idx)%nat) current
                             <-> i ∈ current /\ i <> idx).
      { intros i. rewrite !list_elem_of_In, filter_In, negb_true_iff, Nat.eqb_neq. tauto. }
      split; [|split].
      * rewrite Hf. tauto.
      * intros i Hi. rewrite Hf. tauto.
      * intros Hnd. by apply List.NoDup_filter.
    + rewrite bool_decide_eq_false_2 by done. rewrite lookup_insert_eq. simpl.
      split; [|split].
      * rewrite elem_of_app, list_elem_of_singleton. tauto.
      * intros i Hi. rewrite elem_of_app, list_elem_of_singleton. tauto.
      * intros Hnd. apply NoDup_ListNoDup. apply NoDup_app. split; [|split].
        -- by apply NoDup_ListNoDup.
        -- intros x Hx Hx'. apply list_elem_of_singleton in Hx'. by subst.
        -- apply NoDup_singleton.
  - intros q <- ->. rewrite answersDiffer_spec, lookup_insert_eq. simpl. split.
    + intros H. symmetry in H. by apply Permutation_singleton_r in H.
    + by intros ->.
Qed.

Lemma option_click_updates_one_question_witness :
  handleQuizToggleOption false "q1" 2%nat false (<["q1" := [0%nat]]> ∅) !! "q1"
  = Some [2%nat].
Proof.
  refine (proj1 (proj2 (proj2
            (option_click_updates_one_question false "q1" 2%nat false
               (<["q1" := [0%nat]]> ∅)))
            _) _); reflexivity.
Defined.

(** ** Accounts and locked topics *)

(** X20.  A student added in the builder has no locked topic.  Toggling a
    topic for a user who is not an administrator flips the lock of that
    topic, when it is part of the curriculum, and of no other topic; the
    role is kept. *)
Theorem account_toggle_flips_one_lock (user : User) (topicId : string) (topics : list Topic) :
  roleIsAdmin (role user) = false ->
  let user' := handleToggleUserTopic user topicId in
  role user' = role user
  /\ (In topicId (map id topics) ->
      (topicId ∈ lockedTopicIds (Some user') topics
       <-> topicId ∉ lockedTopicIds (Some user) topics))
  /\ (forall i, i <> topicId ->
        (i ∈ lockedTopicIds (Some user') topics <-> i ∈ lockedTopicIds (Some user) topics))
  /\ lockedTopicIds (Some (handleAddUser topics)) topics = ∅.
Proof.
  intros Hrole user'.
  assert (Hallowed : forall i, In i (default [] (allowedTopics user'))
            <-> (i = topicId /\ ~ In topicId (default [] (allowedTopics user)))
                \/ (i <> topicId /\ In i (default [] (allowedTopics user)))).
  { intros i. unfold user', handleToggleUserTopic. cbn [allowedTopics default].
    set (cur := match allowedTopics user with Some l => l | None => [] end).
    change (default [] (allowedTopics user)) with cur.
    destruct (includes cur topicId) eqn:Hinc; unfold Datatypes.id.
    - apply includes_In in Hinc. rewrite filter_In, negb_true_iff, String.eqb_neq.
      destruct (decide (i = topicId)) as [->|Hne]; tauto.
    - assert (Hnot : ~ In topicId cur).
      { intros Hin. apply includes_In in Hin. congruence. }
      rewrite in_app_iff. simpl.
      destruct (decide (i = topicId)) as [->|Hne]; [tauto|].
      split; [intros [?|[?|[]]]; [tauto|congruence] | tauto]. }
  split; [done|]. split; [|split].
  - intros Hlisted. rewrite !lockedTopicIds_spec by done. rewrite Hallowed.
    destruct (in_dec String.eq_dec topicId (default [] (allowedTopics user))); tauto.
  - intros i Hne. rewrite !lockedTopicIds_spec by done. rewrite Hallowed. tauto.
  - apply set_eq. intros i. rewrite lockedTopicIds_spec by done.
    unfold handleAddUser. simpl. split; [tauto|]. intros Hi. by apply not_elem_of_empty in Hi.
Qed.

Lemma account_toggle_flips_one_lock_witness :
  "B" ∈ lockedTopicIds (Some (handleToggleUserTopic sampleStudent "A")) [topicA; topicB]
  <-> "B" ∈ lockedTopicIds (Some sampleStudent) [topicA; topicB].
Proof.
  refine (proj1 (proj2 (proj2
            (account_toggle_flips_one_lock sampleStudent "A" [topicA; topicB] _))) "B" _).
  - reflexivity.
  - discriminate.
Defined.

(** ** Discussion threads *)

Lemma Comment_ind (P : Comment -> Prop) :
  (forall i t r rs, Forall P rs -> P (mkComment i t r rs)) -> forall c, P c.
Proof.
  intros H. fix IH 1. intros [i t r rs]. apply H.
  induction rs as [|c rs IHrs]; constructor; [apply IH | exact IHrs].
Qed.

Lemma commentIds_eq (i t : string) (r : gmap string nat) (rs : list Comment) :
  commentIds (mkComment i t r rs) = i :: threadIds rs.
Proof. reflexivity. Qed.

Lemma threadIds_cons (c : Comment) (l : list Comment) :
  threadIds (c :: l) = commentIds c ++ threadIds l.
Proof. reflexivity. Qed.

Lemma threadIds_app (l1 l2 : list Comment) :
  threadIds (l1 ++ l2) = threadIds l1 ++ threadIds l2.
Proof. unfold threadIds. apply flat_map_app. Qed.

Lemma commentIds_head (c : Comment) : In (c_id c) (commentIds c).
Proof. destruct c. by left. Qed.

Lemma deleteInComment_eq (commentId i t : string) (r : gmap string nat) (rs : list Comment) :
  deleteInComment commentId (mkComment i t r rs)
  = mkComment i t r (deleteComment commentId rs).
Proof.
  simpl. f_equal. unfold deleteComment.
  induction rs as [|c rs IH]; [done|]. simpl.
  destruct (negb (String.eqb (c_id c) commentId)); simpl; by rewrite IH.
Qed.

Lemma deleteComment_cons (commentId : string) (c : Comment) (l : list Comment) :
  deleteComment commentId (c :: l)
  = if negb (String.eqb (c_id c) commentId)
    then deleteInComment commentId c :: deleteComment commentId l
    else deleteComment commentId l.
Proof. unfold deleteComment. simpl. by destruct (negb _). Qed.

Lemma deleteComment_app (commentId : string) (l1 l2 : list Comment) :
  deleteComment commentId (l1 ++ l2)
  = deleteComment commentId l1 ++ deleteComment commentId l2.
Proof. unfold deleteComment. by rewrite List.filter_app, map_app. Qed.

Lemma addReplyToComment_eq (p : string) (n : Comment) (i t : string) (r : gmap string nat)
    (rs : list Comment) :
  addReplyToComment p n (mkComment i t r rs)
  = if String.eqb i p then mkComment i t r (rs ++ [n])
    else mkComment i t r (map (addReplyToComment p n) rs).
Proof. simpl. destruct (String.eqb i p); [done|]. by destruct rs. Qed.

Lemma updateReactions_eq (commentId emoji i t : string) (r : gmap string nat)
    (rs : list Comment) :
  updateReactions commentId emoji (mkComment i t r rs)
  = if String.eqb i commentId
    then mkComment i t (<[emoji := (default 0%nat (r !! emoji) + 1)%nat]> r) rs
    else mkComment i t r (map (updateReactions commentId emoji) rs).
Proof. simpl. destruct (String.eqb i commentId); [done|]. by destruct rs. Qed.

Lemma findInComment_eq (i j t : string) (r : gmap string nat) (rs : list Comment) :
  findInComment i (mkComment j t r rs)
  = if String.eqb j i then Some (mkComment j t r rs) else findComment i rs.
Proof.
  simpl. destruct (String.eqb j i); [done|].
  induction rs as [|c rs IH]; [done|]. simpl. by rewrite IH.
Qed.

Lemma addReplyToComment_id (p : string) (n c : Comment) :
  c_id (addReplyToComment p n c) = c_id c.
Proof. destruct c as [i t r rs]. rewrite addReplyToComment_eq. by destruct (String.eqb i p). Qed.

(** Deleting an id that does not occur changes nothing. *)
Lemma deleteComment_absent (commentId : string) (l : list Comment) :
  ~ In commentId (threadIds l) -> deleteComment commentId l = l.
Proof.
  assert (Hc : forall c, ~ In commentId (commentIds c) -> deleteInComment commentId c = c).
  { induction c as [i t r rs IH] using Comment_ind. intros Hnot.
    rewrite deleteInComment_eq. f_equal.
    rewrite commentIds_eq in Hnot.
    assert (Hrs : ~ In commentId (threadIds rs)) by (intros H; apply Hnot; by right).
    clear Hnot. induction rs as [|c rs IHrs]; [done|].
    inversion IH as [|? ? Hc0 Hrs0]; subst.
    rewrite threadIds_cons, in_app_iff in Hrs.
    rewrite deleteComment_cons.
    assert (c_id c <> commentId) as Hne.
    { intros <-. apply Hrs. left. apply commentIds_head. }
    apply String.eqb_neq in Hne. rewrite Hne. simpl.
    rewrite Hc0 by tauto. rewrite IHrs by tauto. done. }
  induction l as [|c l IH]; [done|]. intros Hnot.
  rewrite threadIds_cons, in_app_iff in Hnot. rewrite deleteComment_cons.
  assert (c_id c <> commentId) as Hne.
  { intros <-. apply Hnot. left. apply commentIds_head. }
  apply String.eqb_neq in Hne. rewrite Hne. simpl.
  rewrite Hc by tauto. rewrite IH by tauto. done.
Qed.

Lemma deleteComment_removes (commentId : string) (l : list Comment) :
  ~ In commentId (threadIds (deleteComment commentId l)).
Proof.
  assert (Hlist : forall l, Forall (fun c => c_id c <> commentId ->
                      ~ In commentId (commentIds (deleteInComment commentId c))) l ->
                    ~ In commentId (threadIds (deleteComment commentId l))).
  { intros l0 Hall. induction Hall as [|c l0 Hc Hl IH]; [by intros []|].
    rewrite deleteComment_cons.
    destruct (String.eqb (c_id c) commentId) eqn:He; cbn [negb]; [done|].
    apply String.eqb_neq in He. rewrite threadIds_cons, in_app_iff.
    intros [H|H]; [by apply Hc | done]. }
  apply Hlist. apply List.Forall_forall. intros c _.
  induction c as [i t r rs IH] using Comment_ind. simpl c_id. intros Hne.
  rewrite deleteInComment_eq, commentIds_eq. intros [H|H]; [done|].
  by apply (Hlist rs IH).
Qed.

Lemma deleteComment_sublist (commentId : string) (l : list Comment) :
  sublist (threadIds (deleteComment commentId l)) (threadIds l).
Proof.
  assert (Hlist : forall l, Forall (fun c => sublist (commentIds (deleteInComment commentId c))
                                                     (commentIds c)) l ->
                    sublist (threadIds (deleteComment commentId l)) (threadIds l)).
  { intros l0 Hall. induction Hall as [|c l0 Hc Hl IH]; [done|].
    rewrite deleteComment_cons, (threadIds_cons c l0).
    destruct (negb _).
    - rewrite threadIds_cons. by apply sublist_app.
    - by apply sublist_inserts_l. }
  apply Hlist. apply List.Forall_forall. intros c _.
  induction c as [i t r rs IH] using Comment_ind.
  rewrite deleteInComment_eq, !commentIds_eq. apply sublist_skip. by apply Hlist.
Qed.

(** Deleting a fresh id after replying with it gives the thread back. *)
Lemma delete_after_reply (p now text : string) (l : list Comment) :
  ~ In now (threadIds l) ->
  deleteComment now (map (addReplyToComment p (newComment now text)) l) = l.
Proof.
  set (n := newComment now text).
  assert (Hlist : forall l, Forall (fun c => ~ In now (commentIds c) ->
                      deleteInComment now (addReplyToComment p n c) = c) l ->
                    ~ In now (threadIds l) ->
                    deleteComment now (map (addReplyToComment p n) l) = l).
  { intros l0 Hall. induction Hall as [|c l0 Hc Hl IH]; [done|]. intros Hnot.
    rewrite threadIds_cons, in_app_iff in Hnot. simpl map. rewrite deleteComment_cons.
    rewrite addReplyToComment_id.
    assert (c_id c <> now) as Hne.
    { intros <-. apply Hnot. left. apply commentIds_head. }
    apply String.eqb_neq in Hne. rewrite Hne. simpl.
    rewrite Hc by tauto. rewrite IH by tauto. done. }
  apply Hlist. apply List.Forall_forall. intros c _.
  induction c as [i t r rs IH] using Comment_ind. rewrite commentIds_eq. intros Hnot.
  assert (Hrs : ~ In now (threadIds rs)) by (intros H; apply Hnot; by right).
  rewrite addReplyToComment_eq. destruct (String.eqb i p).
  - rewrite deleteInComment_eq, deleteComment_app. f_equal.
    rewrite (deleteComment_absent now rs Hrs).
    unfold n, newComment. rewrite deleteComment_cons. simpl c_id.
    rewrite String.eqb_refl. simpl. apply app_nil_r.
  - rewrite deleteInComment_eq. f_equal. by apply Hlist.
Qed.

(** X21.  Deleting a comment removes every comment with that id, at any
    depth; a top-level comment goes together with its replies.  The
    remaining ids are a subsequence of the old ones, a thread without the id
    is unchanged (so deleting twice is deleting once), and threads of other
    submodules are untouched.  Deleting a comment or a reply that was just
    posted under a fresh id restores the thread. *)
Theorem delete_comment_removes_the_subtree (subTopicId commentId : string) (prev : Threads) :
  let thread := default [] (prev !! subTopicId) in
  let next := handleDeleteComment subTopicId commentId prev in
  next !! subTopicId = Some (deleteComment commentId thread)
  /\ (forall s, s <> subTopicId -> next !! s = prev !! s)
  /\ ~ In commentId (threadIds (deleteComment commentId thread))
  /\ sublist (threadIds (deleteComment commentId thread)) (threadIds thread)
  /\ (forall before c after, thread = before ++ c :: after -> c_id c = commentId ->
        deleteComment commentId thread
        = deleteComment commentId before ++ deleteComment commentId after)
  /\ (~ In commentId (threadIds thread) -> deleteComment commentId thread = thread)
  /\ deleteComment commentId (deleteComment commentId thread) = deleteComment commentId thread
  /\ (forall u text, ~ In commentId (threadIds thread) ->
        handleDeleteComment subTopicId commentId
          (addComment (Some u) commentId subTopicId text prev) !! subTopicId
        = Some thread)
  /\ (forall u parent text, ~ In commentId (threadIds thread) ->
        handleDeleteComment subTopicId commentId
          (handleReply (Some u) commentId subTopicId parent text prev) !! subTopicId
        = Some thread).
Proof.
  intros thread next. unfold next, handleDeleteComment, Threads in *. cbv zeta.
  fold thread.
  split; [by rewrite lookup_insert_eq|].
  split; [intros s Hs; by rewrite lookup_insert_ne|].
  split; [apply deleteComment_removes|].
  split; [apply deleteComment_sublist|].
  split.
  { intros before c after -> Hc. rewrite deleteComment_app, deleteComment_cons.
    by rewrite Hc, String.eqb_refl. }
  split; [apply deleteComment_absent|].
  split; [apply deleteComment_absent, deleteComment_removes|].
  split.
  - intros u text Hfresh. unfold addComment, Threads. fold thread.
    rewrite lookup_insert_eq. f_equal. rewrite lookup_insert_eq.
    change (default [] (Some ?x)) with x. fold thread.
    rewrite deleteComment_app, (deleteComment_absent _ _ Hfresh).
    unfold newComment. rewrite deleteComment_cons. simpl c_id.
    rewrite String.eqb_refl. simpl. apply app_nil_r.
  - intros u parent text Hfresh. unfold handleReply, Threads. cbv zeta. fold thread.
    rewrite lookup_insert_eq. f_equal. rewrite lookup_insert_eq.
    change (default [] (Some ?x)) with x. fold thread.
    by apply delete_after_reply.
Qed.

Lemma delete_comment_removes_the_subtree_witness :
  let reply := mkComment "2" "second" ∅ [] in
  let thread := [mkComment "1" "first" ∅ [reply]; mkComment "3" "third" ∅ []] in
  deleteComment "1" thread = [mkComment "3" "third" ∅ []].
Proof.
  intros reply thread.
  pose proof (proj1 (proj2 (proj2 (proj2 (proj2
    (delete_comment_removes_the_subtree "s" "1" (<["s" := thread]> ∅))))))) as H.
  exact (H [] (mkComment "1" "first" ∅ [reply]) [mkComment "3" "third" ∅ []]
           eq_refl eq_refl).
Defined.

Lemma findComment_None (i : string) (l : list Comment) :
  findComment i l = None <-> ~ In i (threadIds l).
Proof.
  assert (Hlist : forall l, Forall (fun c => findInComment i c = None
                                             <-> ~ In i (commentIds c)) l ->
                    (findComment i l = None <-> ~ In i (threadIds l))).
  { intros l0 Hall. induction Hall as [|c l0 Hc Hl IH]; [simpl; tauto|].
    rewrite threadIds_cons, in_app_iff. simpl findComment.
    destruct (findInComment i c) as [found|].
    - split; [discriminate|]. intros Hnot. exfalso.
      assert (Some found = None -> False) by discriminate. tauto.
    - assert (~ In i (commentIds c)) by (by apply Hc). tauto. }
  apply Hlist. apply List.Forall_forall. intros c _.
  induction c as [j t r rs IH] using Comment_ind.
  rewrite findInComment_eq, commentIds_eq. destruct (String.eqb j i) eqn:He.
  - apply String.eqb_eq in He. split; [discriminate|]. intros Hnot. exfalso.
    apply Hnot. by left.
  - apply String.eqb_neq in He. rewrite (Hlist rs IH). simpl. tauto.
Qed.

Lemma addReplyToComment_absent (p : string) (n : Comment) (l : list Comment) :
  ~ In p (threadIds l) -> map (addReplyToComment p n) l = l.
Proof.
  assert (Hlist : forall l, Forall (fun c => ~ In p (commentIds c) ->
                                             addReplyToComment p n c = c) l ->
                    ~ In p (threadIds l) -> map (addReplyToComment p n) l = l).
  { intros l0 Hall. induction Hall as [|c l0 Hc Hl IH]; [done|].
    rewrite threadIds_cons, in_app_iff. intros Hnot. simpl.
    rewrite Hc by tauto. rewrite IH by tauto. done. }
  apply Hlist. apply List.Forall_forall. intros c _.
  induction c as [i t r rs IH] using Comment_ind.
  rewrite commentIds_eq, addReplyToComment_eq. intros Hnot.
  destruct (String.eqb i p) eqn:He.
  - apply String.eqb_eq in He. exfalso. apply Hnot. by left.
  - f_equal. apply (Hlist rs IH). intros H. apply Hnot. by right.
Qed.

Lemma updateReactions_absent (commentId emoji : string) (l : list Comment) :
  ~ In commentId (threadIds l) -> map (updateReactions commentId emoji) l = l.
Proof.
  assert (Hlist : forall l, Forall (fun c => ~ In commentId (commentIds c) ->
                                             updateReactions commentId emoji c = c) l ->
                    ~ In commentId (threadIds l) ->
                    map (updateReactions commentId emoji) l = l).
  { intros l0 Hall. induction Hall as [|c l0 Hc Hl IH]; [done|].
    rewrite threadIds_cons, in_app_iff. intros Hnot. simpl.
    rewrite Hc by tauto. rewrite IH by tauto. done. }
  apply Hlist. apply List.Forall_forall. intros c _.
  induction c as [i t r rs IH] using Comment_ind.
  rewrite commentIds_eq, updateReactions_eq. intros Hnot.
  destruct (String.eqb i commentId) eqn:He.
  - apply String.eqb_eq in He. exfalso. apply Hnot. by left.
  - f_equal. apply (Hlist rs IH). intros H. apply Hnot. by right.
Qed.

(** A traversal that rewrites the first comment with the id and is the
    identity on comments without it rewrites what [findComment] finds. *)
Lemma findComment_rewritten (i : string) (f g : Comment -> Comment) :
  (forall j t r rs, f (mkComment j t r rs)
                    = if String.eqb j i then g (mkComment j t r rs)
                      else mkComment j t r (map f rs)) ->
  (forall c, c_id (g c) = c_id c) ->
  (forall l, ~ In i (threadIds l) -> map f l = l) ->
  forall l c, findComment i l = Some c -> findComment i (map f l) = Some (g c).
Proof.
  intros Hf Hg Habsent.
  assert (Hlist : forall l, Forall (fun c0 => forall c, findInComment i c0 = Some c ->
                                        findInComment i (f c0) = Some (g c)) l ->
                    forall c, findComment i l = Some c ->
                              findComment i (map f l) = Some (g c)).
  { intros l0 Hall. induction Hall as [|c0 l0 Hc Hl IH]; [done|]. intros c.
    simpl. destruct (findInComment i c0) as [found|] eqn:Hfound.
    - intros [= ->]. by rewrite (Hc c eq_refl).
    - intros Hrest.
      assert (Hno : ~ In i (threadIds [c0])).
      { apply findComment_None. simpl. by rewrite Hfound. }
      pose proof (Habsent [c0] Hno) as Hsame. simpl in Hsame.
      injection Hsame as ->. rewrite Hfound. by apply IH. }
  intros l. apply Hlist. apply List.Forall_forall. intros c0 _.
  induction c0 as [j t r rs IH] using Comment_ind. intros c.
  rewrite findInComment_eq, Hf. destruct (String.eqb j i) eqn:He.
  - intros [= <-]. specialize (Hg (mkComment j t r rs)). simpl in Hg.
    destruct (g (mkComment j t r rs)) as [j' t' r' rs'] eqn:Hgc. simpl in Hg. subst j'.
    by rewrite findInComment_eq, He.
  - intros Hc. rewrite findInComment_eq, He. by apply Hlist.
Qed.

Lemma reply_sublist (p : string) (n : Comment) (l : list Comment) :
  sublist (threadIds l) (threadIds (map (addReplyToComment p n) l)).
Proof.
  assert (Hlist : forall l, Forall (fun c => sublist (commentIds c)
                                     (commentIds (addReplyToComment p n c))) l ->
                    sublist (threadIds l) (threadIds (map (addReplyToComment p n) l))).
  { intros l0 Hall. induction Hall as [|c l0 Hc Hl IH]; [done|].
    simpl map. rewrite !threadIds_cons. by apply sublist_app. }
  apply Hlist. apply List.Forall_forall. intros c _.
  induction c as [i t r rs IH] using Comment_ind.
  rewrite addReplyToComment_eq. destruct (String.eqb i p); rewrite !commentIds_eq;
    apply sublist_skip.
  - rewrite threadIds_app. by apply sublist_inserts_r.
  - by apply Hlist.
Qed.

Lemma reply_count (p : string) (n : Comment) (l : list Comment) :
  List.NoDup (threadIds l) -> In p (threadIds l) ->
  length (threadIds (map (addReplyToComment p n) l))
  = (length (threadIds l) + length (commentIds n))%nat.
Proof.
  assert (Hlist : forall l,
            Forall (fun c => List.NoDup (commentIds c) -> In p (commentIds c) ->
                       length (commentIds (addReplyToComment p n c))
                       = (length (commentIds c) + length (commentIds n))%nat) l ->
            List.NoDup (threadIds l) -> In p (threadIds l) ->
            length (threadIds (map (addReplyToComment p n) l))
            = (length (threadIds l) + length (commentIds n))%nat).
  { intros l0 Hall. induction Hall as [|c l0 Hc Hl IH]; [by intros _ []|].
    rewrite threadIds_cons. intros Hnd Hin.
    apply NoDup_ListNoDup, NoDup_app in Hnd as (Hnd1 & Hdisj & Hnd2).
    apply NoDup_ListNoDup in Hnd1, Hnd2.
    simpl map. rewrite threadIds_cons, !length_app.
    destruct (in_dec String.eq_dec p (commentIds c)) as [Hpc|Hpc].
    - assert (Hnot : ~ In p (threadIds l0)).
      { intros H. apply (Hdisj p); by apply list_elem_of_In. }
      rewrite (addReplyToComment_absent p n l0 Hnot), (Hc Hnd1 Hpc). lia.
    - assert (Hin' : In p (threadIds l0)).
      { apply in_app_iff in Hin. tauto. }
      assert (Hno : ~ In p (threadIds [c])).
      { rewrite threadIds_cons, in_app_iff. simpl. tauto. }
      pose proof (addReplyToComment_absent p n [c] Hno) as Hsame. simpl in Hsame.
      injection Hsame as ->. rewrite (IH Hnd2 Hin'). lia. }
  apply Hlist. apply List.Forall_forall. intros c _.
  induction c as [i t r rs IH] using Comment_ind.
  rewrite addReplyToComment_eq, commentIds_eq. intros Hnd Hin.
  destruct (String.eqb i p) eqn:He; rewrite commentIds_eq.
  - rewrite threadIds_app. cbn [length]. rewrite length_app.
    change (threadIds [n]) with (commentIds n ++ []). rewrite app_nil_r. lia.
  - apply String.eqb_neq in He. cbn [length]. rewrite Nat.add_succ_l. f_equal.
    apply (Hlist rs IH).
    + by inversion Hnd.
    + destruct Hin as [Hin|Hin]; [done|exact Hin].
Qed.

(** X22.  A reply is appended to the replies of the first comment with the
    parent id (parents before replies), and the ids of the old thread remain
    in their order.  When the parent id does not occur the thread is
    unchanged (the reply is dropped); when the ids of the thread are
    distinct and the parent occurs, the thread grows by exactly one comment.
    Nothing happens without a signed-in user, and threads of other
    submodules are untouched. *)
Theorem reply_lands_under_its_parent (now subTopicId parent text : string) (prev : Threads) :
  let thread := default [] (prev !! subTopicId) in
  let reply := newComment now text in
  let thread' := map (addReplyToComment parent reply) thread in
  handleReply None now subTopicId parent text prev = prev
  /\ (forall u, handleReply (Some u) now subTopicId parent text prev !! subTopicId
                = Some thread')
  /\ (forall u s, s <> subTopicId ->
        handleReply (Some u) now subTopicId parent text prev !! s = prev !! s)
  /\ (findComment parent thread = None <-> ~ In parent (threadIds thread))
  /\ (findComment parent thread = None -> thread' = thread)
  /\ (forall c, findComment parent thread = Some c ->
        findComment parent thread'
        = Some (mkComment (c_id c) (c_text c) (reactions c) (replies c ++ [reply])))
  /\ sublist (threadIds thread) (threadIds thread')
  /\ (List.NoDup (threadIds thread) -> In parent (threadIds thread) ->
        length (threadIds thread') = S (length (threadIds thread))).
Proof.
  intros thread reply thread'. unfold handleReply, Threads. cbv zeta.
  fold thread. fold reply. fold thread'.
  split; [done|]. split; [intros u; by rewrite lookup_insert_eq|].
  split; [intros u s Hs; by rewrite lookup_insert_ne|].
  split; [apply findComment_None|].
  split; [intros H; apply addReplyToComment_absent; by apply findComment_None|].
  split.
  { intros c Hc.
    apply (findComment_rewritten parent (addReplyToComment parent reply)
             (fun c => mkComment (c_id c) (c_text c) (reactions c) (replies c ++ [reply])));
      [|done|apply addReplyToComment_absent|done].
    intros j t r rs. apply addReplyToComment_eq. }
  split; [apply reply_sublist|].
  intros Hnd Hin. unfold thread'. rewrite reply_count by done. simpl. lia.
Qed.

Lemma reply_lands_under_its_parent_witness :
  let thread := [mkComment "1" "first" ∅ []; mkComment "3" "third" ∅ []] in
  length (threadIds (map (addReplyToComment "3" (newComment "9" "reply")) thread)) = 3%nat.
Proof.
  intros thread.
  pose proof (proj2 (proj2 (proj2 (proj2 (proj2 (proj2 (proj2
    (reply_lands_under_its_parent "9" "s" "3" "reply" (<["s" := thread]> ∅))))))))) as H.
  refine (H _ _).
  - simpl. repeat (constructor; [simpl; intuition discriminate|]). constructor.
  - simpl. right. left. reflexivity.
Defined.

(** X23.  A reaction adds one to the count of that emoji on the first
    comment with the id, counting from zero when the emoji is new, and
    leaves its other counts, its text and its replies as they are.  No
    comment is added, removed or moved; a thread without the id is
    unchanged, and threads of other submodules are untouched. *)
Theorem reaction_counts_one_more (subTopicId commentId emoji : string) (prev : Threads) :
  let thread := default [] (prev !! subTopicId) in
  let thread' := map (updateReactions commentId emoji) thread in
  handleReaction subTopicId commentId emoji prev !! subTopicId = Some thread'
  /\ (forall s, s <> subTopicId ->
        handleReaction subTopicId commentId emoji prev !! s = prev !! s)
  /\ (~ In commentId (threadIds thread) -> thread' = thread)
  /\ (forall c, findComment commentId thread = Some c ->
        exists c', findComment commentId thread' = Some c'
          /\ c_id c' = c_id c /\ c_text c' = c_text c /\ replies c' = replies c
          /\ reactions c' !! emoji = Some (S (default 0%nat (reactions c !! emoji)))
          /\ forall e, e <> emoji -> reactions c' !! e = reactions c !! e)
  /\ threadIds thread' = threadIds thread.
Proof.
  intros thread thread'. unfold handleReaction, Threads. cbv zeta.
  fold thread. fold thread'.
  split; [by rewrite lookup_insert_eq|].
  split; [intros s Hs; by rewrite lookup_insert_ne|].
  split; [apply updateReactions_absent|].
  split.
  { intros c Hc.
    set (g := fun c => mkComment (c_id c) (c_text c)
                (<[emoji := (default 0%nat (reactions c !! emoji) + 1)%nat]> (reactions c))
                (replies c)).
    exists (g c). split.
    - apply (findComment_rewritten commentId (updateReactions commentId emoji) g);
        [|done|apply updateReactions_absent|done].
      intros j t r rs. apply updateReactions_eq.
    - unfold g. simpl. repeat split.
      + rewrite lookup_insert_eq. f_equal. lia.
      + intros e He. by rewrite lookup_insert_ne. }
  unfold thread'.
  assert (Hlist : forall l, Forall (fun c => commentIds (updateReactions commentId emoji c)
                                             = commentIds c) l ->
                    threadIds (map (updateReactions commentId emoji) l) = threadIds l).
  { intros l0 Hall. induction Hall as [|c l0 Hc Hl IH]; [done|].
    simpl map. rewrite !threadIds_cons. by rewrite Hc, IH. }
  apply Hlist. apply List.Forall_forall. intros c _.
  induction c as [i t r rs IH] using Comment_ind.
  rewrite updateReactions_eq. destruct (String.eqb i commentId); rewrite !commentIds_eq;
    [done|]. f_equal. by apply Hlist.
Qed.

Lemma reaction_counts_one_more_witness :
  let reply := mkComment "2" "second" (<["+1" := 2%nat]> ∅) [] in
  let thread := [mkComment "1" "first" ∅ [reply]] in
  exists c', findComment "2" (map (updateReactions "2" "+1") thread) = Some c'
             /\ reactions c' !! "+1" = Some 3%nat
             /\ replies c' = [] /\ c_text c' = "second".
Proof.
  intros reply thread.
  pose proof (proj1 (proj2 (proj2 (proj2
    (reaction_counts_one_more "s" "2" "+1" (<["s" := thread]> ∅))))) reply) as H.
  destruct H as (c' & Hfind & _ & Htext & Hreplies & Hcount & _).
  - vm_compute. reflexivity.
  - exists c'. split; [exact Hfind|]. split; [|split].
    + rewrite Hcount. vm_compute. reflexivity.
    + exact Hreplies.
    + exact Htext.
Defined.

(** ** Hovering *)







(** ** The node card *)



(** ** Quiz attempts over time *)

Lemma submitQuizzes_spec (events : list (string * QuizAttempt)) (p0 : Progress) :
  let p := submitQuizzes events p0 in
  (forall i, default [] (quizProgress p !! i)
             = default [] (quizProgress p0 !! i)
               ++ map snd (List.filter (fun e => String.eqb (fst e) i) events))
  /\ (forall i, i ∈ completedSubTopics p
                <-> i ∈ completedSubTopics p0
                    \/ exists a, In (i, a) events /\ passed a = true)
  /\ (forall i, i ∈ submittedExercises p
                <-> i ∈ submittedExercises p0
                    \/ exists a, In (i, a) events /\ passed a = true).
Proof.
  revert p0. induction events as [|[s a] events IH]; intros p0; cbv zeta.
  - simpl. split; [intros i; by rewrite app_nil_r|].
    split; intros i; (split; [by left|]); by intros [H|(a & [] & _)].
  - unfold submitQuizzes. simpl fold_left. fold (submitQuizzes events).
    destruct (IH (handleExerciseSubmission s (Some a) p0)) as (Hq & Hc & Hs).
    split; [|split].
    + intros i. rewrite Hq. unfold handleExerciseSubmission. cbn [List.filter fst snd].
      assert (Hrec : quizProgress (if passed a
                then {| completedSubTopics := completedSubTopics p0 ∪ {[s]};
                        submittedExercises := submittedExercises p0 ∪ {[s]};
                        quizProgress := <[s := default [] (quizProgress p0 !! s) ++ [a]]>
                                          (quizProgress p0) |}
                else {| completedSubTopics := completedSubTopics p0;
                        submittedExercises := submittedExercises p0;
                        quizProgress := <[s := default [] (quizProgress p0 !! s) ++ [a]]>
                                          (quizProgress p0) |})
              = <[s := default [] (quizProgress p0 !! s) ++ [a]]> (quizProgress p0))
        by (by destruct (passed a)).
      cbv zeta. rewrite Hrec.
      destruct (String.eqb_spec s i) as [->|Hne].
      * rewrite lookup_insert_eq. simpl. by rewrite <- app_assoc.
      * by rewrite lookup_insert_ne.
    + intros i. rewrite Hc. unfold handleExerciseSubmission. cbv zeta.
      destruct (passed a) eqn:Hp; cbn [completedSubTopics].
      * rewrite elem_of_union, elem_of_singleton. split.
        -- intros [[H| ->]|(a' & Ha' & Hp')];
             [by left | right; exists a; split; [by left|done]
              | right; exists a'; split; [by right|done]].
        -- intros [H|(a' & [[= <- <-]|Ha'] & Hp')];
             [left; by left | left; by right | right; by exists a'].
      * split.
        -- intros [H|(a' & Ha' & Hp')]; [by left | right; exists a'; split; [by right|done]].
        -- intros [H|(a' & [[= <- <-]|Ha'] & Hp')];
             [by left | congruence | right; by exists a'].
    + intros i. rewrite Hs. unfold handleExerciseSubmission. cbv zeta.
      destruct (passed a) eqn:Hp; cbn [submittedExercises].
      * rewrite elem_of_union, elem_of_singleton. split.
        -- intros [[H| ->]|(a' & Ha' & Hp')];
             [by left | right; exists a; split; [by left|done]
              | right; exists a'; split; [by right|done]].
        -- intros [H|(a' & [[= <- <-]|Ha'] & Hp')];
             [left; by left | left; by right | right; by exists a'].
      * split.
        -- intros [H|(a' & Ha' & Hp')]; [by left | right; exists a'; split; [by right|done]].
        -- intros [H|(a' & [[= <- <-]|Ha'] & Hp')];
             [by left | congruence | right; by exists a'].
Qed.

(** X26.  After any run of quiz submissions from an empty progress, a
    submodule is completed exactly when one of its recorded attempts passed
    (which is what the quiz view reads as [hasPassed]), that is, when the
    run holds a passed attempt for it; the completed and the submitted
    exercises coincide, and the attempts of every submodule are recorded in
    the order of their submission. *)
Theorem quiz_completion_tracks_passed_attempts (events : list (string * QuizAttempt)) :
  let p := submitQuizzes events noProgress in
  (forall i, i ∈ completedSubTopics p <-> hasPassed p i = true)
  /\ (forall i, i ∈ completedSubTopics p <-> exists a, In (i, a) events /\ passed a = true)
  /\ completedSubTopics p = submittedExercises p
  /\ (forall i, default [] (quizProgress p !! i)
                = map snd (List.filter (fun e => String.eqb (fst e) i) events)).
Proof.
  intros p. destruct (submitQuizzes_spec events noProgress) as (Hq & Hc & Hs).
  fold p in Hq, Hc, Hs.
  assert (Hq' : forall i, default [] (quizProgress p !! i)
                = map snd (List.filter (fun e => String.eqb (fst e) i) events)).
  { intros i. rewrite Hq. unfold noProgress. cbn [quizProgress].
    by rewrite lookup_empty. }
  assert (Hc' : forall i, i ∈ completedSubTopics p
                          <-> exists a, In (i, a) events /\ passed a = true).
  { intros i. rewrite Hc. unfold noProgress. cbn [completedSubTopics].
    split; [|by right]. intros [H|H]; [by apply not_elem_of_empty in H | done]. }
  split; [|split; [done|split; [|done]]].
  - intros i. rewrite Hc'. unfold hasPassed. rewrite Hq', existsb_exists. split.
    + intros (a & Ha & Hp). exists a. split; [|done].
      apply in_map_iff. exists (i, a). split; [done|]. apply filter_In. split; [done|].
      apply String.eqb_refl.
    + intros (a & Ha & Hp). apply in_map_iff in Ha as ([s a'] & Heq & Hin).
      simpl in Heq. subst a'. apply filter_In in Hin as [Hin Hs'].
      simpl in Hs'. apply String.eqb_eq in Hs'. subst s. by exists a.
  - apply set_eq. intros i. rewrite Hc', Hs. unfold noProgress. cbn [submittedExercises].
    split; [by right|]. intros [H|H]; [by apply not_elem_of_empty in H | done].
Qed.

(** ** Deleting a topic *)

Lemma find_filter {A} (p q : A -> bool) (l : list A) :
  (forall x, p x = true -> q x = true) ->
  List.find p (List.filter q l) = List.find p l.
Proof.
  intros Hpq. induction l as [|a l IH]; [done|]. simpl.
  destruct (q a) eqn:Hq; simpl.
  - destruct (p a); [done|exact IH].
  - destruct (p a) eqn:Hp; [|exact IH]. apply Hpq in Hp. congruence.
Qed.

Lemma linked_spec (c : gset string) (m : gmap string Position) (topics : list Topic)
    (s t : Topic) :
  linked (mkNodes c m topics) s t
  <-> In s topics /\ In (id t) (relatedTopics s)
      /\ List.find (fun x => String.eqb (id x) (id t)) topics = Some t
      /\ (level s < level t)%Z.
Proof.
  unfold linked. split.
  - intros (l & Hl & Hs & Ht).
    assert (exists l', In l' (allLinks (mkNodes c m topics)) /\ ends l' = ends l)
      as (l' & Hl' & He).
    { apply routeEdges_ends. eauto. }
    unfold ends in He. injection He as Hsrc Htgt _.
    apply in_allLinks in Hl' as (src & tid & tgt & Hin & Hrel & Hf & Hlt & ->).
    simpl in Hsrc, Htgt. subst src tgt.
    apply mkNodes_in in Hin as (s' & Hs' & Hsrc). rewrite Hsrc in *.
    rewrite findNode_mkNodes in Hf.
    destruct (List.find (fun x => String.eqb (id x) tid) topics) as [t2|] eqn:Hfind;
      [|done].
    injection Hf as Htgt. rewrite <- Htgt in *. simpl in Hs, Ht, Hlt. subst s' t2.
    pose proof (find_some _ _ Hfind) as [_ Hid]. apply String.eqb_eq in Hid. subst tid.
    done.
  - intros (Hs & Hrel & Hfind & Hlt).
    assert (exists l, In l (routeEdges (mkNodes c m topics))
              /\ ends l = ends (newLink (mkNode c m s) (mkNode c m t)))
      as (l & Hl & He).
    { apply routeEdges_ends. exists (newLink (mkNode c m s) (mkNode c m t)).
      split; [|done]. apply in_allLinks.
      exists (mkNode c m s), (id t), (mkNode c m t).
      split; [by apply in_map|]. split; [done|]. split; [|done].
      rewrite findNode_mkNodes. by rewrite Hfind. }
    unfold ends in He. injection He as Hs0 Ht0 _. simpl in Hs0, Ht0.
    exists l. split; [done|]. by rewrite Hs0, Ht0.
Qed.

Lemma filter_fresh_id (r : string) (topics : list Topic) :
  ~ In r (map id topics) ->
  List.filter (fun t => negb (String.eqb (id t) r)) topics = topics.
Proof.
  induction topics as [|t topics IH]; [done|]. simpl. intros Hfresh.
  assert (id t <> r) as Hne by (intros <-; apply Hfresh; by left).
  apply String.eqb_neq in Hne. rewrite Hne. simpl. f_equal.
  apply IH. intros H. apply Hfresh. by right.
Qed.

(** X27.  Deleting a topic in the builder, once confirmed, removes the
    topics with that id and keeps the others in order; a selection that
    named an existing topic still does so, or is empty.  In the graph of the
    remaining topics the links are those of the old graph that do not touch
    the deleted id.  Deleting the topic that was just added gives the old
    list back; declining the confirmation changes nothing. *)
Theorem delete_topic_drops_its_links (idToDelete : string) (topics : list Topic)
    (selectedTopicId : string) :
  let remaining := fst (handleDeleteTopic true idToDelete topics selectedTopicId) in
  let selected := snd (handleDeleteTopic true idToDelete topics selectedTopicId) in
  handleDeleteTopic false idToDelete topics selectedTopicId = (topics, selectedTopicId)
  /\ remaining = List.filter (fun t => negb (String.eqb (id t) idToDelete)) topics
  /\ ~ In idToDelete (map id remaining)
  /\ sublist remaining topics
  /\ (selectedTopicId = "" \/ In selectedTopicId (map id topics) ->
      selected = "" \/ In selected (map id remaining))
  /\ (forall c m m' s t,
        linked (mkNodes c m' remaining) s t
        <-> linked (mkNodes c m topics) s t /\ id s <> idToDelete /\ id t <> idToDelete)
  /\ (forall fuel firstTeacher,
        (length topics <= fuel)%nat ->
        exists added,
          handleAddTopic fuel firstTeacher topics = Some (topics ++ [added])
          /\ fst (handleDeleteTopic true (id added) (topics ++ [added]) selectedTopicId)
             = topics).
Proof.
  intros remaining selected. unfold remaining, selected, handleDeleteTopic.
  cbn [negb fst snd].
  set (keep := fun t : Topic => negb (String.eqb (id t) idToDelete)).
  assert (Hin : forall t, In t (List.filter keep topics) <-> In t topics /\ id t <> idToDelete).
  { intros t. rewrite filter_In. unfold keep. rewrite negb_true_iff, String.eqb_neq. done. }
  split; [done|]. split; [done|]. split; [|split; [|split; [|split]]].
  - intros H. apply in_map_iff in H as (t & Hid & Ht). apply Hin in Ht as [_ Hne]. done.
  - clear Hin. induction topics as [|t topics IH]; [done|]. simpl.
    destruct (keep t); [by apply sublist_skip | by apply sublist_cons].
  - intros Hsel. destruct (String.eqb_spec selectedTopicId idToDelete) as [->|Hne].
    + destruct (List.filter keep topics) as [|t rest]; [by left|]. right. by left.
    + destruct Hsel as [->|Hsel]; [by left|]. right.
      apply in_map_iff in Hsel as (t & <- & Ht). apply in_map. by apply Hin.
  - intros c m m' s t. rewrite !linked_spec. rewrite Hin. split.
    + intros ([Hs Hsne] & Hrel & Hfind & Hlt).
      pose proof (find_some _ _ Hfind) as [Ht _]. apply Hin in Ht as [Ht Htne].
      split; [|done]. split; [done|]. split; [done|]. split; [|done].
      rewrite <- Hfind. symmetry. apply find_filter.
      intros x Hx. apply String.eqb_eq in Hx. unfold keep.
      apply negb_true_iff, String.eqb_neq. congruence.
    + intros ((Hs & Hrel & Hfind & Hlt) & Hsne & Htne).
      split; [done|]. split; [done|]. split; [|done].
      rewrite <- Hfind. apply find_filter.
      intros x Hx. apply String.eqb_eq in Hx. unfold keep.
      apply negb_true_iff, String.eqb_neq. congruence.
  - intros fuel firstTeacher Hfuel.
    destruct (getUniqueId_spec fuel newTopicSlug (map id topics)) as (r & Hr & Hfresh & _).
    { by rewrite length_map. }
    unfold handleAddTopic. rewrite Hr. eexists. split; [reflexivity|].
    cbn [id]. rewrite List.filter_app. simpl. rewrite String.eqb_refl. simpl.
    rewrite app_nil_r. by apply filter_fresh_id.
Qed.

Lemma delete_topic_drops_its_links_witness :
  snd (handleDeleteTopic true "A" [topicA; topicB] "A") = ""
  \/ In (snd (handleDeleteTopic true "A" [topicA; topicB] "A"))
        (map id (fst (handleDeleteTopic true "A" [topicA; topicB] "A"))).
Proof.
  refine (proj1 (proj2 (proj2 (proj2 (proj2
            (delete_topic_drops_its_links "A" [topicA; topicB] "A"))))) _).
  right. left. reflexivity.
Defined.
